(** * bufio: binary encoding primitives and writers

    A shallow embedding of [src/encoding.ts], [src/writer.ts] (the
    Buffer Writer and, after it, the Static Writer of
    [staticwriter.js]), [src/sizewriter.ts] and the [encode] of
    [src/struct.ts], with the properties of the two varint codecs, the
    64-bit number path, the three writers and the writer pool.

    Conventions.
    - A JavaScript number that holds an integer is a [Z]; the 32-bit
      operators ([&], [|], [~], [<<], [>>], [>>>]) are written out with
      their wrap-around in [JS]. Arithmetic on numbers is exact as long
      as the values stay within 2^53, which the statements say.
    - A [Buffer] is a [list byte]; the source mutates it in place, the
      embedding passes it along: a function that writes returns the
      buffer it leaves behind together with its outcome, also when it
      throws.
    - An outcome is a value, a thrown exception, or [Unmodelled] where
      the call leaves the integer fragment (an [undefined] or [NaN]
      value) or depends on the version of the host's Buffer class. *)

From Stdlib Require Import ZArith Lia String.
From Stdlib.Strings Require Import Byte.
From stdpp Require Import base numbers list.
From Equations Require Import Equations.

Local Open Scope Z_scope.

(** ** The host language: 32-bit integer operators *)

Module JS.

Definition toInt32 (x : Z) : Z := (x + 2 ^ 31) mod 2 ^ 32 - 2 ^ 31.
Definition toUint32 (x : Z) : Z := x mod 2 ^ 32.

(** [a & b], [a | b], [~a] *)
Definition band (a b : Z) : Z := Z.land (toInt32 a) (toInt32 b).
Definition bor (a b : Z) : Z := Z.lor (toInt32 a) (toInt32 b).
Definition bnot (a : Z) : Z := Z.lnot (toInt32 a).

(** [a << n], [a >> n], [a >>> n]: the shift count is taken modulo 32 *)
Definition shl (a n : Z) : Z := toInt32 (Z.shiftl (toInt32 a) (n mod 32)).
Definition shr (a n : Z) : Z := Z.shiftr (toInt32 a) (n mod 32).
Definition ushr (a n : Z) : Z := Z.shiftr (toUint32 a) (n mod 32).

(** [MAX_SAFE_INTEGER] = 2^53 - 1 *)
Definition MAX_SAFE_INTEGER : Z := 9007199254740991.

(** truthiness of a number *)
Definition truthy (x : Z) : bool := negb (x =? 0).

End JS.

(** ** Bytes and the host's Buffer *)

Definition byte_of_Z (z : Z) : byte :=
  match Byte.of_N (Z.to_N (z mod 256)) with
  | Some b => b
  | None => Byte.x00
  end.

Definition Z_of_byte (b : byte) : Z := Z.of_N (Byte.to_N b).

Abbreviation Buffer := (list byte).

Module Buf.

Definition len (data : Buffer) : Z := Z.of_nat (length data).

(** [data[i]]: [None] is [undefined] *)
Definition get (data : Buffer) (i : Z) : option Z :=
  if i <? 0 then None else Z_of_byte <$> data !! Z.to_nat i.

(** [data[i] = v]: the value is stored modulo 256, a store outside the
    array is dropped *)
Definition set (data : Buffer) (i v : Z) : Buffer :=
  if i <? 0 then data else <[Z.to_nat i := byte_of_Z v]> data.

(** [data[i] = v0; data[i+1] = v1; ...] *)
Fixpoint store (data : Buffer) (i : Z) (vs : list Z) : Buffer :=
  match vs with
  | [] => data
  | v :: vs' => store (set data i v) (i + 1) vs'
  end.

Definition fits (data : Buffer) (offset width : Z) : bool :=
  (0 <=? offset) && (offset + width <=? len data).

Definition in_range (lo value hi : Z) : bool :=
  (lo <=? value) && (value <=? hi).

(** [data.readUInt32LE(offset, true)]. Inside the buffer every
    version of the host returns the little-endian value; outside, the
    result is [NaN] or a RangeError, by version. *)
Definition readUInt32LE (data : Buffer) (offset : Z) : option Z :=
  match get data offset, get data (offset + 1),
        get data (offset + 2), get data (offset + 3) with
  | Some b0, Some b1, Some b2, Some b3 =>
      Some (b0 + b1 * 0x100 + b2 * 0x10000 + b3 * 0x1000000)
  | _, _, _, _ => None
  end.

(** [data.readUInt32BE(offset, true)] *)
Definition readUInt32BE (data : Buffer) (offset : Z) : option Z :=
  match get data offset, get data (offset + 1),
        get data (offset + 2), get data (offset + 3) with
  | Some b0, Some b1, Some b2, Some b3 =>
      Some (b0 * 0x1000000 + b1 * 0x10000 + b2 * 0x100 + b3)
  | _, _, _, _ => None
  end.

(** [data.readInt32LE(offset, true)], [data.readInt32BE(offset, true)]:
    the same four bytes, taken as a signed word *)
Definition readInt32LE (data : Buffer) (offset : Z) : option Z :=
  JS.toInt32 <$> readUInt32LE data offset.

Definition readInt32BE (data : Buffer) (offset : Z) : option Z :=
  JS.toInt32 <$> readUInt32BE data offset.

(** The integer writers [data.write(U)Int{8,16,32}{LE,BE}(value, offset,
    true)]: with the value in the range of the type and the bytes
    inside the buffer, every version of the host stores the bytes and
    returns the offset after them; otherwise the behaviour is the
    host's (a dropped store or a RangeError). *)
Definition le_bytes (width : nat) (value : Z) : list Z :=
  (fun k => JS.ushr value (8 * Z.of_nat k)) <$> seq 0 width.

Definition be_bytes (width : nat) (value : Z) : list Z :=
  rev (le_bytes width value).

Definition write_int (be : bool) (width : nat) (lo hi : Z)
    (data : Buffer) (value offset : Z) : option (Buffer * Z) :=
  if in_range lo value hi && fits data offset (Z.of_nat width) then
    Some (store data offset
            (if be then be_bytes width value else le_bytes width value),
          offset + Z.of_nat width)
  else None.

Definition writeUInt8 := write_int false 1 0 0xff.
Definition writeUInt16LE := write_int false 2 0 0xffff.
Definition writeUInt16BE := write_int true 2 0 0xffff.
Definition writeUInt32LE := write_int false 4 0 0xffffffff.
Definition writeUInt32BE := write_int true 4 0 0xffffffff.
Definition writeInt8 := write_int false 1 (-0x80) 0x7f.
Definition writeInt16LE := write_int false 2 (-0x8000) 0x7fff.
Definition writeInt16BE := write_int true 2 (-0x8000) 0x7fff.
Definition writeInt32LE := write_int false 4 (-0x80000000) 0x7fffffff.
Definition writeInt32BE := write_int true 4 (-0x80000000) 0x7fffffff.

(** [data.slice(start, end)]: negative indices count from the end, and
    both ends are clamped to the buffer *)
Definition clamp (data : Buffer) (i : Z) : Z :=
  if i <? 0 then Z.max 0 (len data + i) else Z.min i (len data).

Definition slice (data : Buffer) (start end_ : Z) : Buffer :=
  let s := clamp data start in
  let e := clamp data end_ in
  take (Z.to_nat (e - s)) (drop (Z.to_nat s) data).

(** Overwrite [data] from index [i] (inside the buffer) with [bs],
    as far as the buffer reaches *)
Definition blit (data : Buffer) (i : nat) (bs : list byte) : Buffer :=
  take (length data) (take i data ++ bs ++ drop (i + length bs) data).

(** [source.copy(target, targetStart, sourceStart, sourceEnd)] returns
    the target and the number of bytes copied: as many as the source
    range holds and the target has room for. A negative index, or a
    source start past the source, is the host's business. *)
Definition copy (source target : Buffer) (targetStart sourceStart sourceEnd : Z)
    : option (Buffer * Z) :=
  if (0 <=? targetStart) && (0 <=? sourceEnd)
     && in_range 0 sourceStart (len source) then
    let n := Z.min (Z.min sourceEnd (len source) - sourceStart)
                   (len target - targetStart) in
    if n <=? 0 then Some (target, 0)
    else
      let bs := take (Z.to_nat n) (drop (Z.to_nat sourceStart) source) in
      Some (blit target (Z.to_nat targetStart) bs, n)
  else None.

(** [data.fill(value, start, end)] with a number: every byte of the
    range becomes [value & 255]; a range outside the buffer is a
    RangeError of the host *)
Definition fill (data : Buffer) (value start end_ : Z) : option Buffer :=
  if (0 <=? start) && (start <=? end_) && (end_ <=? len data) then
    Some (blit data (Z.to_nat start)
            (replicate (Z.to_nat (end_ - start)) (byte_of_Z (JS.band value 255))))
  else None.

End Buf.

(** ** Outcomes *)

(** [EncodingError] of [src/error.ts] carries the offset and the reason
    (its message is [reason (offset=offset).]); [assert] throws an
    AssertionError. *)
Inductive exn : Type :=
| EncodingError (offset : Z) (reason : string)
| AssertionError.

Inductive outcome (A : Type) : Type :=
| Ok (a : A)
| Throw (e : exn)
| Unmodelled.
Arguments Ok {A} a.
Arguments Throw {A} e.
Arguments Unmodelled {A}.

Definition bind {A B : Type} (m : outcome A) (k : A -> outcome B) : outcome B :=
  match m with
  | Ok a => k a
  | Throw e => Throw e
  | Unmodelled => Unmodelled
  end.

Definition of_host {A : Type} (o : option A) : outcome A :=
  match o with
  | Some a => Ok a
  | None => Unmodelled
  end.

Notation "'do' x <- m ; k" := (bind m (fun x => k))
  (at level 10, x pattern, m at level 100, k at level 200).
Notation "'do' '_' <- m ; k" := (bind m (fun _ => k))
  (at level 10, m at level 100, k at level 200).


(** A write leaves the buffer it worked on and an outcome. *)
Definition written (A : Type) : Type := (Buffer * outcome A)%type.

Definition host_write (data : Buffer) (r : option (Buffer * Z)) : written Z :=
  match r with
  | Some (data', off) => (data', Ok off)
  | None => (data, Unmodelled)
  end.

Definition wbind {A B : Type} (m : written A) (k : Buffer -> A -> written B)
    : written B :=
  match m with
  | (d, Ok a) => k d a
  | (d, Throw e) => (d, Throw e)
  | (d, Unmodelled) => (d, Unmodelled)
  end.


(** ** The n64 package *)

Module N64.

(** Modelled from the spec: the n64 package, a dependency of which the
    sources hold the interface only ([declare module "n64"]). A 64-bit
    integer is a pair of 32-bit words and a flag that tells a signed
    value ([I64]) from an unsigned one ([U64]); the operations below act
    on the value the pair stands for. *)
Record t : Type := mk { hi : Z; lo : Z; sign : Z }.

Definition uval (n : t) : Z :=
  JS.toUint32 (hi n) * 2 ^ 32 + JS.toUint32 (lo n).

Definition val (n : t) : Z :=
  if JS.truthy (sign n) then JS.toInt32 (hi n) * 2 ^ 32 + JS.toUint32 (lo n)
  else uval n.

Definition of_val (s : Z) (v : Z) : t :=
  {| hi := JS.toInt32 (v / 2 ^ 32); lo := JS.toInt32 v; sign := s |}.

Definition readLE (s : Z) (data : Buffer) (off : Z) : option t :=
  match Buf.readUInt32LE data off, Buf.readUInt32LE data (off + 4) with
  | Some l, Some h => Some {| hi := JS.toInt32 h; lo := JS.toInt32 l; sign := s |}
  | _, _ => None
  end.

Definition readBE (s : Z) (data : Buffer) (off : Z) : option t :=
  match Buf.readUInt32BE data off, Buf.readUInt32BE data (off + 4) with
  | Some h, Some l => Some {| hi := JS.toInt32 h; lo := JS.toInt32 l; sign := s |}
  | _, _ => None
  end.

(** [num.writeLE(dst, off)], [num.writeBE(dst, off)]: eight indexed
    stores *)
Definition writeLE (n : t) (dst : Buffer) (off : Z) : Buffer * Z :=
  (Buf.store dst off (Buf.le_bytes 4 (lo n) ++ Buf.le_bytes 4 (hi n)), off + 8).

Definition writeBE (n : t) (dst : Buffer) (off : Z) : Buffer * Z :=
  (Buf.store dst off (Buf.be_bytes 4 (hi n) ++ Buf.be_bytes 4 (lo n)), off + 8).

Definition toInt (n : t) : Z :=
  if JS.truthy (sign n) then JS.toInt32 (lo n) else JS.toUint32 (lo n).

Definition fromInt (s : Z) (num : Z) : t :=
  {| hi := if JS.truthy s && (num <? 0) then -1 else 0;
     lo := JS.toInt32 num; sign := s |}.

Definition clone (n : t) : t := n.
Definition andln (n : t) (k : Z) : Z := JS.band (lo n) k.
Definition lten (n : t) (k : Z) : bool := val n <=? k.
Definition ishrn (n : t) (bits : Z) : t := of_val (sign n) (val n / 2 ^ bits).
Definition isubn (n : t) (k : Z) : t := of_val (sign n) (val n - k).

Definition UINT64_MAX : t := {| hi := -1; lo := -1; sign := 0 |}.

(** [new U64()], and the operations of the loop of [readVarint2N] *)
Definition zero (s : Z) : t := {| hi := 0; lo := 0; sign := s |}.
Definition shrn (n : t) (bits : Z) : t := of_val (sign n) (val n / 2 ^ bits).
Definition ishln (n : t) (bits : Z) : t := of_val (sign n) (val n * 2 ^ bits).
Definition iorn (n : t) (k : Z) : t :=
  of_val (sign n) (Z.lor (val n) (JS.toInt32 k)).
Definition iaddn (n : t) (k : Z) : t := of_val (sign n) (val n + k).
Definition lte (a b : t) : bool := val a <=? val b.
Definition eq (a b : t) : bool := (uval a =? uval b).

End N64.

(** ** src/encoding.ts *)

Module encoding.

Record Varint (V : Type) : Type := mkVarint { size : Z; value : V }.
Arguments mkVarint {V} size value.
Arguments size {V} _.
Arguments value {V} _.

Definition check (value : bool) (offset : Z) : outcome unit :=
  if value then Ok tt else Throw (EncodingError offset "Out of bounds read").

Definition enforce (value : bool) (offset : Z) (reason : string) : outcome unit :=
  if value then Ok tt else Throw (EncodingError offset reason).

Definition readU64 (data : Buffer) (off : Z) : outcome Z :=
  do hi <- of_host (Buf.readUInt32LE data (off + 4));
  do lo <- of_host (Buf.readUInt32LE data off);
  do _ <- enforce (JS.band hi 0xffe00000 =? 0) off "Number exceeds 2^53-1";
  Ok (hi * 0x100000000 + lo).

Definition readU64BE (data : Buffer) (off : Z) : outcome Z :=
  do hi <- of_host (Buf.readUInt32BE data off);
  do lo <- of_host (Buf.readUInt32BE data (off + 4));
  do _ <- enforce (JS.band hi 0xffe00000 =? 0) off "Number exceeds 2^53-1";
  Ok (hi * 0x100000000 + lo).

(** [num * (1 / 0x100000000)] scales by a power of two, which is exact,
    and [| 0] drops the fraction and wraps to 32 bits. *)
Definition write64 (dst : Buffer) (num off : Z) (be : bool) : written Z :=
  let neg := num <? 0 in
  let num := if neg then - num else num in
  let hi := JS.bor (Z.quot num 0x100000000) 0 in
  let lo := JS.bor num 0 in
  let '(hi, lo) :=
    if neg then
      if lo =? 0 then (JS.bor (JS.bnot hi + 1) 0, lo)
      else (JS.bnot hi, JS.bnot lo + 1)
    else (hi, lo) in
  if be then
    wbind (host_write dst (Buf.writeInt32BE dst hi off)) (fun dst off =>
    host_write dst (Buf.writeInt32BE dst lo off))
  else
    wbind (host_write dst (Buf.writeInt32LE dst lo off)) (fun dst off =>
    host_write dst (Buf.writeInt32LE dst hi off)).

Definition writeU64 (dst : Buffer) (num off : Z) : written Z :=
  write64 dst num off false.

Definition writeU64BE (dst : Buffer) (num off : Z) : written Z :=
  write64 dst num off true.

Definition writeI64 (dst : Buffer) (num off : Z) : written Z :=
  write64 dst num off false.

Definition writeI64BE (dst : Buffer) (num off : Z) : written Z :=
  write64 dst num off true.

(** *** The signed reads *)

Definition isSafe (hi lo : Z) : bool :=
  let hi :=
    if hi <? 0 then
      let hi := JS.bnot hi in
      if lo =? 0 then hi + 1 else hi
    else hi in
  JS.band hi 0xffe00000 =? 0.

(** [readI64] and [readI64BE] call [enforce(isSafe(hi, lo), 'Number
    exceeds 2^53-1')], with two arguments: the text stands where the
    offset goes and the reason is left out. The error they throw is an
    [EncodingError] whose offset is that text and whose reason is
    [undefined]. *)
Inductive signed_read : Type :=
| Value (value : Z)
| Misplaced (offset : string)
| HostRead.

Definition readI64 (data : Buffer) (off : Z) : signed_read :=
  match Buf.readInt32LE data (off + 4), Buf.readUInt32LE data off with
  | Some hi, Some lo =>
      if isSafe hi lo then Value (hi * 0x100000000 + lo)
      else Misplaced "Number exceeds 2^53-1"
  | _, _ => HostRead
  end.

Definition readI64BE (data : Buffer) (off : Z) : signed_read :=
  match Buf.readInt32BE data off, Buf.readUInt32BE data (off + 4) with
  | Some hi, Some lo =>
      if isSafe hi lo then Value (hi * 0x100000000 + lo)
      else Misplaced "Number exceeds 2^53-1"
  | _, _ => HostRead
  end.

(** *** Varint scheme A *)

Definition readVarint (data : Buffer) (off : Z) : outcome (Varint Z) :=
  do _ <- check (off <? Buf.len data) off;
  do b <- of_host (Buf.get data off);
  if b =? 0xff then
    let size := 9 in
    do _ <- check (off + size <=? Buf.len data) off;
    do value <- readU64 data (off + 1);
    do _ <- enforce (0xffffffff <? value) off "Non-canonical varint";
    Ok (mkVarint size value)
  else if b =? 0xfe then
    let size := 5 in
    do _ <- check (off + size <=? Buf.len data) off;
    do value <- of_host (Buf.readUInt32LE data (off + 1));
    do _ <- enforce (0xffff <? value) off "Non-canonical varint";
    Ok (mkVarint size value)
  else if b =? 0xfd then
    let size := 3 in
    do _ <- check (off + size <=? Buf.len data) off;
    do b1 <- of_host (Buf.get data (off + 1));
    do b2 <- of_host (Buf.get data (off + 2));
    let value := JS.bor b1 (JS.shl b2 8) in
    do _ <- enforce (0xfd <=? value) off "Non-canonical varint";
    Ok (mkVarint size value)
  else
    Ok (mkVarint 1 b).

Definition writeVarint (dst : Buffer) (num off : Z) : written Z :=
  if num <? 0xfd then
    (Buf.store dst off [JS.band num 0xff], Ok (off + 1))
  else if num <=? 0xffff then
    (Buf.store dst off
       [0xfd; JS.band num 0xff; JS.band (JS.shr num 8) 0xff],
     Ok (off + 3))
  else if num <=? 0xffffffff then
    (Buf.store dst off
       [0xfe; JS.band num 0xff; JS.band (JS.shr num 8) 0xff;
        JS.band (JS.shr num 16) 0xff; JS.ushr num 24],
     Ok (off + 5))
  else
    writeU64 (Buf.set dst off 0xff) num (off + 1).

Definition sizeVarint (num : Z) : Z :=
  if num <? 0xfd then 1
  else if num <=? 0xffff then 3
  else if num <=? 0xffffffff then 5
  else 9.

(** *** The 64-bit path on pairs of words *)

Definition readU64N (data : Buffer) (off : Z) : outcome N64.t :=
  of_host (N64.readLE 0 data off).

Definition readU64BEN (data : Buffer) (off : Z) : outcome N64.t :=
  of_host (N64.readBE 0 data off).

Definition readI64N (data : Buffer) (off : Z) : outcome N64.t :=
  of_host (N64.readLE 1 data off).

Definition readI64BEN (data : Buffer) (off : Z) : outcome N64.t :=
  of_host (N64.readBE 1 data off).

Definition returned (r : Buffer * Z) : written Z := (fst r, Ok (snd r)).

Definition guarded (dst : Buffer) (g : outcome unit) (k : written Z) : written Z :=
  match g with
  | Ok _ => k
  | Throw e => (dst, Throw e)
  | Unmodelled => (dst, Unmodelled)
  end.

Definition writeU64N (dst : Buffer) (num : N64.t) (off : Z) : written Z :=
  guarded dst (enforce (negb (JS.truthy (N64.sign num))) off "Signed")
    (returned (N64.writeLE num dst off)).

Definition writeU64BEN (dst : Buffer) (num : N64.t) (off : Z) : written Z :=
  guarded dst (enforce (negb (JS.truthy (N64.sign num))) off "Signed")
    (returned (N64.writeBE num dst off)).

Definition writeI64N (dst : Buffer) (num : N64.t) (off : Z) : written Z :=
  guarded dst (enforce (JS.truthy (N64.sign num)) off "Not signed")
    (returned (N64.writeLE num dst off)).

Definition writeI64BEN (dst : Buffer) (num : N64.t) (off : Z) : written Z :=
  guarded dst (enforce (JS.truthy (N64.sign num)) off "Not signed")
    (returned (N64.writeBE num dst off)).

Definition writeVarintN (dst : Buffer) (num : N64.t) (off : Z) : written Z :=
  guarded dst (enforce (negb (JS.truthy (N64.sign num))) off "Signed")
    (if negb (N64.hi num =? 0) then
       writeU64N (Buf.set dst off 0xff) num (off + 1)
     else writeVarint dst (N64.toInt num) off).

Definition sizeVarintN (num : N64.t) : outcome Z :=
  do _ <- enforce (negb (JS.truthy (N64.sign num))) 0 "Signed";
  if negb (N64.hi num =? 0) then Ok 9
  else Ok (sizeVarint (N64.toInt num)).

Definition readVarintN (data : Buffer) (off : Z) : outcome (Varint N64.t) :=
  do _ <- check (off <? Buf.len data) off;
  if match Buf.get data off with Some b => b =? 0xff | None => false end then
    let size := 9 in
    do _ <- check (off + size <=? Buf.len data) off;
    do value <- readU64N data (off + 1);
    do _ <- enforce (negb (N64.hi value =? 0)) off "Non-canonical varint";
    Ok (mkVarint size value)
  else
    do r <- readVarint data off;
    Ok (mkVarint (size r) (N64.fromInt 0 (value r))).

(** *** Varint scheme B *)

(** The loop of [readVarint2] walks the bytes from [off] on: [rest] is
    what the buffer holds from the current [off], so it is empty exactly
    when [check(off < data.length, off)] fails. *)
Fixpoint readVarint2_loop (rest : list byte) (off num size : Z)
    : outcome (Varint Z) :=
  match rest with
  | [] => Throw (EncodingError off "Out of bounds read")
  | b :: rest' =>
      let ch := Z_of_byte b in
      let off := off + 1 in
      let size := size + 1 in
      do _ <- enforce (num <=? 0x3fffffffffff - JS.band ch 0x7f) off
                "Number exceeds 2^53-1";
      let num := num * 0x80 + JS.band ch 0x7f in
      if JS.band ch 0x80 =? 0 then Ok (mkVarint size num)
      else
        do _ <- enforce (negb (num =? JS.MAX_SAFE_INTEGER)) off
                  "Number exceeds 2^53-1";
        readVarint2_loop rest' off (num + 1) size
  end.

(** At a negative offset [data[off]] is [undefined], whose bits are all
    zero: the loop stops after one round. *)
Definition readVarint2 (data : Buffer) (off : Z) : outcome (Varint Z) :=
  if off <? 0 then Ok (mkVarint 1 0)
  else readVarint2_loop (drop (Z.to_nat off) data) off 0 0.

(** One round of the loops of [writeVarint2] and [sizeVarint2]:
    [num = ((num - (num % 0x80)) / 0x80) - 1]. *)
Definition varint2_next (num : Z) : Z :=
  Z.quot (num - Z.rem num 0x80) 0x80 - 1.

Lemma varint2_next_decreases (num : Z) :
  ~ num <= 0x7f ->
  (Z.to_nat (Z.log2 (varint2_next num)) < Z.to_nat (Z.log2 num))%nat.
Proof.
  intros Hn. unfold varint2_next.
  assert (Hq : Z.quot (num - Z.rem num 128) 128 - 1 < num / 2).
  { rewrite Z.rem_mod_nonneg, Z.quot_div_nonneg by (Z.div_mod_to_equations; lia).
    Z.div_mod_to_equations. lia. }
  assert (Hpos : 0 < Z.log2 num) by (apply Z.log2_pos; lia).
  destruct (Z_le_gt_dec (Z.quot (num - Z.rem num 128) 128 - 1) 0) as [Hz|Hz].
  - rewrite (Z.log2_nonpos _ Hz). lia.
  - assert (Z.log2 (2 * (Z.quot (num - Z.rem num 128) 128 - 1)) <= Z.log2 num)
      by (apply Z.log2_le_mono; Z.div_mod_to_equations; lia).
    rewrite Z.log2_double in * by lia. lia.
Qed.

(** The first loop of [writeVarint2] fills [tmp], one entry per round;
    [len] is the index of the last entry. *)
Equations writeVarint2_loop (num : Z) (len : nat) (tmp : list Z)
    : list Z * nat by wf (Z.to_nat (Z.log2 num)) lt :=
  writeVarint2_loop num len tmp
    with Z_le_dec num 0x7f => {
    | left _ :=
        (tmp ++ [JS.bor (JS.band num 0x7f) (if (len =? 0)%nat then 0x00 else 0x80)],
         len);
    | right H :=
        writeVarint2_loop (varint2_next num) (len + 1)%nat
          (tmp ++ [JS.bor (JS.band num 0x7f) (if (len =? 0)%nat then 0x00 else 0x80)])
    }.
Next Obligation. now apply varint2_next_decreases. Qed.

(** [do { dst[off++] = tmp[len]; } while (len--);] *)
Fixpoint writeVarint2_emit (tmp : list Z) (len : nat) (dst : Buffer) (off : Z)
    : Buffer * Z :=
  let dst := Buf.set dst off (nth len tmp 0) in
  match len with
  | O => (dst, off + 1)
  | S len' => writeVarint2_emit tmp len' dst (off + 1)
  end.

Definition writeVarint2 (dst : Buffer) (num off : Z) : written Z :=
  let '(tmp, len) := writeVarint2_loop num 0 [] in
  guarded dst (check (off + Z.of_nat len + 1 <=? Buf.len dst) off)
    (returned (writeVarint2_emit tmp len dst off)).

Equations sizeVarint2_loop (num size : Z) : Z by wf (Z.to_nat (Z.log2 num)) lt :=
  sizeVarint2_loop num size
    with Z_le_dec num 0x7f => {
    | left _ := size + 1;
    | right H := sizeVarint2_loop (varint2_next num) (size + 1)
    }.
Next Obligation. now apply varint2_next_decreases. Qed.

Definition sizeVarint2 (num : Z) : Z := sizeVarint2_loop num 0.

(** *** Varint scheme B on pairs of words *)

(** One round of the loops of [writeVarint2N] and [sizeVarint2N]:
    [num.ishrn(7).isubn(1)]. *)
Definition varint2N_next (num : N64.t) : N64.t :=
  N64.isubn (N64.ishrn num 7) 1.

Lemma N64_val_of_val (s v : Z) :
  0 <= v < 2 ^ 63 -> N64.val (N64.of_val s v) = v.
Proof.
  intros Hv. unfold N64.val, N64.uval, N64.of_val. cbn [N64.hi N64.lo N64.sign].
  unfold JS.toUint32, JS.toInt32.
  change (2 ^ 63) with 9223372036854775808 in Hv.
  change (2 ^ 31) with 2147483648. change (2 ^ 32) with 4294967296.
  destruct (JS.truthy s); Z.div_mod_to_equations; lia.
Qed.

Lemma N64_val_bound (n : N64.t) : N64.val n < 2 ^ 64.
Proof.
  unfold N64.val, N64.uval, JS.toUint32, JS.toInt32.
  change (2 ^ 64) with 18446744073709551616.
  change (2 ^ 31) with 2147483648. change (2 ^ 32) with 4294967296.
  destruct (JS.truthy _); Z.div_mod_to_equations; lia.
Qed.

Lemma varint2N_next_decreases (num : N64.t) :
  N64.lten num 0x7f = false ->
  (Z.to_nat (Z.log2 (N64.val (varint2N_next num)))
   < Z.to_nat (Z.log2 (N64.val num)))%nat.
Proof.
  unfold N64.lten. intros Hn. apply Z.leb_gt in Hn.
  pose proof (N64_val_bound num) as Hb.
  change (2 ^ 64) with 18446744073709551616 in Hb.
  unfold varint2N_next, N64.isubn, N64.ishrn. cbn [N64.sign N64.of_val].
  change (2 ^ 7) with 128.
  assert (Hq : 1 <= N64.val num / 128 < 144115188075855872)
    by (Z.div_mod_to_equations; lia).
  rewrite (N64_val_of_val _ (N64.val num / 128))
    by (change (2 ^ 63) with 9223372036854775808; lia).
  rewrite N64_val_of_val by (change (2 ^ 63) with 9223372036854775808; lia).
  assert (Hpos : 0 < Z.log2 (N64.val num)) by (apply Z.log2_pos; lia).
  destruct (Z_le_gt_dec (N64.val num / 128 - 1) 0) as [Hz|Hz].
  - rewrite (Z.log2_nonpos _ Hz). lia.
  - assert (Z.log2 (2 * (N64.val num / 128 - 1)) <= Z.log2 (N64.val num))
      by (apply Z.log2_le_mono; Z.div_mod_to_equations; lia).
    rewrite Z.log2_double in * by lia. lia.
Qed.

Equations writeVarint2N_loop (num : N64.t) (len : nat) (tmp : list Z)
    : list Z * nat by wf (Z.to_nat (Z.log2 (N64.val num))) lt :=
  writeVarint2N_loop num len tmp
    with Sumbool.sumbool_of_bool (N64.lten num 0x7f) => {
    | left _ :=
        (tmp ++ [JS.bor (N64.andln num 0x7f) (if (len =? 0)%nat then 0x00 else 0x80)],
         len);
    | right H :=
        writeVarint2N_loop (varint2N_next num) (len + 1)%nat
          (tmp ++ [JS.bor (N64.andln num 0x7f) (if (len =? 0)%nat then 0x00 else 0x80)])
    }.
Next Obligation. now apply varint2N_next_decreases. Qed.

Definition writeVarint2N (dst : Buffer) (num : N64.t) (off : Z) : written Z :=
  guarded dst (enforce (negb (JS.truthy (N64.sign num))) off "Signed")
    (if N64.hi num =? 0 then writeVarint2 dst (N64.toInt num) off
     else
       let num := N64.clone num in
       let '(tmp, len) := writeVarint2N_loop num 0 [] in
       guarded dst
         (enforce (off + Z.of_nat len + 1 <=? Buf.len dst) off "Out of bounds write")
         (returned (writeVarint2_emit tmp len dst off))).

Equations sizeVarint2N_loop (num : N64.t) (size : Z)
    : Z by wf (Z.to_nat (Z.log2 (N64.val num))) lt :=
  sizeVarint2N_loop num size
    with Sumbool.sumbool_of_bool (N64.lten num 0x7f) => {
    | left _ := size + 1;
    | right H := sizeVarint2N_loop (varint2N_next num) (size + 1)
    }.
Next Obligation. now apply varint2N_next_decreases. Qed.

Definition sizeVarint2N (num : N64.t) : outcome Z :=
  do _ <- enforce (negb (JS.truthy (N64.sign num))) 0 "Signed";
  if N64.hi num =? 0 then Ok (sizeVarint2 (N64.toInt num))
  else Ok (sizeVarint2N_loop (N64.clone num) 0).

Definition BASE128_MAX : N64.t := N64.shrn N64.UINT64_MAX 7.

Fixpoint readVarint2N_loop (rest : list byte) (off : Z) (num : N64.t) (size : Z)
    : outcome (Varint N64.t) :=
  match rest with
  | [] => Throw (EncodingError off "Out of bounds read")
  | b :: rest' =>
      let ch := Z_of_byte b in
      let off := off + 1 in
      let size := size + 1 in
      do _ <- enforce (N64.lte num BASE128_MAX) off "Number exceeds 2^64-1";
      let num := N64.iorn (N64.ishln num 7) (JS.band ch 0x7f) in
      if JS.band ch 0x80 =? 0 then Ok (mkVarint size num)
      else
        do _ <- enforce (negb (N64.eq num N64.UINT64_MAX)) off
                  "Number exceeds 2^64-1";
        readVarint2N_loop rest' off (N64.iaddn num 1) size
  end.

(** As in [readVarint2], a negative offset reads [undefined] and the
    loop stops after one round. *)
Definition readVarint2N (data : Buffer) (off : Z) : outcome (Varint N64.t) :=
  if off <? 0 then Ok (mkVarint 1 (N64.iorn (N64.ishln (N64.zero 0) 7) 0))
  else readVarint2N_loop (drop (Z.to_nat off) data) off (N64.zero 0) 0.

(** *** Sizes of length-prefixed payloads *)

Definition sizeVarBytes (data : Buffer) : Z :=
  sizeVarint (Buf.len data) + Buf.len data.

Definition sizeVarlen (len : Z) : Z := sizeVarint len + len.

End encoding.

(** ** Text and fresh memory

    What the host contributes to the writers besides the Buffer
    methods: the bytes of a string under a named encoding ([None] is the
    default), and the bytes that [Buffer.allocUnsafe] happens to hand
    out. *)

Class Host : Type := {
  encodeText : string -> option string -> list byte;
  uninit : nat -> byte
}.

Section HostBuffer.
Context `{Host}.

(** [Buffer.byteLength(value, enc)] *)
Definition byteLength (value : string) (enc : option string) : Z :=
  Buf.len (encodeText value enc).

(** [Buffer.allocUnsafe(size)]; a negative size is a RangeError of the
    host *)
Definition allocUnsafe (size : Z) : option Buffer :=
  if size <? 0 then None else Some (uninit <$> seq 0 (Z.to_nat size)).

(** [data.write(value, offset, enc)] returns the buffer and the number
    of bytes written. With room for the whole text it writes all of it;
    what is written of a text that does not fit depends on the
    encoding. The source also calls [data.write(value, offset,
    undefined, enc)], which is taken to name the same encoding. *)
Definition write (data : Buffer) (value : string) (offset : Z)
    (enc : option string) : option (Buffer * Z) :=
  let bs := encodeText value enc in
  if Buf.fits data offset (Buf.len bs) then
    Some (Buf.blit data (Z.to_nat offset) bs, Buf.len bs)
  else None.

End HostBuffer.

(** ** src/sizewriter.ts *)

Module SizeWriter.
Section SizeWriter.
Context `{Host}.

Record t : Type := mk { offset : Z }.

Definition create : t := {| offset := 0 |}.

Definition destroy (this : t) : t := {| offset := 0 |}.

Definition render (this : t) : t * Z :=
  let size := offset this in
  (destroy this, size).

Definition getSize (this : t) : Z := offset this.

Definition seek (off : Z) (this : t) : t := {| offset := offset this + off |}.

Definition advance (n : Z) (this : t) : t := {| offset := offset this + n |}.

Definition writeU8 (value : Z) := advance 1.
Definition writeU16 (value : Z) := advance 2.
Definition writeU16BE (value : Z) := advance 2.
Definition writeU32 (value : Z) := advance 4.
Definition writeU32BE (value : Z) := advance 4.
Definition writeU64 (value : Z) := advance 8.
Definition writeU64BE (value : Z) := advance 8.
Definition writeU64N (value : N64.t) := advance 8.
Definition writeU64BEN (value : N64.t) := advance 8.
Definition writeI8 (value : Z) := advance 1.
Definition writeI16 (value : Z) := advance 2.
Definition writeI16BE (value : Z) := advance 2.
Definition writeI32 (value : Z) := advance 4.
Definition writeI32BE (value : Z) := advance 4.
Definition writeI64 (value : Z) := advance 8.
Definition writeI64BE (value : Z) := advance 8.
Definition writeI64N (value : N64.t) := advance 8.
Definition writeI64BEN (value : N64.t) := advance 8.

Definition writeVarint (value : Z) (this : t) : t :=
  advance (encoding.sizeVarint value) this.

Definition writeVarintN (value : N64.t) (this : t) : t * outcome unit :=
  match encoding.sizeVarintN value with
  | Ok n => (advance n this, Ok tt)
  | Throw e => (this, Throw e)
  | Unmodelled => (this, Unmodelled)
  end.

Definition writeVarint2 (value : Z) (this : t) : t :=
  advance (encoding.sizeVarint2 value) this.

Definition writeVarint2N (value : N64.t) (this : t) : t * outcome unit :=
  match encoding.sizeVarint2N value with
  | Ok n => (advance n this, Ok tt)
  | Throw e => (this, Throw e)
  | Unmodelled => (this, Unmodelled)
  end.

Definition writeBytes (value : Buffer) (this : t) : t :=
  advance (Buf.len value) this.

Definition writeVarBytes (value : Buffer) (this : t) : t :=
  writeBytes value (writeVarint (Buf.len value) this).

Definition writeString (value : string) (enc : option string) (this : t) : t :=
  if (String.length value =? 0)%nat then this
  else advance (byteLength value enc) this.

Definition writeVarString (value : string) (enc : option string) (this : t) : t :=
  if (String.length value =? 0)%nat then advance 1 this
  else
    let size := byteLength value enc in
    advance size (writeVarint size this).

Definition writeNullString (value : string) (enc : option string) (this : t) : t :=
  writeU8 0 (writeString value enc this).

Definition writeChecksum (hash : Buffer -> Buffer) (this : t) : t :=
  advance 4 this.

Definition fill (value size : Z) (this : t) : t := advance size this.

Definition copy (value : Buffer) (start end_ : Z) (this : t) : t :=
  advance (end_ - start) this.

Definition writeHash (value : Buffer + string) (this : t) : t := advance 32 this.

End SizeWriter.
End SizeWriter.

(** ** src/writer.ts *)

Module BufferWriter.
Section BufferWriter.
Context `{Host}.

Inductive OpType : Type :=
| SEEK | UI8 | UI16 | UI16BE | UI32 | UI32BE | UI64 | UI64BE | UI64N | UI64BEN
| I8 | I16 | I16BE | I32 | I32BE | I64 | I64BE | I64N | I64BEN
| FL | FLBE | DBL | DBLBE
| VARINT | VARINTN | VARINT2 | VARINT2N
| BYTES | STR | CHECKSUM | FILL.

(** The payload of a [NumberOp] is a number or a pair of words. *)
Inductive number : Type :=
| Num (n : Z)
| Big (n : N64.t).

Inductive WriteOp : Type :=
| NumberOp (type : OpType) (value : number)
| BufferOp (type : OpType) (data : Buffer)
| StringOp (type : OpType) (value : string) (enc : option string)
| FunctionOp (type : OpType) (func : Buffer -> Buffer)
| FillOp (type : OpType) (value : Z) (size : Z).

Record t : Type := mk { ops : list WriteOp; offset : Z }.

Definition create : t := {| ops := []; offset := 0 |}.

Definition destroy (this : t) : t := {| ops := []; offset := 0 |}.

Definition getSize (this : t) : Z := offset this.

(** [this.offset += n; this.ops.push(op)] *)
Definition push (n : Z) (op : WriteOp) (this : t) : t :=
  {| ops := ops this ++ [op]; offset := offset this + n |}.

Definition seek (off : Z) := push off (NumberOp SEEK (Num off)).
Definition writeU8 (value : Z) := push 1 (NumberOp UI8 (Num value)).
Definition writeU16 (value : Z) := push 2 (NumberOp UI16 (Num value)).
Definition writeU16BE (value : Z) := push 2 (NumberOp UI16BE (Num value)).
Definition writeU32 (value : Z) := push 4 (NumberOp UI32 (Num value)).
Definition writeU32BE (value : Z) := push 4 (NumberOp UI32BE (Num value)).
Definition writeU64 (value : Z) := push 8 (NumberOp UI64 (Num value)).
Definition writeU64BE (value : Z) := push 8 (NumberOp UI64BE (Num value)).
Definition writeU64N (value : N64.t) := push 8 (NumberOp UI64N (Big value)).
Definition writeU64BEN (value : N64.t) := push 8 (NumberOp UI64BEN (Big value)).
Definition writeI8 (value : Z) := push 1 (NumberOp I8 (Num value)).
Definition writeI16 (value : Z) := push 2 (NumberOp I16 (Num value)).
Definition writeI16BE (value : Z) := push 2 (NumberOp I16BE (Num value)).
Definition writeI32 (value : Z) := push 4 (NumberOp I32 (Num value)).
Definition writeI32BE (value : Z) := push 4 (NumberOp I32BE (Num value)).
Definition writeI64 (value : Z) := push 8 (NumberOp I64 (Num value)).
Definition writeI64BE (value : Z) := push 8 (NumberOp I64BE (Num value)).
Definition writeI64N (value : N64.t) := push 8 (NumberOp I64N (Big value)).
Definition writeI64BEN (value : N64.t) := push 8 (NumberOp I64BEN (Big value)).

Definition writeVarint (value : Z) :=
  push (encoding.sizeVarint value) (NumberOp VARINT (Num value)).

Definition writeVarintN (value : N64.t) (this : t) : t * outcome unit :=
  match encoding.sizeVarintN value with
  | Ok n => (push n (NumberOp VARINTN (Big value)) this, Ok tt)
  | Throw e => (this, Throw e)
  | Unmodelled => (this, Unmodelled)
  end.

Definition writeVarint2 (value : Z) :=
  push (encoding.sizeVarint2 value) (NumberOp VARINT2 (Num value)).

Definition writeVarint2N (value : N64.t) (this : t) : t * outcome unit :=
  match encoding.sizeVarint2N value with
  | Ok n => (push n (NumberOp VARINT2N (Big value)) this, Ok tt)
  | Throw e => (this, Throw e)
  | Unmodelled => (this, Unmodelled)
  end.

Definition writeBytes (value : Buffer) (this : t) : t :=
  if Buf.len value =? 0 then this
  else push (Buf.len value) (BufferOp BYTES value) this.

Definition writeVarBytes (value : Buffer) (this : t) : t :=
  let this := push (encoding.sizeVarint (Buf.len value))
                (NumberOp VARINT (Num (Buf.len value))) this in
  if Buf.len value =? 0 then this
  else push (Buf.len value) (BufferOp BYTES value) this.

Definition writeString (value : string) (enc : option string) (this : t) : t :=
  if (String.length value =? 0)%nat then this
  else push (byteLength value enc) (StringOp STR value enc) this.

Definition writeVarString (value : string) (enc : option string) (this : t) : t :=
  if (String.length value =? 0)%nat then
    {| ops := ops this ++ [NumberOp VARINT (Num 0)]; offset := offset this |}
  else
    let size := byteLength value enc in
    let this := {| ops := ops this; offset := offset this + encoding.sizeVarint size |} in
    let this := {| ops := ops this; offset := offset this + size |} in
    let this := {| ops := ops this ++ [NumberOp VARINT (Num size)];
                   offset := offset this |} in
    {| ops := ops this ++ [StringOp STR value enc]; offset := offset this |}.

Definition writeNullString (value : string) (enc : option string) (this : t) : t :=
  writeU8 0 (writeString value enc this).

Definition writeChecksum (hash : Buffer -> Buffer) :=
  push 4 (FunctionOp CHECKSUM hash).

Definition fill (value size : Z) (this : t) : t * outcome unit :=
  if negb (0 <=? size) then (this, Throw AssertionError)
  else if size =? 0 then (this, Ok tt)
  else (push size (FillOp FILL value size) this, Ok tt).

Definition copy (value : Buffer) (start end_ : Z) (this : t) : t * outcome unit :=
  if negb (start <=? end_) then (this, Throw AssertionError)
  else (writeBytes (Buf.slice value start end_) this, Ok tt).

(** A hash is 32 bytes, or the 64 characters that spell them in
    hexadecimal. *)
Definition writeHash (value : Buffer + string) (this : t) : t * outcome unit :=
  match value with
  | inl bytes =>
      if negb (Buf.len bytes =? 32) then (this, Throw AssertionError)
      else (writeBytes bytes this, Ok tt)
  | inr text =>
      if negb (String.length text =? 64)%nat then (this, Throw AssertionError)
      else (writeString text (Some "hex"%string) this, Ok tt)
  end.

(** One round of the loop of [render]: the [switch] on [op.type]. A
    record whose fields do not fit its tag is built by no method; the
    float ops need IEEE-754 and are left out. *)
Definition replay_op (op : WriteOp) (data : Buffer) (off : Z) : written Z :=
  match op with
  | NumberOp SEEK (Num value) => (data, Ok (off + value))
  | NumberOp UI8 (Num value) => host_write data (Buf.writeUInt8 data value off)
  | NumberOp UI16 (Num value) => host_write data (Buf.writeUInt16LE data value off)
  | NumberOp UI16BE (Num value) => host_write data (Buf.writeUInt16BE data value off)
  | NumberOp UI32 (Num value) => host_write data (Buf.writeUInt32LE data value off)
  | NumberOp UI32BE (Num value) => host_write data (Buf.writeUInt32BE data value off)
  | NumberOp UI64 (Num value) => encoding.writeU64 data value off
  | NumberOp UI64BE (Num value) => encoding.writeU64BE data value off
  | NumberOp UI64N (Big value) => encoding.writeU64N data value off
  | NumberOp UI64BEN (Big value) => encoding.writeU64BEN data value off
  | NumberOp I8 (Num value) => host_write data (Buf.writeInt8 data value off)
  | NumberOp I16 (Num value) => host_write data (Buf.writeInt16LE data value off)
  | NumberOp I16BE (Num value) => host_write data (Buf.writeInt16BE data value off)
  | NumberOp I32 (Num value) => host_write data (Buf.writeInt32LE data value off)
  | NumberOp I32BE (Num value) => host_write data (Buf.writeInt32BE data value off)
  | NumberOp I64 (Num value) => encoding.writeI64 data value off
  | NumberOp I64BE (Num value) => encoding.writeI64BE data value off
  | NumberOp I64N (Big value) => encoding.writeI64N data value off
  | NumberOp I64BEN (Big value) => encoding.writeI64BEN data value off
  | NumberOp VARINT (Num value) => encoding.writeVarint data value off
  | NumberOp VARINTN (Big value) => encoding.writeVarintN data value off
  | NumberOp VARINT2 (Num value) => encoding.writeVarint2 data value off
  | NumberOp VARINT2N (Big value) => encoding.writeVarint2N data value off
  | BufferOp BYTES value =>
      match Buf.copy value data off 0 (Buf.len value) with
      | Some (data, n) => (data, Ok (off + n))
      | None => (data, Unmodelled)
      end
  | StringOp STR value enc =>
      match write data value off enc with
      | Some (data, n) => (data, Ok (off + n))
      | None => (data, Unmodelled)
      end
  | FunctionOp CHECKSUM func =>
      match Buf.copy (func (Buf.slice data 0 off)) data off 0 4 with
      | Some (data, n) => (data, Ok (off + n))
      | None => (data, Unmodelled)
      end
  | FillOp FILL value size =>
      match Buf.fill data value off (off + size) with
      | Some data => (data, Ok (off + size))
      | None => (data, Unmodelled)
      end
  | _ => (data, Unmodelled)
  end.

(** [for (let op of this.ops) ...] *)
Fixpoint replay (ops : list WriteOp) (data : Buffer) (off : Z) : written Z :=
  match ops with
  | [] => (data, Ok off)
  | op :: ops' => wbind (replay_op op data off) (replay ops')
  end.

Definition render (this : t) : t * outcome Buffer :=
  match allocUnsafe (offset this) with
  | None => (this, Unmodelled)
  | Some data =>
      match replay (ops this) data 0 with
      | (data, Ok off) =>
          if negb (off =? Buf.len data) then
            (this, Throw (EncodingError off "Out of bounds write"))
          else (destroy this, Ok data)
      | (_, Throw e) => (this, Throw e)
      | (_, Unmodelled) => (this, Unmodelled)
      end
  end.

End BufferWriter.
End BufferWriter.

(** ** src/staticwriter.ts *)

Module StaticWriter.
Section StaticWriter.
Context `{Host}.

Record t : Type := mk { data : Buffer; offset : Z }.

Definition EMPTY : Buffer := [].
Definition POOLSIZE : Z := Z.shiftl 100 10.

Definition create : t := {| data := EMPTY; offset := 0 |}.

(** [init(options)] with a buffer, and with a size *)
Definition init_buffer (options : Buffer) (this : t) : t :=
  {| data := options; offset := 0 |}.

Definition init_size (options : Z) (this : t) : t * outcome unit :=
  if negb (JS.ushr options 0 =? options) then (this, Throw AssertionError)
  else
    match allocUnsafe options with
    | Some d => ({| data := d; offset := 0 |}, Ok tt)
    | None => (this, Unmodelled)
    end.

Definition destroy (this : t) : t := {| data := EMPTY; offset := 0 |}.

Definition render (this : t) : t * outcome Buffer :=
  if negb (offset this =? Buf.len (data this)) then
    (this, Throw (EncodingError (offset this) "Out of bounds write"))
  else (destroy this, Ok (data this)).

Definition slice (this : t) : t * outcome Buffer :=
  if Buf.len (data this) <? offset this then
    (this, Throw (EncodingError (offset this) "Out of bounds write"))
  else (destroy this, Ok (Buf.slice (data this) 0 (offset this))).

Definition getSize (this : t) : Z := offset this.

Definition seek (off : Z) (this : t) : t :=
  {| data := data this; offset := offset this + off |}.

(** [this.offset = f(this.data, value, this.offset)]: the buffer keeps
    what the call stored, the offset moves when the call returns *)
Definition assign (this : t) (r : written Z) : t * outcome unit :=
  match r with
  | (d, Ok off) => ({| data := d; offset := off |}, Ok tt)
  | (d, Throw e) => ({| data := d; offset := offset this |}, Throw e)
  | (d, Unmodelled) => ({| data := d; offset := offset this |}, Unmodelled)
  end.

Definition via (f : Buffer -> Z -> Z -> option (Buffer * Z)) (value : Z) (this : t)
    : t * outcome unit :=
  assign this (host_write (data this) (f (data this) value (offset this))).

Definition writeU8 := via Buf.writeUInt8.
Definition writeU16 := via Buf.writeUInt16LE.
Definition writeU16BE := via Buf.writeUInt16BE.
Definition writeU32 := via Buf.writeUInt32LE.
Definition writeU32BE := via Buf.writeUInt32BE.
Definition writeI8 := via Buf.writeInt8.
Definition writeI16 := via Buf.writeInt16LE.
Definition writeI16BE := via Buf.writeInt16BE.
Definition writeI32 := via Buf.writeInt32LE.
Definition writeI32BE := via Buf.writeInt32BE.

Definition writeU64 (value : Z) (this : t) :=
  assign this (encoding.writeU64 (data this) value (offset this)).
Definition writeU64BE (value : Z) (this : t) :=
  assign this (encoding.writeU64BE (data this) value (offset this)).
Definition writeU64N (value : N64.t) (this : t) :=
  assign this (encoding.writeU64N (data this) value (offset this)).
Definition writeU64BEN (value : N64.t) (this : t) :=
  assign this (encoding.writeU64BEN (data this) value (offset this)).
Definition writeI64 (value : Z) (this : t) :=
  assign this (encoding.writeI64 (data this) value (offset this)).
Definition writeI64BE (value : Z) (this : t) :=
  assign this (encoding.writeI64BE (data this) value (offset this)).
Definition writeI64N (value : N64.t) (this : t) :=
  assign this (encoding.writeI64N (data this) value (offset this)).
Definition writeI64BEN (value : N64.t) (this : t) :=
  assign this (encoding.writeI64BEN (data this) value (offset this)).

Definition writeVarint (value : Z) (this : t) :=
  assign this (encoding.writeVarint (data this) value (offset this)).
Definition writeVarintN (value : N64.t) (this : t) :=
  assign this (encoding.writeVarintN (data this) value (offset this)).
Definition writeVarint2 (value : Z) (this : t) :=
  assign this (encoding.writeVarint2 (data this) value (offset this)).
Definition writeVarint2N (value : N64.t) (this : t) :=
  assign this (encoding.writeVarint2N (data this) value (offset this)).

(** Run [k] on the writer that [m] leaves when it returns. *)
Definition andthen (m : t * outcome unit) (k : t -> t * outcome unit)
    : t * outcome unit :=
  match m with
  | (this, Ok _) => k this
  | (this, Throw e) => (this, Throw e)
  | (this, Unmodelled) => (this, Unmodelled)
  end.

Definition writeBytes (value : Buffer) (this : t) : t * outcome unit :=
  if Buf.len value =? 0 then (this, Ok tt)
  else
    match Buf.copy value (data this) (offset this) 0 (Buf.len value) with
    | Some (d, _) => ({| data := d; offset := offset this + Buf.len value |}, Ok tt)
    | None => (this, Unmodelled)
    end.

Definition writeVarBytes (value : Buffer) (this : t) : t * outcome unit :=
  andthen (writeVarint (Buf.len value) this) (writeBytes value).

Definition writeString (value : string) (enc : option string) (this : t)
    : t * outcome unit :=
  if (String.length value =? 0)%nat then (this, Ok tt)
  else
    let size := byteLength value enc in
    match write (data this) value (offset this) enc with
    | Some (d, _) => ({| data := d; offset := offset this + size |}, Ok tt)
    | None => (this, Unmodelled)
    end.

Definition writeVarString (value : string) (enc : option string) (this : t)
    : t * outcome unit :=
  if (String.length value =? 0)%nat then writeVarint 0 this
  else
    let size := byteLength value enc in
    andthen (writeVarint size this) (fun this =>
    match write (data this) value (offset this) enc with
    | Some (d, _) => ({| data := d; offset := offset this + size |}, Ok tt)
    | None => (this, Unmodelled)
    end).

Definition writeNullString (value : string) (enc : option string) (this : t)
    : t * outcome unit :=
  andthen (writeString value enc this) (writeU8 0).

Definition writeChecksum (hash : Buffer -> Buffer) (this : t) : t * outcome unit :=
  let data_ := Buf.slice (data this) 0 (offset this) in
  match Buf.copy (hash data_) (data this) (offset this) 0 4 with
  | Some (d, _) => ({| data := d; offset := offset this + 4 |}, Ok tt)
  | None => (this, Unmodelled)
  end.

Definition fill (value size : Z) (this : t) : t * outcome unit :=
  if negb (0 <=? size) then (this, Throw AssertionError)
  else if size =? 0 then (this, Ok tt)
  else
    match Buf.fill (data this) value (offset this) (offset this + size) with
    | Some d => ({| data := d; offset := offset this + size |}, Ok tt)
    | None => (this, Unmodelled)
    end.

Definition copy (value : Buffer) (start end_ : Z) (this : t) : t * outcome unit :=
  let len := end_ - start in
  if len =? 0 then (this, Ok tt)
  else
    match Buf.copy value (data this) (offset this) start end_ with
    | Some (d, _) => ({| data := d; offset := offset this + len |}, Ok tt)
    | None => (this, Unmodelled)
    end.

Definition writeHash (value : Buffer + string) (this : t) : t * outcome unit :=
  match value with
  | inl bytes =>
      if negb (Buf.len bytes =? 32) then (this, Throw AssertionError)
      else writeBytes bytes this
  | inr text =>
      if negb (String.length text =? 64)%nat then (this, Throw AssertionError)
      else
        match write (data this) text (offset this) (Some "hex"%string) with
        | Some (d, _) => ({| data := d; offset := offset this + 32 |}, Ok tt)
        | None => (this, Unmodelled)
        end
  end.

End StaticWriter.
End StaticWriter.

(** ** The shared writer contract

    [interface IWriter] of [src/writer.ts], as the calls a client can
    make on a writer. [copy], [writeHash] and the float writers are not
    among the modelled calls. *)

Inductive call : Type :=
| seek (offset : Z)
| writeU8 (value : Z)
| writeU16 (value : Z)
| writeU16BE (value : Z)
| writeU32 (value : Z)
| writeU32BE (value : Z)
| writeU64 (value : Z)
| writeU64BE (value : Z)
| writeU64N (value : N64.t)
| writeU64BEN (value : N64.t)
| writeI8 (value : Z)
| writeI16 (value : Z)
| writeI16BE (value : Z)
| writeI32 (value : Z)
| writeI32BE (value : Z)
| writeI64 (value : Z)
| writeI64BE (value : Z)
| writeI64N (value : N64.t)
| writeI64BEN (value : N64.t)
| writeVarint (value : Z)
| writeVarintN (value : N64.t)
| writeVarint2 (value : Z)
| writeVarint2N (value : N64.t)
| writeBytes (value : Buffer)
| writeVarBytes (value : Buffer)
| writeString (value : string) (enc : option string)
| writeVarString (value : string) (enc : option string)
| writeNullString (value : string) (enc : option string)
| writeChecksum (hash : Buffer -> Buffer)
| fill (value size : Z).

Class IWriter (W : Type) : Type := {
  invoke : call -> W -> W * outcome unit
}.

(** A client's calls in order; the first one that throws ends the run. *)
Fixpoint run {W : Type} `{IWriter W} (calls : list call) (w : W) : W * outcome unit :=
  match calls with
  | [] => (w, Ok tt)
  | c :: calls' =>
      match invoke c w with
      | (w', Ok _) => run calls' w'
      | (w', Throw e) => (w', Throw e)
      | (w', Unmodelled) => (w', Unmodelled)
      end
  end.

Definition done {W : Type} (w : W) : W * outcome unit := (w, Ok tt).

Section Contract.
Context `{Host}.

#[export] Instance SizeWriter_IWriter : IWriter SizeWriter.t := {
  invoke c this :=
    match c with
    | seek off => done (SizeWriter.seek off this)
    | writeU8 v => done (SizeWriter.writeU8 v this)
    | writeU16 v => done (SizeWriter.writeU16 v this)
    | writeU16BE v => done (SizeWriter.writeU16BE v this)
    | writeU32 v => done (SizeWriter.writeU32 v this)
    | writeU32BE v => done (SizeWriter.writeU32BE v this)
    | writeU64 v => done (SizeWriter.writeU64 v this)
    | writeU64BE v => done (SizeWriter.writeU64BE v this)
    | writeU64N v => done (SizeWriter.writeU64N v this)
    | writeU64BEN v => done (SizeWriter.writeU64BEN v this)
    | writeI8 v => done (SizeWriter.writeI8 v this)
    | writeI16 v => done (SizeWriter.writeI16 v this)
    | writeI16BE v => done (SizeWriter.writeI16BE v this)
    | writeI32 v => done (SizeWriter.writeI32 v this)
    | writeI32BE v => done (SizeWriter.writeI32BE v this)
    | writeI64 v => done (SizeWriter.writeI64 v this)
    | writeI64BE v => done (SizeWriter.writeI64BE v this)
    | writeI64N v => done (SizeWriter.writeI64N v this)
    | writeI64BEN v => done (SizeWriter.writeI64BEN v this)
    | writeVarint v => done (SizeWriter.writeVarint v this)
    | writeVarintN v => SizeWriter.writeVarintN v this
    | writeVarint2 v => done (SizeWriter.writeVarint2 v this)
    | writeVarint2N v => SizeWriter.writeVarint2N v this
    | writeBytes v => done (SizeWriter.writeBytes v this)
    | writeVarBytes v => done (SizeWriter.writeVarBytes v this)
    | writeString v enc => done (SizeWriter.writeString v enc this)
    | writeVarString v enc => done (SizeWriter.writeVarString v enc this)
    | writeNullString v enc => done (SizeWriter.writeNullString v enc this)
    | writeChecksum h => done (SizeWriter.writeChecksum h this)
    | fill v size => done (SizeWriter.fill v size this)
    end
}.

#[export] Instance BufferWriter_IWriter : IWriter BufferWriter.t := {
  invoke c this :=
    match c with
    | seek off => done (BufferWriter.seek off this)
    | writeU8 v => done (BufferWriter.writeU8 v this)
    | writeU16 v => done (BufferWriter.writeU16 v this)
    | writeU16BE v => done (BufferWriter.writeU16BE v this)
    | writeU32 v => done (BufferWriter.writeU32 v this)
    | writeU32BE v => done (BufferWriter.writeU32BE v this)
    | writeU64 v => done (BufferWriter.writeU64 v this)
    | writeU64BE v => done (BufferWriter.writeU64BE v this)
    | writeU64N v => done (BufferWriter.writeU64N v this)
    | writeU64BEN v => done (BufferWriter.writeU64BEN v this)
    | writeI8 v => done (BufferWriter.writeI8 v this)
    | writeI16 v => done (BufferWriter.writeI16 v this)
    | writeI16BE v => done (BufferWriter.writeI16BE v this)
    | writeI32 v => done (BufferWriter.writeI32 v this)
    | writeI32BE v => done (BufferWriter.writeI32BE v this)
    | writeI64 v => done (BufferWriter.writeI64 v this)
    | writeI64BE v => done (BufferWriter.writeI64BE v this)
    | writeI64N v => done (BufferWriter.writeI64N v this)
    | writeI64BEN v => done (BufferWriter.writeI64BEN v this)
    | writeVarint v => done (BufferWriter.writeVarint v this)
    | writeVarintN v => BufferWriter.writeVarintN v this
    | writeVarint2 v => done (BufferWriter.writeVarint2 v this)
    | writeVarint2N v => BufferWriter.writeVarint2N v this
    | writeBytes v => done (BufferWriter.writeBytes v this)
    | writeVarBytes v => done (BufferWriter.writeVarBytes v this)
    | writeString v enc => done (BufferWriter.writeString v enc this)
    | writeVarString v enc => done (BufferWriter.writeVarString v enc this)
    | writeNullString v enc => done (BufferWriter.writeNullString v enc this)
    | writeChecksum h => done (BufferWriter.writeChecksum h this)
    | fill v size => BufferWriter.fill v size this
    end
}.

#[export] Instance StaticWriter_IWriter : IWriter StaticWriter.t := {
  invoke c this :=
    match c with
    | seek off => done (StaticWriter.seek off this)
    | writeU8 v => StaticWriter.writeU8 v this
    | writeU16 v => StaticWriter.writeU16 v this
    | writeU16BE v => StaticWriter.writeU16BE v this
    | writeU32 v => StaticWriter.writeU32 v this
    | writeU32BE v => StaticWriter.writeU32BE v this
    | writeU64 v => StaticWriter.writeU64 v this
    | writeU64BE v => StaticWriter.writeU64BE v this
    | writeU64N v => StaticWriter.writeU64N v this
    | writeU64BEN v => StaticWriter.writeU64BEN v this
    | writeI8 v => StaticWriter.writeI8 v this
    | writeI16 v => StaticWriter.writeI16 v this
    | writeI16BE v => StaticWriter.writeI16BE v this
    | writeI32 v => StaticWriter.writeI32 v this
    | writeI32BE v => StaticWriter.writeI32BE v this
    | writeI64 v => StaticWriter.writeI64 v this
    | writeI64BE v => StaticWriter.writeI64BE v this
    | writeI64N v => StaticWriter.writeI64N v this
    | writeI64BEN v => StaticWriter.writeI64BEN v this
    | writeVarint v => StaticWriter.writeVarint v this
    | writeVarintN v => StaticWriter.writeVarintN v this
    | writeVarint2 v => StaticWriter.writeVarint2 v this
    | writeVarint2N v => StaticWriter.writeVarint2N v this
    | writeBytes v => StaticWriter.writeBytes v this
    | writeVarBytes v => StaticWriter.writeVarBytes v this
    | writeString v enc => StaticWriter.writeString v enc this
    | writeVarString v enc => StaticWriter.writeVarString v enc this
    | writeNullString v enc => StaticWriter.writeNullString v enc this
    | writeChecksum h => StaticWriter.writeChecksum h this
    | fill v size => StaticWriter.fill v size this
    end
}.

End Contract.

(** ** src/struct.ts

    A struct is known to [encode] by what its [getSize] returns and by
    the calls that its [write] makes on the writer it is handed. *)

Module Struct.
Section Struct.
Context `{Host}.

Record t : Type := mk { getSize : Z; write : list call }.

Definition finish {W : Type} (r : W * outcome unit)
    (render : W -> W * outcome Buffer) : outcome Buffer :=
  match r with
  | (bw, Ok _) => snd (render bw)
  | (_, Throw e) => Throw e
  | (_, Unmodelled) => Unmodelled
  end.

Definition encode (this : t) : outcome Buffer :=
  let size := getSize this in
  if size =? -1 then
    finish (run (write this) BufferWriter.create) BufferWriter.render
  else
    match StaticWriter.init_size size StaticWriter.create with
    | (bw, Ok _) => finish (run (write this) bw) StaticWriter.render
    | (_, Throw e) => Throw e
    | (_, Unmodelled) => Unmodelled
    end.

End Struct.
End Struct.

(** ** The pool of [StaticWriter.pool]

    A Buffer of the host is a view of an allocation, and [slice] makes a
    second view of the same bytes. The writers above own their buffer
    and are modelled by its contents; for the pool, which hands the same
    slab to every caller, the allocations and the views are modelled. *)

Module Pool.

(** A view: the allocation it looks into, where it starts there, and
    how many bytes it spans. *)
Record view : Type := mkView { base : nat; byteOffset : Z; span : Z }.

(** The module's state: the allocations made so far and [POOL]. *)
Record state : Type := mkState { heap : list Buffer; POOL : option view }.

Record writer : Type := mkWriter { data : view; offset : Z }.

Definition initial : state := {| heap := []; POOL := None |}.

Section Pool.
Context `{Host}.

(** [Buffer.allocUnsafe(size)] and [Buffer.allocUnsafeSlow(size)]: a
    fresh allocation and the view of all of it *)
Definition alloc (size : Z) (st : state) : option (state * view) :=
  match allocUnsafe size with
  | Some bytes =>
      Some ({| heap := heap st ++ [bytes]; POOL := POOL st |},
            {| base := length (heap st); byteOffset := 0; span := size |})
  | None => None
  end.

(** [v.slice(start, end)]: the same allocation, a narrower window *)
Definition clamp (v : view) (i : Z) : Z :=
  if i <? 0 then Z.max 0 (span v + i) else Z.min i (span v).

Definition slice (v : view) (start end_ : Z) : view :=
  let s := clamp v start in
  let e := clamp v end_ in
  {| base := base v; byteOffset := byteOffset v + s; span := Z.max 0 (e - s) |}.

Definition pool (size : Z) (st : state) : state * outcome writer :=
  if size <=? StaticWriter.POOLSIZE then
    let r :=
      match POOL st with
      | Some p => Some (st, p)
      | None =>
          match alloc StaticWriter.POOLSIZE st with
          | Some (st', p) => Some ({| heap := heap st'; POOL := Some p |}, p)
          | None => None
          end
      end in
    match r with
    | Some (st', p) => (st', Ok {| data := slice p 0 size; offset := 0 |})
    | None => (st, Unmodelled)
    end
  else if negb (JS.ushr size 0 =? size) then (st, Throw AssertionError)
  else
    match alloc size st with
    | Some (st', v) => (st', Ok {| data := v; offset := 0 |})
    | None => (st, Unmodelled)
    end.

End Pool.

(** The bytes of the allocation that a view addresses, as a range of
    indices, and when two views address no byte in common. *)
Definition addresses (v : view) (b : nat) (i : Z) : Prop :=
  b = base v /\ byteOffset v <= i < byteOffset v + span v.

Definition disjoint (v1 v2 : view) : Prop :=
  forall b i, ~ (addresses v1 b i /\ addresses v2 b i).

(** [v[i] = x] and [v[i]] through a view *)
Definition view_set (st : state) (v : view) (i x : Z) : state :=
  if (0 <=? i) && (i <? span v) then
    {| heap := alter (fun bytes => Buf.set bytes (byteOffset v + i) x)
                 (base v) (heap st);
       POOL := POOL st |}
  else st.

Definition view_get (st : state) (v : view) (i : Z) : option Z :=
  if (0 <=? i) && (i <? span v) then
    match heap st !! base v with
    | Some bytes => Buf.get bytes (byteOffset v + i)
    | None => None
    end
  else None.

(** [POOL], once set, is the view of a whole slab. *)
Definition pool_ok (st : state) : Prop :=
  match POOL st with
  | Some p =>
      byteOffset p = 0 /\ span p = StaticWriter.POOLSIZE
      /\ exists bytes, heap st !! base p = Some bytes
                       /\ Buf.len bytes = StaticWriter.POOLSIZE
  | None => True
  end.

End Pool.

(** The calls that pass a text to [writeVarString] pass a text that is
    not empty. *)
Definition var_strings_not_empty (calls : list call) : Prop :=
  Forall (fun c =>
            match c with
            | writeVarString value _ => String.length value <> 0%nat
            | _ => True
            end) calls.

(** A host for the examples: one byte per character, zeroed memory. *)
Definition latin1 : Host :=
  {| encodeText := fun value _ => list_byte_of_string value;
     uninit := fun _ => Byte.x00 |}.

Definition bytes_of (l : list Z) : Buffer := byte_of_Z <$> l.
Definition zeros (n : nat) : Buffer := replicate n Byte.x00.

(** The unsigned value that a run of bytes encodes in little-endian
    order. *)
Definition le_value (bs : list byte) : Z :=
  foldr (fun b acc => Z_of_byte b + 256 * acc) 0 bs.

(** A long form of varint scheme A laid out at [off]: the prefix byte,
    and the little-endian value [v] of the [width] bytes after it. *)
Definition long_form (data : Buffer) (off : Z) (prefix width : Z) (v : Z) : Prop :=
  Buf.get data off = Some prefix
  /\ off + 1 + width <= Buf.len data
  /\ v = le_value (Buf.slice data (off + 1) (off + 1 + width)).

(** * Properties *)

(** ** Bytes and 32-bit words *)

Lemma Z_of_byte_range (b : byte) : 0 <= Z_of_byte b < 256.
Proof.
  unfold Z_of_byte. pose proof (Byte.to_N_bounded b) as H.
  apply N2Z.inj_le in H. change (Z.of_N 255) with 255 in H. lia.
Qed.

Lemma Z_of_byte_of_Z (z : Z) : Z_of_byte (byte_of_Z z) = z mod 256.
Proof.
  unfold Z_of_byte, byte_of_Z.
  pose proof (Z.mod_pos_bound z 256 ltac:(lia)) as Hb.
  destruct (Byte.of_N (Z.to_N (z mod 256))) as [b|] eqn:E.
  - apply Byte.to_of_N in E. rewrite E. lia.
  - apply Byte.of_N_None_iff in E. lia.
Qed.

Lemma byte_of_Z_of_byte (b : byte) : byte_of_Z (Z_of_byte b) = b.
Proof.
  unfold byte_of_Z. pose proof (Z_of_byte_range b) as H.
  rewrite Z.mod_small by lia. unfold Z_of_byte. rewrite N2Z.id.
  now rewrite Byte.of_to_N.
Qed.

Lemma toInt32_range (x : Z) : - 2 ^ 31 <= JS.toInt32 x < 2 ^ 31.
Proof.
  unfold JS.toInt32.
  pose proof (Z.mod_pos_bound (x + 2 ^ 31) (2 ^ 32) ltac:(lia)). lia.
Qed.

Lemma toInt32_small (x : Z) : - 2 ^ 31 <= x < 2 ^ 31 -> JS.toInt32 x = x.
Proof.
  intros H. unfold JS.toInt32. rewrite Z.mod_small; lia.
Qed.

Lemma toUint32_toInt32 (x : Z) : JS.toUint32 (JS.toInt32 x) = x mod 2 ^ 32.
Proof.
  unfold JS.toUint32, JS.toInt32.
  change (2 ^ 31) with 2147483648. change (2 ^ 32) with 4294967296.
  Z.div_mod_to_equations. lia.
Qed.

Lemma bor_0 (x : Z) : JS.bor x 0 = JS.toInt32 x.
Proof. unfold JS.bor. change (JS.toInt32 0) with 0. apply Z.lor_0_r. Qed.

Lemma band_low (x : Z) (n : Z) :
  0 <= n < 31 -> JS.band x (2 ^ n - 1) = x mod 2 ^ n.
Proof.
  intros Hn. unfold JS.band.
  assert (Hp : 0 < 2 ^ n) by (apply Z.pow_pos_nonneg; lia).
  assert (Hq : 2 ^ n <= 2 ^ 30) by (apply Z.pow_le_mono_r; lia).
  rewrite (toInt32_small (2 ^ n - 1)) by lia.
  replace (2 ^ n - 1) with (Z.ones n) by (rewrite Z.ones_equiv; lia).
  rewrite Z.land_ones by lia.
  unfold JS.toInt32.
  replace (2 ^ 32) with (2 ^ n * 2 ^ (32 - n))
    by (rewrite <- Z.pow_add_r by lia; f_equal; lia).
  replace (2 ^ 31) with (2 ^ n * 2 ^ (31 - n))
    by (rewrite <- Z.pow_add_r by lia; f_equal; lia).
  rewrite <- Zminus_mod_idemp_l.
  rewrite Z.rem_mul_r by (try apply Z.pow_nonzero; lia).
  rewrite (Z.mul_comm (2 ^ n) (_ mod _)), Z_mod_plus_full.
  rewrite (Z.mul_comm (2 ^ n)), Z_mod_plus_full.
  rewrite Zminus_mod_idemp_l.
  replace (x mod 2 ^ n - 2 ^ (31 - n) * 2 ^ n)
    with (x mod 2 ^ n + (- 2 ^ (31 - n)) * 2 ^ n) by lia.
  rewrite Z_mod_plus_full. apply Z.mod_mod. lia.
Qed.

(** ** Reading what was stored *)

Lemma len_set (d : Buffer) (i v : Z) : Buf.len (Buf.set d i v) = Buf.len d.
Proof.
  unfold Buf.set, Buf.len. destruct (i <? 0); [reflexivity|].
  now rewrite length_insert.
Qed.

Lemma len_store (vs : list Z) (d : Buffer) (i : Z) :
  Buf.len (Buf.store d i vs) = Buf.len d.
Proof.
  revert d i. induction vs as [|v vs IH]; intros d i; simpl; [reflexivity|].
  rewrite IH. apply len_set.
Qed.

Lemma store_in_range (vs : list Z) (d : Buffer) (i : nat) :
  (i + length vs <= length d)%nat ->
  Buf.store d (Z.of_nat i) vs
  = take i d ++ bytes_of vs ++ drop (i + length vs) d.
Proof.
  revert d i. induction vs as [|v vs IH]; intros d i Hlen; simpl in *.
  - rewrite Nat.add_0_r. now rewrite take_drop.
  - replace (Z.of_nat i + 1) with (Z.of_nat (S i)) by lia.
    rewrite IH by (unfold Buf.set; destruct (_ <? 0);
                   rewrite ?length_insert; lia).
    unfold Buf.set. destruct (Z.ltb_spec (Z.of_nat i) 0); [lia|].
    rewrite Nat2Z.id.
    assert (Hi : (i < length d)%nat) by lia.
    rewrite drop_insert_lt by lia.
    erewrite take_S_r by (apply list_lookup_insert_eq; lia).
    rewrite take_insert_ge by lia.
    rewrite <- app_assoc. simpl.
    now rewrite Nat.add_succ_r.
Qed.

Lemma get_in_range (d : Buffer) (i : nat) :
  Buf.get d (Z.of_nat i) = Z_of_byte <$> d !! i.
Proof.
  unfold Buf.get. destruct (Z.ltb_spec (Z.of_nat i) 0); [lia|].
  now rewrite Nat2Z.id.
Qed.

Lemma get_stored (pre bs post : list byte) (k : nat) (b : byte) :
  bs !! k = Some b ->
  Buf.get (pre ++ bs ++ post) (Z.of_nat (length pre + k)) = Some (Z_of_byte b).
Proof.
  intros Hk. rewrite get_in_range.
  rewrite lookup_app_r by lia.
  replace (length pre + k - length pre)%nat with k by lia.
  rewrite lookup_app_l by (eapply lookup_lt_Some; eassumption).
  now rewrite Hk.
Qed.

Lemma readUInt32LE_stored (pre post : list byte) (b0 b1 b2 b3 : byte) (i : Z) :
  i = Z.of_nat (length pre) ->
  Buf.readUInt32LE (pre ++ b0 :: b1 :: b2 :: b3 :: post) i
  = Some (Z_of_byte b0 + Z_of_byte b1 * 0x100 + Z_of_byte b2 * 0x10000
          + Z_of_byte b3 * 0x1000000).
Proof.
  intros ->. unfold Buf.readUInt32LE.
  pose proof (get_stored pre [b0; b1; b2; b3] post) as H. simpl app in H.
  rewrite <- (Nat.add_0_r (length pre)) at 1.
  rewrite (H 0%nat b0 eq_refl).
  replace (Z.of_nat (length pre) + 1) with (Z.of_nat (length pre + 1)) by lia.
  replace (Z.of_nat (length pre) + 2) with (Z.of_nat (length pre + 2)) by lia.
  replace (Z.of_nat (length pre) + 3) with (Z.of_nat (length pre + 3)) by lia.
  rewrite (H 1%nat b1 eq_refl), (H 2%nat b2 eq_refl), (H 3%nat b3 eq_refl).
  reflexivity.
Qed.

Lemma le_bytes_4 (value : Z) :
  Buf.le_bytes 4 value
  = [JS.ushr value 0; JS.ushr value 8; JS.ushr value 16; JS.ushr value 24].
Proof. reflexivity. Qed.

Lemma le_word (u : Z) :
  0 <= u < 2 ^ 32 ->
  (u ≫ 0) mod 256 + (u ≫ 8) mod 256 * 0x100 + (u ≫ 16) mod 256 * 0x10000
  + (u ≫ 24) mod 256 * 0x1000000 = u.
Proof.
  intros Hu. rewrite !Z.shiftr_div_pow2 by lia.
  change (2 ^ 0) with 1. change (2 ^ 8) with 256.
  change (2 ^ 16) with 65536. change (2 ^ 24) with 16777216.
  change (2 ^ 32) with 4294967296 in Hu.
  Z.div_mod_to_equations. lia.
Qed.

Lemma write_int_inv (be : bool) (width : nat) (lo hi : Z)
    (d : Buffer) (value off : Z) (d' : Buffer) (off' : Z) :
  Buf.write_int be width lo hi d value off = Some (d', off') ->
  d' = Buf.store d off
         (if be then Buf.be_bytes width value else Buf.le_bytes width value)
  /\ off' = off + Z.of_nat width
  /\ 0 <= off /\ off + Z.of_nat width <= Buf.len d
  /\ lo <= value <= hi.
Proof.
  unfold Buf.write_int.
  destruct (Buf.in_range _ _ _ && Buf.fits _ _ _) eqn:E; [|discriminate].
  set (X := Buf.store _ _ _). intros H. injection H as <- <-.
  apply andb_prop in E as [Hr Hfit]. unfold Buf.fits in Hfit.
  apply andb_prop in Hfit as [H0 H1]. apply andb_prop in Hr as [H2 H3].
  apply Z.leb_le in H0, H1, H2, H3.
  repeat split; try reflexivity; lia.
Qed.

(** A 32-bit word written by the host's little-endian writer reads back
    as its unsigned value; the bytes around it are untouched. *)
Lemma readUInt32LE_writeInt32LE (d : Buffer) (value off : Z) (d' : Buffer) (off' : Z) :
  Buf.writeInt32LE d value off = Some (d', off') ->
  off' = off + 4 /\ length d' = length d
  /\ Buf.readUInt32LE d' off = Some (JS.toUint32 value)
  /\ take (Z.to_nat off) d' = take (Z.to_nat off) d
  /\ drop (Z.to_nat off') d' = drop (Z.to_nat off') d.
Proof.
  intros H. apply write_int_inv in H as (-> & -> & H0 & H1 & _).
  unfold Buf.len in H1. rewrite le_bytes_4.
  assert (Hoff : off = Z.of_nat (Z.to_nat off)) by lia.
  assert (Hlen : (Z.to_nat off + 4 <= length d)%nat) by lia.
  split; [reflexivity|].
  replace (Buf.store d off) with (Buf.store d (Z.of_nat (Z.to_nat off)))
    by (f_equal; lia).
  rewrite store_in_range by (simpl; lia).
  unfold bytes_of. simpl fmap. simpl app. simpl length.
  assert (Htk : length (take (Z.to_nat off) d) = Z.to_nat off)
    by (rewrite length_take; lia).
  split; [|split; [|split]].
  - rewrite length_app, Htk. simpl. rewrite length_drop. lia.
  - rewrite readUInt32LE_stored by lia. rewrite !Z_of_byte_of_Z.
    unfold JS.ushr. change (0 mod 32) with 0. change (8 mod 32) with 8.
    change (16 mod 32) with 16. change (24 mod 32) with 24.
    f_equal. apply le_word. unfold JS.toUint32. apply Z.mod_pos_bound. lia.
  - rewrite take_app_le by lia. rewrite take_ge by lia. reflexivity.
  - replace (Z.to_nat (off + Z.of_nat 4)) with (Z.to_nat off + 4)%nat by lia.
    rewrite drop_app_ge by lia. rewrite Htk.
    replace (Z.to_nat off + 4 - Z.to_nat off)%nat with 4%nat by lia.
    reflexivity.
Qed.

Lemma store_app (a b : list Z) (d : Buffer) (i : Z) :
  Buf.store d i (a ++ b)
  = Buf.store (Buf.store d i a) (i + Z.of_nat (length a)) b.
Proof.
  revert d i. induction a as [|v a IH]; intros d i.
  - simpl. now rewrite Z.add_0_r.
  - cbn [app Buf.store length]. rewrite IH. f_equal. lia.
Qed.

Lemma write_int_some (be : bool) (width : nat) (lo hi : Z)
    (d : Buffer) (value off : Z) :
  lo <= value <= hi -> 0 <= off -> off + Z.of_nat width <= Buf.len d ->
  Buf.write_int be width lo hi d value off
  = Some (Buf.store d off
            (if be then Buf.be_bytes width value else Buf.le_bytes width value),
          off + Z.of_nat width).
Proof.
  intros Hv H0 H1. unfold Buf.write_int, Buf.in_range, Buf.fits.
  destruct (Z.leb_spec lo value); [|lia].
  destruct (Z.leb_spec value hi); [|lia].
  destruct (Z.leb_spec 0 off); [|lia].
  destruct (Z.leb_spec (off + Z.of_nat width) (Buf.len d)); [|lia].
  reflexivity.
Qed.

(** ** The 64-bit number path *)

(** What [write64] stores for a number that is not negative: the low
    word, then the high word, each little-endian. *)
Lemma write64_le_stores (dst : Buffer) (num off : Z) :
  0 <= num -> 0 <= off -> off + 8 <= Buf.len dst ->
  encoding.write64 dst num off false
  = (Buf.store dst off
       (Buf.le_bytes 4 (JS.toInt32 num)
        ++ Buf.le_bytes 4 (JS.toInt32 (num / 0x100000000))),
     Ok (off + 8)).
Proof.
  intros Hn H0 H1. unfold encoding.write64.
  destruct (Z.ltb_spec num 0); [lia|].
  rewrite !bor_0. rewrite Z.quot_div_nonneg by lia.
  unfold Buf.writeInt32LE.
  pose proof (toInt32_range num) as Hlo.
  pose proof (toInt32_range (num / 0x100000000)) as Hhi.
  change (2 ^ 31) with 0x80000000 in Hlo, Hhi.
  rewrite write_int_some by (simpl Z.of_nat; lia).
  cbn [host_write wbind].
  rewrite write_int_some by (rewrite ?len_store; simpl Z.of_nat; lia).
  cbn [host_write]. rewrite store_app.
  change (length (Buf.le_bytes 4 (JS.toInt32 num))) with 4%nat.
  do 2 f_equal. lia.
Qed.

Lemma band_high_mask (hi : Z) :
  0 <= hi < 2 ^ 32 -> (JS.band hi 0xffe00000 =? 0) = (hi <? 2 ^ 21).
Proof.
  intros Hhi. unfold JS.band.
  change (JS.toInt32 0xffe00000) with (Z.lnot (Z.ones 21)).
  rewrite <- Z.ldiff_land, Z.ldiff_ones_r by lia.
  rewrite Z.shiftl_mul_pow2, Z.shiftr_div_pow2 by lia.
  unfold JS.toInt32.
  change (2 ^ 31) with 2147483648. change (2 ^ 32) with 4294967296 in *.
  change (2 ^ 21) with 2097152.
  destruct (Z.ltb_spec hi 2097152); destruct (Z.eqb_spec
    (((hi + 2147483648) mod 4294967296 - 2147483648) / 2097152 * 2097152) 0);
    try reflexivity; exfalso; Z.div_mod_to_equations; lia.
Qed.

Lemma readUInt32LE_range (data : Buffer) (off v : Z) :
  Buf.readUInt32LE data off = Some v -> 0 <= v < 2 ^ 32.
Proof.
  unfold Buf.readUInt32LE, Buf.get.
  destruct (off <? 0); [discriminate|].
  destruct (off + 1 <? 0); [destruct (_ <$> _); discriminate|].
  destruct (off + 2 <? 0); [do 2 (destruct (_ <$> _); try discriminate)|].
  destruct (off + 3 <? 0); [do 3 (destruct (_ <$> _); try discriminate)|].
  destruct (data !! Z.to_nat off) as [b0|]; [|discriminate].
  destruct (data !! Z.to_nat (off + 1)) as [b1|]; [|discriminate].
  destruct (data !! Z.to_nat (off + 2)) as [b2|]; [|discriminate].
  destruct (data !! Z.to_nat (off + 3)) as [b3|]; [|discriminate].
  simpl. intros [= <-].
  pose proof (Z_of_byte_range b0). pose proof (Z_of_byte_range b1).
  pose proof (Z_of_byte_range b2). pose proof (Z_of_byte_range b3).
  change (2 ^ 32) with 4294967296. lia.
Qed.

(** [readU64] in terms of the two words it reads: it returns their
    value when the high word is below 2^21, and throws otherwise. *)
Lemma readU64_words (data : Buffer) (off lo hi : Z) :
  Buf.readUInt32LE data off = Some lo ->
  Buf.readUInt32LE data (off + 4) = Some hi ->
  encoding.readU64 data off
  = if hi <? 2 ^ 21 then Ok (hi * 0x100000000 + lo)
    else Throw (EncodingError off "Number exceeds 2^53-1").
Proof.
  intros Hlo Hhi. unfold encoding.readU64. rewrite Hlo, Hhi.
  cbn [of_host bind]. rewrite band_high_mask by (eapply readUInt32LE_range; eauto).
  destruct (hi <? 2 ^ 21); reflexivity.
Qed.

Lemma readUInt32LE_le_bytes (pre post : list byte) (a : Z) (i : Z) :
  i = Z.of_nat (length pre) ->
  Buf.readUInt32LE (pre ++ bytes_of (Buf.le_bytes 4 a) ++ post) i
  = Some (JS.toUint32 a).
Proof.
  intros Hi. rewrite le_bytes_4. unfold bytes_of. cbn [fmap list_fmap app].
  rewrite readUInt32LE_stored by exact Hi. rewrite !Z_of_byte_of_Z.
  unfold JS.ushr. change (0 mod 32) with 0. change (8 mod 32) with 8.
  change (16 mod 32) with 16. change (24 mod 32) with 24.
  f_equal. apply le_word. unfold JS.toUint32. apply Z.mod_pos_bound. lia.
Qed.

(** The two words that sit in a buffer after eight stored bytes. *)
Lemma words_of_store (dst : Buffer) (off a b : Z) :
  0 <= off -> off + 8 <= Buf.len dst ->
  let data := Buf.store dst off (Buf.le_bytes 4 a ++ Buf.le_bytes 4 b) in
  Buf.readUInt32LE data off = Some (JS.toUint32 a)
  /\ Buf.readUInt32LE data (off + 4) = Some (JS.toUint32 b).
Proof.
  intros H0 H1 data. subst data. unfold Buf.len in H1.
  replace (Buf.store dst off) with (Buf.store dst (Z.of_nat (Z.to_nat off)))
    by (f_equal; lia).
  rewrite store_in_range by (rewrite length_app; simpl; lia).
  unfold bytes_of. rewrite fmap_app. fold (bytes_of (Buf.le_bytes 4 a)).
  fold (bytes_of (Buf.le_bytes 4 b)).
  assert (Htk : length (take (Z.to_nat off) dst) = Z.to_nat off)
    by (rewrite length_take; lia).
  split.
  - rewrite <- (app_assoc (bytes_of _)).
    apply readUInt32LE_le_bytes. lia.
  - rewrite <- (app_assoc (bytes_of _)), (app_assoc (take _ _)).
    apply readUInt32LE_le_bytes.
    rewrite length_app, Htk. unfold bytes_of. rewrite length_fmap. simpl. lia.
Qed.

(** A safe integer written by [writeU64] is read back by [readU64]. *)
Lemma readU64_writeU64 (dst : Buffer) (v off : Z) :
  0 <= v <= JS.MAX_SAFE_INTEGER -> 0 <= off -> off + 8 <= Buf.len dst ->
  exists data,
    encoding.writeU64 dst v off = (data, Ok (off + 8))
    /\ Buf.len data = Buf.len dst
    /\ encoding.readU64 data off = Ok v.
Proof.
  intros Hv H0 H1. unfold JS.MAX_SAFE_INTEGER in Hv.
  eexists. unfold encoding.writeU64.
  rewrite write64_le_stores by lia.
  split; [reflexivity|]. split; [apply len_store|].
  destruct (words_of_store dst off (JS.toInt32 v)
              (JS.toInt32 (v / 0x100000000)) H0 H1) as [Hlo Hhi].
  rewrite (readU64_words _ _ _ _ Hlo Hhi).
  rewrite !toUint32_toInt32.
  change (2 ^ 32) with 4294967296. change (2 ^ 21) with 2097152.
  assert (Hq : 0 <= v / 4294967296 < 2097152) by (Z.div_mod_to_equations; lia).
  rewrite (Z.mod_small (v / 4294967296)) by lia.
  destruct (Z.ltb_spec (v / 4294967296) 2097152); [|lia].
  f_equal. Z.div_mod_to_equations. lia.
Qed.

(** Eight bytes whose little-endian value is 2^53 or more are refused by
    [readU64]. *)
Lemma readU64_refuses (data : Buffer) :
  length data = 8%nat -> 2 ^ 53 <= le_value data ->
  encoding.readU64 data 0 = Throw (EncodingError 0 "Number exceeds 2^53-1").
Proof.
  intros Hlen Hbig.
  destruct data as [|b0 [|b1 [|b2 [|b3 [|b4 [|b5 [|b6 [|b7 [|]]]]]]]]];
    try discriminate.
  pose proof (readUInt32LE_stored [] [b4; b5; b6; b7] b0 b1 b2 b3 0 eq_refl) as Hlo.
  pose proof (readUInt32LE_stored [b0; b1; b2; b3] [] b4 b5 b6 b7 4 eq_refl) as Hhi.
  cbn [app] in Hlo, Hhi.
  rewrite (readU64_words _ 0 _ _ Hlo Hhi).
  unfold le_value in Hbig. cbn [foldr] in Hbig.
  pose proof (Z_of_byte_range b0). pose proof (Z_of_byte_range b1).
  pose proof (Z_of_byte_range b2). pose proof (Z_of_byte_range b3).
  pose proof (Z_of_byte_range b4). pose proof (Z_of_byte_range b5).
  pose proof (Z_of_byte_range b6). pose proof (Z_of_byte_range b7).
  change (2 ^ 53) with 9007199254740992 in Hbig.
  change (2 ^ 21) with 2097152.
  match goal with |- context [?h <? 2097152] => destruct (Z.ltb_spec h 2097152) end;
    [lia|reflexivity].
Qed.

(** *** C5 *)

Lemma readU64N_writeU64N_max (dst : Buffer) :
  length dst = 8%nat ->
  exists out,
    encoding.writeU64N dst N64.UINT64_MAX 0 = (out, Ok 8)
    /\ length out = 8%nat
    /\ le_value out = 2 ^ 64 - 1
    /\ encoding.readU64N out 0 = Ok N64.UINT64_MAX.
Proof.
  intros Hlen.
  destruct dst as [|b0 [|b1 [|b2 [|b3 [|b4 [|b5 [|b6 [|b7 [|]]]]]]]]];
    try discriminate.
  eexists. split; [vm_compute; reflexivity|].
  repeat split; vm_compute; reflexivity.
Qed.

(** C5. The 64-bit path into a plain number: a safe integer [v] written
    by [writeU64] into eight bytes is read back by [readU64] at offset 0
    as [v]; eight bytes whose little-endian value is 2^53 or more make
    [readU64] throw "Number exceeds 2^53-1"; the largest unsigned 64-bit
    value survives [writeU64N] and [readU64N] unchanged, and [readU64]
    refuses its bytes. *)
Theorem readU64_default_path (dst data : Buffer) (v : Z)
    (Hv : 0 <= v <= JS.MAX_SAFE_INTEGER)
    (Hdst : length dst = 8%nat)
    (Hdata : length data = 8%nat)
    (Hbig : 2 ^ 53 <= le_value data) :
  (exists out,
     encoding.writeU64 dst v 0 = (out, Ok 8)
     /\ length out = 8%nat
     /\ encoding.readU64 out 0 = Ok v)
  /\ encoding.readU64 data 0
     = Throw (EncodingError 0 "Number exceeds 2^53-1")
  /\ (exists out,
        encoding.writeU64N dst N64.UINT64_MAX 0 = (out, Ok 8)
        /\ le_value out = 2 ^ 64 - 1
        /\ encoding.readU64N out 0 = Ok N64.UINT64_MAX
        /\ N64.uval N64.UINT64_MAX = 2 ^ 64 - 1
        /\ encoding.readU64 out 0
           = Throw (EncodingError 0 "Number exceeds 2^53-1")).
Proof.
  split; [|split].
  - destruct (readU64_writeU64 dst v 0 Hv) as (out & Hw & Hl & Hr);
      [lia | unfold Buf.len; lia |].
    exists out. unfold Buf.len in Hl. repeat split; [exact Hw | lia | exact Hr].
  - now apply readU64_refuses.
  - destruct (readU64N_writeU64N_max dst Hdst) as (out & Hw & Hl & Hval & Hr).
    exists out. repeat split; try assumption.
    apply readU64_refuses; [exact Hl|].
    rewrite Hval. vm_compute. discriminate.
Qed.

Lemma readU64_default_path_witness :
  0 <= 9007199254740991 <= JS.MAX_SAFE_INTEGER
  /\ 2 ^ 53 <= le_value (bytes_of [0; 0; 0; 0; 0; 0; 0x20; 0])
  /\ (exists out,
        encoding.writeU64 (zeros 8) 9007199254740991 0 = (out, Ok 8)
        /\ length out = 8%nat
        /\ encoding.readU64 out 0 = Ok 9007199254740991)
  /\ encoding.readU64 (bytes_of [0; 0; 0; 0; 0; 0; 0x20; 0]) 0
     = Throw (EncodingError 0 "Number exceeds 2^53-1").
Proof.
  assert (Hv : 0 <= 9007199254740991 <= JS.MAX_SAFE_INTEGER)
    by (unfold JS.MAX_SAFE_INTEGER; lia).
  assert (Hbig : 2 ^ 53 <= le_value (bytes_of [0; 0; 0; 0; 0; 0; 0x20; 0]))
    by (vm_compute; discriminate).
  pose proof (readU64_default_path (zeros 8)
                (bytes_of [0; 0; 0; 0; 0; 0; 0x20; 0]) 9007199254740991
                Hv eq_refl eq_refl Hbig) as (H1 & H2 & _).
  exact (conj Hv (conj Hbig (conj H1 H2))).
Defined.

(** ** Varint scheme A *)

Lemma bor_shl_8 (b1 b2 : Z) :
  0 <= b1 < 256 -> 0 <= b2 < 256 ->
  JS.bor b1 (JS.shl b2 8) = b1 + 256 * b2.
Proof.
  intros H1 H2. unfold JS.bor, JS.shl. change (8 mod 32) with 8.
  rewrite (toInt32_small b2) by lia.
  rewrite Z.shiftl_mul_pow2 by lia. change (2 ^ 8) with 256.
  rewrite (toInt32_small (b2 * 256)) by lia.
  rewrite (toInt32_small (b2 * 256)) by lia.
  rewrite (toInt32_small b1) by lia.
  rewrite <- Z.lxor_lor, <- Z.add_nocarry_lxor; try lia.
  all: apply Z.bits_inj'; intros n Hn; rewrite Z.land_spec, Z.bits_0.
  all: destruct (Z_lt_dec n 8) as [Hlt|Hge].
  all: try (replace (b2 * 256) with (b2 * 2 ^ 8) by lia;
            rewrite (Z.mul_pow2_bits_low b2 8 n) by lia;
            apply andb_false_r).
  all: rewrite (Z.bits_above_log2 b1 n); try reflexivity; try lia.
  all: destruct (Z.eq_dec b1 0) as [->|Hnz]; [simpl; lia|].
  all: apply Z.log2_lt_pow2; try lia.
  all: apply Z.lt_le_trans with (2 ^ 8); [simpl; lia|].
  all: apply Z.pow_le_mono_r; lia.
Qed.

Lemma shr_byte (v k : Z) :
  0 <= v < 2 ^ 32 -> 0 <= k <= 24 ->
  JS.band (JS.shr v k) 0xff = (v / 2 ^ k) mod 256.
Proof.
  intros Hv Hk. change 0xff with (2 ^ 8 - 1). rewrite band_low by lia.
  unfold JS.shr. rewrite (Z.mod_small k) by lia.
  rewrite Z.shiftr_div_pow2 by lia.
  assert (Hc : JS.toInt32 v = v \/ JS.toInt32 v = v - 2 ^ 32).
  { unfold JS.toInt32. change (2 ^ 31) with 2147483648.
    change (2 ^ 32) with 4294967296 in *. Z.div_mod_to_equations. lia. }
  destruct Hc as [-> | ->]; [reflexivity|].
  replace (2 ^ 32) with (2 ^ (32 - k) * 2 ^ k)
    by (rewrite <- Z.pow_add_r by lia; f_equal; lia).
  replace (v - 2 ^ (32 - k) * 2 ^ k) with (v + (- 2 ^ (32 - k)) * 2 ^ k) by lia.
  assert (Hp : 0 < 2 ^ k) by (apply Z.pow_pos_nonneg; lia).
  rewrite Z.div_add by lia.
  change (2 ^ 8) with 256.
  replace (- 2 ^ (32 - k)) with ((- 2 ^ (24 - k)) * 256).
  - apply Z_mod_plus_full.
  - replace (32 - k) with ((24 - k) + 8) by lia.
    rewrite Z.pow_add_r by lia. change (2 ^ 8) with 256. lia.
Qed.

Lemma get_at (pre rest : list byte) (k : nat) (b : byte) (off : Z) :
  off = Z.of_nat (length pre) + Z.of_nat k ->
  rest !! k = Some b ->
  Buf.get (pre ++ rest) off = Some (Z_of_byte b).
Proof.
  intros -> Hk. rewrite <- Nat2Z.inj_add.
  rewrite <- (app_nil_r rest). now apply get_stored.
Qed.

Ltac decide_checks :=
  repeat match goal with
  | |- context [?a <? ?b] => destruct (Z.ltb_spec a b); try lia
  | |- context [?a <=? ?b] => destruct (Z.leb_spec a b); try lia
  | |- context [?a =? ?b] => destruct (Z.eqb_spec a b); try lia
  end.

(** [readVarint] on each of the four forms, laid out in the buffer. *)
Lemma readVarint_1 (pre post : list byte) (b : byte) (off : Z) :
  off = Z.of_nat (length pre) -> Z_of_byte b < 0xfd ->
  encoding.readVarint (pre ++ b :: post) off
  = Ok (encoding.mkVarint 1 (Z_of_byte b)).
Proof.
  intros Hoff Hb. unfold encoding.readVarint, encoding.check.
  rewrite (get_at pre (b :: post) 0 b off) by (try reflexivity; lia).
  unfold Buf.len. rewrite length_app. cbn [length].
  destruct (Z.ltb_spec off (Z.of_nat (length pre + S (length post)))); [|lia].
  cbn [bind of_host].
  destruct (Z.eqb_spec (Z_of_byte b) 255); [lia|].
  destruct (Z.eqb_spec (Z_of_byte b) 254); [lia|].
  destruct (Z.eqb_spec (Z_of_byte b) 253); [lia|].
  reflexivity.
Qed.

Lemma readVarint_3 (pre post : list byte) (b b1 b2 : byte) (off : Z) :
  off = Z.of_nat (length pre) -> Z_of_byte b = 0xfd ->
  encoding.readVarint (pre ++ b :: b1 :: b2 :: post) off
  = let v := Z_of_byte b1 + 256 * Z_of_byte b2 in
    if 0xfd <=? v then Ok (encoding.mkVarint 3 v)
    else Throw (EncodingError off "Non-canonical varint").
Proof.
  intros Hoff Hb. unfold encoding.readVarint, encoding.check, encoding.enforce.
  rewrite (get_at pre _ 0 b off) by (try reflexivity; lia).
  rewrite (get_at pre _ 1 b1 (off + 1)) by (try reflexivity; lia).
  rewrite (get_at pre _ 2 b2 (off + 2)) by (try reflexivity; lia).
  unfold Buf.len. rewrite length_app. cbn [length].
  destruct (Z.ltb_spec off (Z.of_nat (length pre + S (S (S (length post))))));
    [|lia].
  cbn [bind of_host]. rewrite Hb. cbn [Z.eqb Pos.eqb].
  destruct (Z.leb_spec (off + 3) (Z.of_nat (length pre + S (S (S (length post))))));
    [|lia].
  cbn [bind].
  rewrite bor_shl_8 by apply Z_of_byte_range.
  cbn zeta. destruct (253 <=? _); reflexivity.
Qed.

Lemma readVarint_5 (pre post : list byte) (b b1 b2 b3 b4 : byte) (off : Z) :
  off = Z.of_nat (length pre) -> Z_of_byte b = 0xfe ->
  encoding.readVarint (pre ++ b :: b1 :: b2 :: b3 :: b4 :: post) off
  = let v := Z_of_byte b1 + Z_of_byte b2 * 0x100 + Z_of_byte b3 * 0x10000
             + Z_of_byte b4 * 0x1000000 in
    if 0xffff <? v then Ok (encoding.mkVarint 5 v)
    else Throw (EncodingError off "Non-canonical varint").
Proof.
  intros Hoff Hb. unfold encoding.readVarint, encoding.check, encoding.enforce.
  rewrite (get_at pre _ 0 b off) by (try reflexivity; lia).
  replace (pre ++ b :: b1 :: b2 :: b3 :: b4 :: post)
    with ((pre ++ [b]) ++ b1 :: b2 :: b3 :: b4 :: post)
    by (now rewrite <- app_assoc).
  rewrite (readUInt32LE_stored (pre ++ [b]) post b1 b2 b3 b4 (off + 1))
    by (rewrite length_app; simpl; lia).
  unfold Buf.len. rewrite !length_app. cbn [length].
  destruct (Z.ltb_spec off
    (Z.of_nat (length pre + 1 + S (S (S (S (length post))))))); [|lia].
  cbn [bind of_host]. rewrite Hb. cbn [Z.eqb Pos.eqb].
  destruct (Z.leb_spec (off + 5)
    (Z.of_nat (length pre + 1 + S (S (S (S (length post))))))); [|lia].
  cbn [bind]. cbn zeta. destruct (65535 <? _); reflexivity.
Qed.

Lemma readVarint_9 (pre post : list byte) (b b1 b2 b3 b4 b5 b6 b7 b8 : byte)
    (off : Z) :
  off = Z.of_nat (length pre) -> Z_of_byte b = 0xff ->
  encoding.readVarint
    (pre ++ b :: b1 :: b2 :: b3 :: b4 :: b5 :: b6 :: b7 :: b8 :: post) off
  = let lo := Z_of_byte b1 + Z_of_byte b2 * 0x100 + Z_of_byte b3 * 0x10000
              + Z_of_byte b4 * 0x1000000 in
    let hi := Z_of_byte b5 + Z_of_byte b6 * 0x100 + Z_of_byte b7 * 0x10000
              + Z_of_byte b8 * 0x1000000 in
    if hi <? 2 ^ 21 then
      if 0xffffffff <? hi * 0x100000000 + lo then
        Ok (encoding.mkVarint 9 (hi * 0x100000000 + lo))
      else Throw (EncodingError off "Non-canonical varint")
    else Throw (EncodingError (off + 1) "Number exceeds 2^53-1").
Proof.
  intros Hoff Hb. unfold encoding.readVarint, encoding.check, encoding.enforce.
  rewrite (get_at pre _ 0 b off) by (try reflexivity; lia).
  assert (Hlo : Buf.readUInt32LE
            (pre ++ b :: b1 :: b2 :: b3 :: b4 :: b5 :: b6 :: b7 :: b8 :: post)
            (off + 1) = Some (Z_of_byte b1 + Z_of_byte b2 * 0x100
                              + Z_of_byte b3 * 0x10000 + Z_of_byte b4 * 0x1000000)).
  { replace (pre ++ b :: b1 :: b2 :: b3 :: b4 :: b5 :: b6 :: b7 :: b8 :: post)
      with ((pre ++ [b]) ++ b1 :: b2 :: b3 :: b4 :: (b5 :: b6 :: b7 :: b8 :: post))
      by (now rewrite <- app_assoc).
    apply readUInt32LE_stored. rewrite length_app. simpl. lia. }
  assert (Hhi : Buf.readUInt32LE
            (pre ++ b :: b1 :: b2 :: b3 :: b4 :: b5 :: b6 :: b7 :: b8 :: post)
            (off + 1 + 4) = Some (Z_of_byte b5 + Z_of_byte b6 * 0x100
                              + Z_of_byte b7 * 0x10000 + Z_of_byte b8 * 0x1000000)).
  { replace (pre ++ b :: b1 :: b2 :: b3 :: b4 :: b5 :: b6 :: b7 :: b8 :: post)
      with ((pre ++ [b; b1; b2; b3; b4]) ++ b5 :: b6 :: b7 :: b8 :: post)
      by (now rewrite <- app_assoc).
    apply readUInt32LE_stored. rewrite length_app. simpl. lia. }
  rewrite (readU64_words _ _ _ _ Hlo Hhi).
  unfold Buf.len. rewrite !length_app. cbn [length].
  destruct (Z.ltb_spec off (Z.of_nat (length pre +
    S (S (S (S (S (S (S (S (S (length post)))))))))))); [|lia].
  cbn [bind of_host]. rewrite Hb. cbn [Z.eqb Pos.eqb].
  destruct (Z.leb_spec (off + 9) (Z.of_nat (length pre +
    S (S (S (S (S (S (S (S (S (length post)))))))))))); [|lia].
  cbn [bind]. cbn zeta.
  destruct (_ <? 2 ^ 21); [|reflexivity].
  cbn [bind]. destruct (4294967295 <? _); reflexivity.
Qed.

Lemma ushr_bytes_word (a : Z) :
  Z_of_byte (byte_of_Z (JS.ushr a 0))
  + Z_of_byte (byte_of_Z (JS.ushr a 8)) * 0x100
  + Z_of_byte (byte_of_Z (JS.ushr a 16)) * 0x10000
  + Z_of_byte (byte_of_Z (JS.ushr a 24)) * 0x1000000 = JS.toUint32 a.
Proof.
  rewrite !Z_of_byte_of_Z. unfold JS.ushr.
  change (0 mod 32) with 0. change (8 mod 32) with 8.
  change (16 mod 32) with 16. change (24 mod 32) with 24.
  apply le_word. unfold JS.toUint32. apply Z.mod_pos_bound. lia.
Qed.

Lemma store_at (dst : Buffer) (off : Z) (vs : list Z) :
  0 <= off -> off + Z.of_nat (length vs) <= Buf.len dst ->
  Buf.store dst off vs
  = take (Z.to_nat off) dst ++ bytes_of vs
    ++ drop (Z.to_nat off + length vs) dst.
Proof.
  intros H0 H1. unfold Buf.len in H1.
  replace (Buf.store dst off) with (Buf.store dst (Z.of_nat (Z.to_nat off)))
    by (f_equal; lia).
  apply store_in_range. lia.
Qed.

(** What [writeVarint] leaves in the buffer is read back by
    [readVarint] as the same number, in [sizeVarint] bytes. *)
Lemma readVarint_writeVarint (dst : Buffer) (v off : Z) :
  0 <= v <= JS.MAX_SAFE_INTEGER -> 0 <= off ->
  off + encoding.sizeVarint v <= Buf.len dst ->
  exists out,
    encoding.writeVarint dst v off = (out, Ok (off + encoding.sizeVarint v))
    /\ Buf.len out = Buf.len dst
    /\ encoding.readVarint out off
       = Ok (encoding.mkVarint (encoding.sizeVarint v) v).
Proof.
  unfold JS.MAX_SAFE_INTEGER. intros Hv H0 Hroom.
  assert (Htk : length (take (Z.to_nat off) dst) = Z.to_nat off)
    by (rewrite length_take; unfold encoding.sizeVarint, Buf.len in Hroom;
        repeat destruct (_ <? _); repeat destruct (_ <=? _); lia).
  unfold encoding.writeVarint, encoding.sizeVarint in *.
  destruct (Z.ltb_spec v 0xfd) as [H1|H1];
    [|destruct (Z.leb_spec v 0xffff) as [H2|H2];
      [|destruct (Z.leb_spec v 0xffffffff) as [H3|H3]]].
  - eexists. split; [reflexivity|]. split; [apply len_store|].
    rewrite store_at by (simpl; lia). cbn [bytes_of fmap list_fmap app].
    rewrite readVarint_1 by
      (rewrite ?Z_of_byte_of_Z; change 0xff with (2 ^ 8 - 1);
       rewrite ?band_low by lia; change (2 ^ 8) with 256;
       try (Z.div_mod_to_equations; lia); lia).
    rewrite Z_of_byte_of_Z. change 0xff with (2 ^ 8 - 1).
    rewrite band_low by lia. change (2 ^ 8) with 256.
    rewrite Z.mod_mod by lia. rewrite Z.mod_small by lia. reflexivity.
  - eexists. split; [reflexivity|]. split; [apply len_store|].
    rewrite store_at by (simpl; lia). cbn [bytes_of fmap list_fmap app].
    rewrite readVarint_3 by (try reflexivity; lia).
    rewrite !Z_of_byte_of_Z.
    rewrite shr_byte by (change (2 ^ 32) with 4294967296; lia).
    change 0xff with (2 ^ 8 - 1). rewrite band_low by lia.
    change (2 ^ 8) with 256.
    cbn zeta.
    replace (v mod 256 mod 256 + 256 * ((v / 256) mod 256 mod 256)) with v
      by (Z.div_mod_to_equations; lia).
    destruct (Z.leb_spec 253 v); [reflexivity|lia].
  - eexists. split; [reflexivity|]. split; [apply len_store|].
    rewrite store_at by (simpl; lia). cbn [bytes_of fmap list_fmap app].
    rewrite readVarint_5 by (try reflexivity; lia).
    rewrite !Z_of_byte_of_Z.
    rewrite !shr_byte by (change (2 ^ 32) with 4294967296; lia).
    change 0xff with (2 ^ 8 - 1). rewrite band_low by lia.
    unfold JS.ushr, JS.toUint32. change (24 mod 32) with 24.
    rewrite Z.shiftr_div_pow2 by lia.
    change (2 ^ 8) with 256. change (2 ^ 16) with 65536.
    change (2 ^ 24) with 16777216. change (2 ^ 32) with 4294967296.
    cbn zeta.
    replace (v mod 256 mod 256 + (v / 256) mod 256 mod 256 * 256
             + (v / 65536) mod 256 mod 256 * 65536
             + (v mod 4294967296 / 16777216) mod 256 * 16777216) with v
      by (Z.div_mod_to_equations; lia).
    destruct (Z.ltb_spec 65535 v); [reflexivity|lia].
  - assert (Hl : Buf.len (Buf.set dst off 255) = Buf.len dst) by apply len_set.
    unfold encoding.writeU64.
    rewrite write64_le_stores by lia.
    eexists. split; [f_equal; f_equal; lia|].
    split; [rewrite len_store; exact Hl|].
    change (Buf.set dst off 255) with (Buf.store dst off [255]).
    replace (off + 1) with (off + Z.of_nat (length [255])) by (simpl; lia).
    rewrite <- store_app.
    rewrite !le_bytes_4.
    rewrite store_at by (simpl; lia).
    cbn [bytes_of fmap list_fmap app].
    rewrite readVarint_9 by (try reflexivity; lia).
    rewrite !ushr_bytes_word, !toUint32_toInt32.
    change (2 ^ 32) with 4294967296. change (2 ^ 21) with 2097152.
    cbn zeta.
    assert (Hq : 0 <= v / 4294967296 < 2097152) by (Z.div_mod_to_equations; lia).
    rewrite (Z.mod_small (v / 4294967296)) by lia.
    replace (v / 4294967296 * 4294967296 + v mod 4294967296) with v
      by (Z.div_mod_to_equations; lia).
    destruct (Z.ltb_spec (v / 4294967296) 2097152); [|lia].
    destruct (Z.ltb_spec 4294967295 v); [reflexivity|lia].
Qed.

Lemma writeVarint_size (dst : Buffer) (v off : Z) :
  0 <= v -> 0 <= off -> off + encoding.sizeVarint v <= Buf.len dst ->
  exists out,
    encoding.writeVarint dst v off = (out, Ok (off + encoding.sizeVarint v))
    /\ Buf.len out = Buf.len dst.
Proof.
  intros Hv H0 Hroom.
  unfold encoding.writeVarint, encoding.sizeVarint in *.
  destruct (v <? 0xfd); [|destruct (v <=? 0xffff); [|destruct (v <=? 0xffffffff)]];
    try (eexists; split; [reflexivity | apply len_store]).
  assert (Hl : Buf.len (Buf.set dst off 255) = Buf.len dst) by apply len_set.
  unfold encoding.writeU64. rewrite write64_le_stores by lia.
  eexists. split; [f_equal; f_equal; lia|]. now rewrite len_store.
Qed.

(** [readVarint] accepts a number in one size only, the size that
    [sizeVarint] gives it. *)
Lemma readVarint_canonical (data : Buffer) (off : Z) (r : encoding.Varint Z) :
  encoding.readVarint data off = Ok r ->
  encoding.size r = encoding.sizeVarint (encoding.value r)
  /\ 0 <= encoding.value r.
Proof.
  unfold encoding.readVarint, encoding.check, encoding.enforce.
  destruct (off <? Buf.len data); [|discriminate]. cbn [bind].
  destruct (Buf.get data off) as [b|] eqn:Hb; [|discriminate]. cbn [bind of_host].
  assert (Hbr : 0 <= b < 256).
  { unfold Buf.get in Hb. destruct (off <? 0); [discriminate|].
    destruct (data !! Z.to_nat off) as [x|]; [|discriminate].
    injection Hb as <-. apply Z_of_byte_range. }
  destruct (Z.eqb_spec b 0xff) as [Hff|Hff];
    [|destruct (Z.eqb_spec b 0xfe) as [Hfe|Hfe];
      [|destruct (Z.eqb_spec b 0xfd) as [Hfd|Hfd]]].
  - destruct (off + 9 <=? Buf.len data); [|discriminate]. cbn [bind].
    destruct (encoding.readU64 data (off + 1)) as [value| |]; try discriminate.
    cbn [bind]. destruct (Z.ltb_spec 0xffffffff value); [|discriminate].
    cbn [bind]. intros [= <-]. cbn. unfold encoding.sizeVarint.
    decide_checks; try (split; [reflexivity|lia]).
  - destruct (off + 5 <=? Buf.len data); [|discriminate]. cbn [bind].
    destruct (Buf.readUInt32LE data (off + 1)) as [value|] eqn:Hv;
      [|discriminate].
    apply readUInt32LE_range in Hv. change (2 ^ 32) with 4294967296 in Hv.
    cbn [bind of_host]. destruct (Z.ltb_spec 0xffff value); [|discriminate].
    cbn [bind]. intros [= <-]. cbn. unfold encoding.sizeVarint.
    decide_checks; try (split; [reflexivity|lia]).
  - destruct (off + 3 <=? Buf.len data); [|discriminate]. cbn [bind].
    destruct (Buf.get data (off + 1)) as [b1|] eqn:Hb1; [|discriminate].
    destruct (Buf.get data (off + 2)) as [b2|] eqn:Hb2; [|discriminate].
    cbn [bind of_host].
    assert (Hr1 : 0 <= b1 < 256).
    { unfold Buf.get in Hb1. destruct (off + 1 <? 0); [discriminate|].
      destruct (data !! _) as [x|]; [|discriminate].
      injection Hb1 as <-. apply Z_of_byte_range. }
    assert (Hr2 : 0 <= b2 < 256).
    { unfold Buf.get in Hb2. destruct (off + 2 <? 0); [discriminate|].
      destruct (data !! _) as [x|]; [|discriminate].
      injection Hb2 as <-. apply Z_of_byte_range. }
    rewrite bor_shl_8 by assumption.
    destruct (Z.leb_spec 0xfd (b1 + 256 * b2)); [|discriminate].
    cbn [bind]. intros [= <-]. cbn. unfold encoding.sizeVarint.
    decide_checks; try (split; [reflexivity|lia]).
  - intros [= <-]. cbn. unfold encoding.sizeVarint.
    decide_checks; try (split; [reflexivity|lia]).
Qed.

Lemma long_form_split (data : Buffer) (off prefix width v : Z) :
  0 <= width -> long_form data off prefix width v ->
  exists pre b mid post,
    data = pre ++ b :: mid ++ post
    /\ off = Z.of_nat (length pre) /\ Z_of_byte b = prefix
    /\ length mid = Z.to_nat width /\ v = le_value mid.
Proof.
  intros Hw (Hget & Hroom & ->). unfold Buf.get in Hget.
  destruct (Z.ltb_spec off 0) as [|H0]; [discriminate|].
  destruct (data !! Z.to_nat off) as [b|] eqn:Hb; [|discriminate].
  injection Hget as Hget. unfold Buf.len in Hroom.
  exists (take (Z.to_nat off) data), b,
    (Buf.slice data (off + 1) (off + 1 + width)),
    (drop (Z.to_nat (off + 1 + width)) data).
  assert (Hlt : (Z.to_nat off < length data)%nat)
    by (eapply lookup_lt_Some; eassumption).
  assert (Hs : Buf.slice data (off + 1) (off + 1 + width)
               = take (Z.to_nat width) (drop (S (Z.to_nat off)) data)).
  { unfold Buf.slice, Buf.clamp, Buf.len.
    destruct (Z.ltb_spec (off + 1) 0); [lia|].
    destruct (Z.ltb_spec (off + 1 + width) 0); [lia|].
    rewrite !Z.min_l by lia. f_equal; [lia|f_equal; lia]. }
  split; [|split; [|split; [|split]]].
  - rewrite Hs.
    replace (Z.to_nat (off + 1 + width))
      with (S (Z.to_nat off) + Z.to_nat width)%nat by lia.
    rewrite <- drop_drop, take_drop.
    symmetry. now apply take_drop_middle.
  - rewrite length_take. lia.
  - exact Hget.
  - rewrite Hs, length_take, length_drop. lia.
  - reflexivity.
Qed.

(** A long form whose value fits a shorter form is refused. *)
Lemma readVarint_non_canonical (data : Buffer) (off v : Z) :
  (long_form data off 0xfd 2 v /\ v < 0xfd)
  \/ (long_form data off 0xfe 4 v /\ v <= 0xffff)
  \/ (long_form data off 0xff 8 v /\ v <= 0xffffffff) ->
  encoding.readVarint data off
  = Throw (EncodingError off "Non-canonical varint").
Proof.
  intros [[Hf Hv] | [[Hf Hv] | [Hf Hv]]];
    apply long_form_split in Hf as (pre & b & mid & post & -> & Hoff & Hb & Hlen & ->);
    try lia.
  - destruct mid as [|b1 [|b2 [|]]]; try discriminate.
    cbn [app]. rewrite readVarint_3 by assumption.
    cbn [le_value foldr] in Hv. cbn zeta.
    destruct (Z.leb_spec 253 (Z_of_byte b1 + 256 * Z_of_byte b2));
      [|reflexivity].
    pose proof (Z_of_byte_range b1). pose proof (Z_of_byte_range b2). lia.
  - destruct mid as [|b1 [|b2 [|b3 [|b4 [|]]]]]; try discriminate.
    cbn [app]. rewrite readVarint_5 by assumption.
    cbn [le_value foldr] in Hv. cbn zeta.
    match goal with |- context [65535 <? ?x] =>
      destruct (Z.ltb_spec 65535 x) end; [|reflexivity].
    pose proof (Z_of_byte_range b1). pose proof (Z_of_byte_range b2).
    pose proof (Z_of_byte_range b3). pose proof (Z_of_byte_range b4). lia.
  - destruct mid as [|b1 [|b2 [|b3 [|b4 [|b5 [|b6 [|b7 [|b8 [|]]]]]]]]];
      try discriminate.
    cbn [app]. rewrite readVarint_9 by assumption.
    cbn [le_value foldr] in Hv. cbn zeta.
    pose proof (Z_of_byte_range b1). pose proof (Z_of_byte_range b2).
    pose proof (Z_of_byte_range b3). pose proof (Z_of_byte_range b4).
    pose proof (Z_of_byte_range b5). pose proof (Z_of_byte_range b6).
    pose proof (Z_of_byte_range b7). pose proof (Z_of_byte_range b8).
    change (2 ^ 21) with 2097152.
    match goal with |- context [?h <? 2097152] =>
      destruct (Z.ltb_spec h 2097152) end; [|lia].
    match goal with |- context [4294967295 <? ?x] =>
      destruct (Z.ltb_spec 4294967295 x) end; [lia|reflexivity].
Qed.

(** *** C1 *)

(** C1. Varint scheme A is canonical in both directions. Writing: for
    every number [v >= 0], [writeVarint] writes [sizeVarint v] bytes,
    which is one byte below 0xFD, three up to 0xFFFF, five up to
    0xFFFFFFFF and nine above, and [readVarint] reads them back as [v]
    (for [v] a safe integer); no other size is accepted for any value,
    so the form written is the shortest valid one; 252 is written as
    the byte 0xFC and 253 as 0xFD 0xFD 0x00. Reading: a 0xFD form with a
    value below 0xFD, a 0xFE form with a value up to 0xFFFF and a 0xFF
    form with a value up to 0xFFFFFFFF make [readVarint] throw
    "Non-canonical varint". *)
Theorem varint_canonical (dst data : Buffer) (v off at_ w : Z)
    (Hv : 0 <= v) (Hoff : 0 <= off)
    (Hroom : off + encoding.sizeVarint v <= Buf.len dst)
    (Hlong : (long_form data at_ 0xfd 2 w /\ w < 0xfd)
             \/ (long_form data at_ 0xfe 4 w /\ w <= 0xffff)
             \/ (long_form data at_ 0xff 8 w /\ w <= 0xffffffff)) :
  (exists out,
     encoding.writeVarint dst v off = (out, Ok (off + encoding.sizeVarint v))
     /\ (v <= JS.MAX_SAFE_INTEGER ->
         encoding.readVarint out off
         = Ok (encoding.mkVarint (encoding.sizeVarint v) v)))
  /\ (v < 0xfd -> encoding.sizeVarint v = 1)
  /\ (0xfd <= v <= 0xffff -> encoding.sizeVarint v = 3)
  /\ (0xffff < v <= 0xffffffff -> encoding.sizeVarint v = 5)
  /\ (0xffffffff < v -> encoding.sizeVarint v = 9)
  /\ (forall d o r, encoding.readVarint d o = Ok r ->
        encoding.size r = encoding.sizeVarint (encoding.value r))
  /\ (forall b, encoding.writeVarint [b] 252 0 = (bytes_of [0xfc], Ok 1))
  /\ (forall b0 b1 b2,
        encoding.writeVarint [b0; b1; b2] 253 0
        = (bytes_of [0xfd; 0xfd; 0x00], Ok 3))
  /\ encoding.readVarint data at_
     = Throw (EncodingError at_ "Non-canonical varint").
Proof.
  repeat match goal with |- _ /\ _ => split end.
  - destruct (Z_le_gt_dec v JS.MAX_SAFE_INTEGER) as [Hs|Hs].
    + destruct (readVarint_writeVarint dst v off) as (out & Hw & _ & Hr);
        try lia.
      exists out. split; [exact Hw | intros _; exact Hr].
    + destruct (writeVarint_size dst v off) as (out & Hw & _); try lia.
      exists out. split; [exact Hw | intros; lia].
  - unfold encoding.sizeVarint. intros. decide_checks.
  - unfold encoding.sizeVarint. intros. decide_checks.
  - unfold encoding.sizeVarint. intros. decide_checks.
  - unfold encoding.sizeVarint. intros. decide_checks.
  - intros d o r Hr. now apply readVarint_canonical in Hr.
  - intros b. vm_compute. reflexivity.
  - intros b0 b1 b2. vm_compute. reflexivity.
  - now apply readVarint_non_canonical with (v := w).
Qed.

Lemma varint_canonical_witness :
  (long_form (bytes_of [0xfd; 0x10; 0x00]) 0 0xfd 2 16 /\ 16 < 0xfd)
  /\ (exists out,
        encoding.writeVarint (zeros 9) 4294967296 0 = (out, Ok 9)
        /\ (4294967296 <= JS.MAX_SAFE_INTEGER ->
            encoding.readVarint out 0 = Ok (encoding.mkVarint 9 4294967296)))
  /\ encoding.readVarint (bytes_of [0xfd; 0x10; 0x00]) 0
     = Throw (EncodingError 0 "Non-canonical varint").
Proof.
  assert (Hl : long_form (bytes_of [0xfd; 0x10; 0x00]) 0 0xfd 2 16 /\ 16 < 0xfd).
  { split; [|lia]. unfold long_form. split; [reflexivity|].
    split; [vm_compute; discriminate | reflexivity]. }
  assert (Hroom : 0 + encoding.sizeVarint 4294967296 <= Buf.len (zeros 9))
    by (vm_compute; discriminate).
  pose proof (varint_canonical (zeros 9) (bytes_of [0xfd; 0x10; 0x00])
                4294967296 0 0 16 ltac:(lia) ltac:(lia) Hroom (or_introl Hl))
    as (H1 & _ & _ & _ & _ & _ & _ & _ & H9).
  exact (conj Hl (conj H1 H9)).
Defined.

(** ** The sign flag of the 64-bit pairs *)

(** *** C10 *)

(** C10. The entry points that take a pair of words check its sign flag
    first: with the flag set, [writeU64N], [writeU64BEN], [writeVarintN],
    [writeVarint2N], [sizeVarintN] and [sizeVarint2N] throw "Signed";
    with the flag clear, [writeI64N] and [writeI64BEN] throw
    "Not signed". The buffer is handed back as it was. *)
Theorem sign_flag_enforced (dst : Buffer) (signed unsigned : N64.t) (off : Z)
    (Hs : JS.truthy (N64.sign signed) = true)
    (Hu : JS.truthy (N64.sign unsigned) = false) :
  encoding.writeU64N dst signed off = (dst, Throw (EncodingError off "Signed"))
  /\ encoding.writeU64BEN dst signed off = (dst, Throw (EncodingError off "Signed"))
  /\ encoding.writeVarintN dst signed off = (dst, Throw (EncodingError off "Signed"))
  /\ encoding.writeVarint2N dst signed off = (dst, Throw (EncodingError off "Signed"))
  /\ encoding.sizeVarintN signed = Throw (EncodingError 0 "Signed")
  /\ encoding.sizeVarint2N signed = Throw (EncodingError 0 "Signed")
  /\ encoding.writeI64N dst unsigned off
     = (dst, Throw (EncodingError off "Not signed"))
  /\ encoding.writeI64BEN dst unsigned off
     = (dst, Throw (EncodingError off "Not signed")).
Proof.
  unfold encoding.writeU64N, encoding.writeU64BEN, encoding.writeVarintN,
    encoding.writeVarint2N, encoding.sizeVarintN, encoding.sizeVarint2N,
    encoding.writeI64N, encoding.writeI64BEN, encoding.enforce.
  rewrite Hs, Hu. cbn [negb encoding.guarded bind].
  repeat match goal with |- _ /\ _ => split end; reflexivity.
Qed.

Lemma sign_flag_enforced_witness :
  encoding.writeU64N (zeros 8) (N64.mk 0 1 1) 0
  = (zeros 8, Throw (EncodingError 0 "Signed"))
  /\ encoding.writeI64N (zeros 8) (N64.mk 0 1 0) 0
     = (zeros 8, Throw (EncodingError 0 "Not signed")).
Proof.
  pose proof (sign_flag_enforced (zeros 8) (N64.mk 0 1 1) (N64.mk 0 1 0) 0
                eq_refl eq_refl) as (H1 & _ & _ & _ & _ & _ & H7 & _).
  exact (conj H1 H7).
Defined.

(** ** The Static Writer *)

Lemma slice_prefix (data : Buffer) (n : Z) :
  0 <= n <= Buf.len data -> Buf.slice data 0 n = take (Z.to_nat n) data.
Proof.
  intros Hn. unfold Buf.slice, Buf.clamp.
  destruct (Z.ltb_spec n 0); [lia|]. cbn [Z.ltb Z.compare].
  rewrite (Z.min_l 0) by (unfold Buf.len; lia). rewrite Z.min_l by lia.
  rewrite Z.sub_0_r. reflexivity.
Qed.

(** *** C6 *)

(** C6. Finalizing a Static Writer: [render] throws "Out of bounds
    write" at the offset whenever the offset differs from the length of
    the buffer, be it short of it or past it; [slice] on the same state
    returns whenever the offset is at most the length, and what it
    returns is the first [offset] bytes of the buffer. *)
Theorem static_finalization (w s : StaticWriter.t)
    (Hne : StaticWriter.offset w <> Buf.len (StaticWriter.data w))
    (Hle : StaticWriter.offset s <= Buf.len (StaticWriter.data s)) :
  StaticWriter.render w
  = (w, Throw (EncodingError (StaticWriter.offset w) "Out of bounds write"))
  /\ StaticWriter.slice s
     = (StaticWriter.destroy s,
        Ok (Buf.slice (StaticWriter.data s) 0 (StaticWriter.offset s)))
  /\ (0 <= StaticWriter.offset s ->
      Buf.slice (StaticWriter.data s) 0 (StaticWriter.offset s)
      = take (Z.to_nat (StaticWriter.offset s)) (StaticWriter.data s))
  /\ (StaticWriter.offset s < Buf.len (StaticWriter.data s) ->
      StaticWriter.render s
      = (s, Throw (EncodingError (StaticWriter.offset s) "Out of bounds write"))).
Proof.
  unfold StaticWriter.render, StaticWriter.slice.
  repeat match goal with |- _ /\ _ => split end.
  - destruct (Z.eqb_spec (StaticWriter.offset w) (Buf.len (StaticWriter.data w)));
      [contradiction|reflexivity].
  - destruct (Z.ltb_spec (Buf.len (StaticWriter.data s)) (StaticWriter.offset s));
      [lia|reflexivity].
  - intros H0. apply slice_prefix. lia.
  - intros Hlt.
    destruct (Z.eqb_spec (StaticWriter.offset s) (Buf.len (StaticWriter.data s)));
      [lia|reflexivity].
Qed.

Lemma static_finalization_witness :
  StaticWriter.render (StaticWriter.mk (bytes_of [1; 2; 3; 0; 0]) 3)
  = (StaticWriter.mk (bytes_of [1; 2; 3; 0; 0]) 3,
     Throw (EncodingError 3 "Out of bounds write"))
  /\ StaticWriter.slice (StaticWriter.mk (bytes_of [1; 2; 3; 0; 0]) 3)
     = (StaticWriter.mk [] 0, Ok (bytes_of [1; 2; 3])).
Proof.
  assert (Hne : StaticWriter.offset (StaticWriter.mk (bytes_of [1; 2; 3; 0; 0]) 3)
                <> Buf.len (StaticWriter.data
                              (StaticWriter.mk (bytes_of [1; 2; 3; 0; 0]) 3)))
    by (vm_compute; discriminate).
  assert (Hle : StaticWriter.offset (StaticWriter.mk (bytes_of [1; 2; 3; 0; 0]) 3)
                <= Buf.len (StaticWriter.data
                              (StaticWriter.mk (bytes_of [1; 2; 3; 0; 0]) 3)))
    by (vm_compute; discriminate).
  pose proof (static_finalization _ _ Hne Hle) as (H1 & H2 & _).
  exact (conj H1 H2).
Defined.

(** ** Checksums *)

Lemma blit_inside (data bs : list byte) (i : nat) :
  (i + length bs <= length data)%nat ->
  Buf.blit data i bs = take i data ++ bs ++ drop (i + length bs) data.
Proof.
  intros Hlen. unfold Buf.blit. apply take_ge.
  rewrite !length_app, length_take, length_drop. lia.
Qed.

Lemma slice_front (data : Buffer) (n : Z) :
  0 <= n -> Buf.slice data 0 n = take (Z.to_nat n) data.
Proof.
  intros Hn. destruct (Z_le_gt_dec n (Buf.len data)) as [Hle|Hgt];
    [apply slice_prefix; lia|].
  unfold Buf.slice, Buf.clamp.
  destruct (Z.ltb_spec n 0); [lia|]. cbn [Z.ltb Z.compare].
  rewrite (Z.min_l 0) by (unfold Buf.len; lia). rewrite Z.min_r by lia.
  rewrite Z.sub_0_r. change (Z.to_nat 0) with 0%nat. rewrite drop_0.
  unfold Buf.len in *. rewrite !take_ge by lia. reflexivity.
Qed.

(** [src.copy(data, off, 0, 4)]: as many of the first four bytes of
    [src] as [src] holds and [data] has room for from [off] on. *)
Lemma copy_front (src data : Buffer) (off : Z) :
  0 <= off ->
  let n := Z.max 0 (Z.min (Z.min 4 (Buf.len src)) (Buf.len data - off)) in
  Buf.copy src data off 0 4
  = Some (take (Z.to_nat off) data ++ take (Z.to_nat n) src
          ++ drop (Z.to_nat (off + n)) data, n).
Proof.
  intros H0 n. subst n. unfold Buf.copy, Buf.in_range.
  destruct (Z.leb_spec 0 off); [|lia]. cbn [Z.leb Z.compare andb].
  destruct (Z.leb_spec 0 (Buf.len src)); [|unfold Buf.len in *; lia].
  cbn [andb]. rewrite Z.sub_0_r.
  change (Z.to_nat 0) with 0%nat. rewrite drop_0.
  destruct (Z.leb_spec (Z.min (Z.min 4 (Buf.len src)) (Buf.len data - off)) 0)
    as [Hz|Hp].
  - rewrite Z.max_l by lia. rewrite Z.add_0_r.
    change (Z.to_nat 0) with 0%nat. rewrite take_0. cbn [app].
    now rewrite take_drop.
  - rewrite Z.max_r by lia.
    set (m := Z.min (Z.min 4 (Buf.len src)) (Buf.len data - off)) in *.
    assert (Hm : m <= Buf.len src /\ m <= Buf.len data - off)
      by (subst m; lia).
    clearbody m. unfold Buf.len in Hm.
    assert (Hl : length (take (Z.to_nat m) src) = Z.to_nat m)
      by (rewrite length_take; lia).
    rewrite blit_inside by (rewrite Hl; lia).
    rewrite Hl. replace (Z.to_nat off + Z.to_nat m)%nat with (Z.to_nat (off + m))
      by lia.
    reflexivity.
Qed.

Section Checksum.
Context `{Host}.

(** *** C8 *)

(** C8, as the code has it. A checksum goes where the cursor is, as far
    as there is room and digest. At an offset [off] that is not
    negative, writing [digest] for [hash] of the bytes before [off] and
    [n] for the least of four, the length of [digest] and the room from
    [off] to the end of the buffer: the [CHECKSUM] op of the replay loop
    of [BufferWriter.render] and [StaticWriter.writeChecksum] both put
    the first [n] bytes of [digest] at [off] and leave the rest of the
    buffer alone. The replay moves the offset by [n], the number of
    bytes copied; the Static Writer moves it by four, whatever was
    copied. So with four bytes of room and a digest of four bytes or
    more, four bytes are placed and the offset moves by four in both;
    and only then. [BufferWriter.writeChecksum] accounts for four bytes
    in every case. *)
Theorem checksum_placement (hash : Buffer -> Buffer) (data : Buffer) (off : Z)
    (bw : BufferWriter.t)
    (H0 : 0 <= off) :
  let digest := hash (take (Z.to_nat off) data) in
  let n := Z.max 0 (Z.min (Z.min 4 (Buf.len digest)) (Buf.len data - off)) in
  let placed :=
    take (Z.to_nat off) data ++ take (Z.to_nat n) digest
    ++ drop (Z.to_nat (off + n)) data in
  Buf.slice data 0 off = take (Z.to_nat off) data
  /\ BufferWriter.replay_op (BufferWriter.FunctionOp BufferWriter.CHECKSUM hash)
       data off = (placed, Ok (off + n))
  /\ StaticWriter.writeChecksum hash (StaticWriter.mk data off)
     = (StaticWriter.mk placed (off + 4), Ok tt)
  /\ take (Z.to_nat n) (drop (Z.to_nat off) placed) = take (Z.to_nat n) digest
  /\ (n = 4 <-> 4 <= Buf.len digest /\ off + 4 <= Buf.len data)
  /\ (4 <= Buf.len digest -> off + 4 <= Buf.len data ->
      BufferWriter.replay_op (BufferWriter.FunctionOp BufferWriter.CHECKSUM hash)
        data off
      = (take (Z.to_nat off) data ++ take 4 digest
         ++ drop (Z.to_nat off + 4) data, Ok (off + 4))
      /\ StaticWriter.writeChecksum hash (StaticWriter.mk data off)
         = (StaticWriter.mk
              (take (Z.to_nat off) data ++ take 4 digest
               ++ drop (Z.to_nat off + 4) data) (off + 4), Ok tt)
      /\ take 4 (drop (Z.to_nat off)
                   (take (Z.to_nat off) data ++ take 4 digest
                    ++ drop (Z.to_nat off + 4) data))
         = take 4 digest)
  /\ BufferWriter.offset (BufferWriter.writeChecksum hash bw)
     = BufferWriter.offset bw + 4
  /\ BufferWriter.ops (BufferWriter.writeChecksum hash bw)
     = BufferWriter.ops bw
       ++ [BufferWriter.FunctionOp BufferWriter.CHECKSUM hash].
Proof.
  intros digest n placed.
  assert (Hs : Buf.slice data 0 off = take (Z.to_nat off) data)
    by (apply slice_front; lia).
  assert (Hcopy : Buf.copy digest data off 0 4 = Some (placed, n))
    by (apply copy_front; exact H0).
  assert (Hreplay : BufferWriter.replay_op
                      (BufferWriter.FunctionOp BufferWriter.CHECKSUM hash)
                      data off = (placed, Ok (off + n))).
  { cbn [BufferWriter.replay_op]. rewrite Hs. fold digest. now rewrite Hcopy. }
  assert (Hstatic : StaticWriter.writeChecksum hash (StaticWriter.mk data off)
                    = (StaticWriter.mk placed (off + 4), Ok tt)).
  { unfold StaticWriter.writeChecksum.
    cbn [StaticWriter.data StaticWriter.offset]. rewrite Hs. fold digest.
    now rewrite Hcopy. }
  assert (Hplaced : take (Z.to_nat n) (drop (Z.to_nat off) placed)
                    = take (Z.to_nat n) digest).
  { subst placed.
    destruct (Z_le_gt_dec off (Buf.len data)) as [Hin|Hout].
    - assert (Hl : length (take (Z.to_nat off) data) = Z.to_nat off)
        by (rewrite length_take; unfold Buf.len in Hin; lia).
      rewrite drop_app_ge by lia. rewrite Hl, Nat.sub_diag, drop_0.
      rewrite take_app_le by (rewrite length_take; subst n; unfold Buf.len; lia).
      now rewrite take_take, Nat.min_id.
    - assert (Hn : n = 0) by (subst n; lia). now rewrite Hn. }
  assert (Hfour : n = 4 <-> 4 <= Buf.len digest /\ off + 4 <= Buf.len data)
    by (subst n; lia).
  split; [exact Hs|]. split; [exact Hreplay|]. split; [exact Hstatic|].
  split; [exact Hplaced|]. split; [exact Hfour|].
  split; [|split; reflexivity].
  intros Hd Hroom.
  assert (Hn : n = 4) by (apply Hfour; split; assumption).
  assert (Hp4 : placed
                = take (Z.to_nat off) data ++ take 4 digest
                  ++ drop (Z.to_nat off + 4) data).
  { subst placed. rewrite Hn. change (Z.to_nat 4) with 4%nat.
    now replace (Z.to_nat (off + 4)) with (Z.to_nat off + 4)%nat by lia. }
  rewrite Hreplay, Hstatic, <- Hp4. rewrite Hn in *.
  change (Z.to_nat 4) with 4%nat in Hplaced.
  split; [reflexivity|]. split; [reflexivity|exact Hplaced].
Qed.

End Checksum.

(** The stub hash of the example: the buffer's bytes in reverse. *)
Lemma checksum_placement_witness :
  BufferWriter.replay_op (H := latin1)
    (BufferWriter.FunctionOp BufferWriter.CHECKSUM (@rev byte))
    (bytes_of [1; 2; 3; 4; 5; 0; 0; 0; 0]) 5
  = (bytes_of [1; 2; 3; 4; 5; 5; 4; 3; 2], Ok 9)
  /\ StaticWriter.writeChecksum (@rev byte)
       (StaticWriter.mk (bytes_of [1; 2; 3; 4; 5; 0; 0; 0; 0]) 5)
     = (StaticWriter.mk (bytes_of [1; 2; 3; 4; 5; 5; 4; 3; 2]) 9, Ok tt).
Proof.
  pose proof (checksum_placement (H := latin1) (@rev byte)
                (bytes_of [1; 2; 3; 4; 5; 0; 0; 0; 0]) 5
                BufferWriter.create ltac:(lia)) as (_ & H1 & H2 & _).
  exact (conj H1 H2).
Defined.

(** The claim as the spec words it, for any hash function and any
    writer state, fails even with the cursor inside the buffer: of a
    digest of two bytes only two are placed, and the replay moves the
    offset by two. *)
Lemma checksum_short_of_four_bytes :
  ~ (forall (hash : Buffer -> Buffer) (data : Buffer) (off : Z),
       0 <= off <= Buf.len data ->
       exists placed,
         BufferWriter.replay_op (H := latin1)
           (BufferWriter.FunctionOp BufferWriter.CHECKSUM hash) data off
         = (placed, Ok (off + 4))
         /\ StaticWriter.writeChecksum hash (StaticWriter.mk data off)
            = (StaticWriter.mk placed (off + 4), Ok tt)
         /\ take 4 (drop (Z.to_nat off) placed)
            = take 4 (hash (take (Z.to_nat off) data))).
Proof.
  intros Hclaim.
  destruct (Hclaim (fun _ => bytes_of [1; 2]) (zeros 8) 0)
    as (placed & Hreplay & _); [vm_compute; split; discriminate|].
  vm_compute in Hreplay. discriminate.
Qed.

(** Nor is room a matter of exotic states. A Static Writer of three
    bytes takes a checksum: three bytes are placed and the offset is
    four. And through the empty [writeVarString], which the Buffer
    Writer queues without counting, [render] returns a buffer whose
    checksum is cut to three bytes. *)
Example checksum_without_room :
  StaticWriter.writeChecksum (@rev byte) (StaticWriter.mk (zeros 3) 0)
  = (StaticWriter.mk (zeros 3) 4, Ok tt)
  /\ StaticWriter.writeChecksum (fun _ => bytes_of [1; 2; 3; 4])
       (StaticWriter.mk (zeros 3) 0)
     = (StaticWriter.mk (bytes_of [1; 2; 3]) 4, Ok tt)
  /\ (exists bw,
        run (H := BufferWriter_IWriter (H := latin1))
          [writeVarString "" None; writeBytes (bytes_of [1; 2; 3; 4; 5; 6; 7]);
           writeChecksum (fun _ => bytes_of [0xa; 0xb; 0xc; 0xd])]
          BufferWriter.create = (bw, Ok tt)
        /\ BufferWriter.render (H := latin1) bw
           = (BufferWriter.create,
              Ok (bytes_of [0; 1; 2; 3; 4; 5; 6; 7; 0xa; 0xb; 0xc]))).
Proof.
  split; [reflexivity|]. split; [reflexivity|].
  eexists. split; [reflexivity|]. vm_compute. reflexivity.
Qed.

(** ** Zero-length payloads and the size accounting *)

Section EmptyPayload.
Context `{Host}.

(** *** C4 *)

(** C4, at the input where it fails. A zero-length [writeVarBytes]
    accounts for the one prefix byte in every writer and renders as
    [0x00]; so does a zero-length [writeVarString] in the Size Writer
    and the Static Writer. In the Buffer Writer a [writeVarString] of
    the empty string queues the prefix but accounts for nothing, and
    [render] throws "Out of bounds write". *)
Theorem empty_var_payload (enc : option string) (b : byte) :
  SizeWriter.offset (SizeWriter.writeVarBytes [] SizeWriter.create) = 1
  /\ SizeWriter.offset (SizeWriter.writeVarString "" enc SizeWriter.create) = 1
  /\ BufferWriter.render (BufferWriter.writeVarBytes [] BufferWriter.create)
     = (BufferWriter.create, Ok (bytes_of [0x00]))
  /\ StaticWriter.writeVarBytes [] (StaticWriter.mk [b] 0)
     = (StaticWriter.mk (bytes_of [0x00]) 1, Ok tt)
  /\ StaticWriter.writeVarString "" enc (StaticWriter.mk [b] 0)
     = (StaticWriter.mk (bytes_of [0x00]) 1, Ok tt)
  /\ StaticWriter.render (StaticWriter.mk (bytes_of [0x00]) 1)
     = (StaticWriter.create, Ok (bytes_of [0x00]))
  /\ BufferWriter.writeVarString "" enc BufferWriter.create
     = BufferWriter.mk
         [BufferWriter.NumberOp BufferWriter.VARINT (BufferWriter.Num 0)] 0
  /\ BufferWriter.render (BufferWriter.writeVarString "" enc BufferWriter.create)
     = (BufferWriter.writeVarString "" enc BufferWriter.create,
        Throw (EncodingError 1 "Out of bounds write")).
Proof.
  repeat match goal with |- _ /\ _ => split end; reflexivity.
Qed.

(** *** C3 *)

(** C3, at the input where it fails. After the one call
    [writeVarString("")] the Size Writer renders the size 1, and a
    Static Writer of that capacity renders the one byte [0x00]; the
    Buffer Writer, which accounted for no byte, renders nothing:
    [render] throws "Out of bounds write". *)
Theorem size_accounting_on_empty_string (enc : option string) (b : byte) :
  SizeWriter.render (fst (run [writeVarString "" enc] SizeWriter.create))
  = (SizeWriter.create, 1)
  /\ (exists w,
        run [writeVarString "" enc] (StaticWriter.mk [b] 0) = (w, Ok tt)
        /\ StaticWriter.render w = (StaticWriter.create, Ok (bytes_of [0x00])))
  /\ (exists w,
        run [writeVarString "" enc] BufferWriter.create = (w, Ok tt)
        /\ BufferWriter.getSize w = 0
        /\ BufferWriter.render w
           = (w, Throw (EncodingError 1 "Out of bounds write"))).
Proof.
  split; [reflexivity|]. split; eexists; split; try reflexivity.
  split; reflexivity.
Qed.

End EmptyPayload.

(** ** Varint scheme B *)

Lemma forall_bytes (P : Z -> bool) :
  forallb P (Z.of_nat <$> seq 0 256) = true ->
  forall x, 0 <= x < 256 -> P x = true.
Proof.
  intros Hall x Hx. rewrite forallb_forall in Hall. apply Hall.
  apply in_map_iff. exists (Z.to_nat x). split; [lia|].
  apply in_seq. lia.
Qed.

Lemma band_flag (x : Z) :
  0 <= x < 256 -> JS.band x 0x80 = if x <? 128 then 0 else 128.
Proof.
  intros Hx. apply Z.eqb_eq.
  apply (forall_bytes
           (fun x => JS.band x 0x80 =? (if x <? 128 then 0 else 128)));
    [vm_compute; reflexivity | exact Hx].
Qed.

Lemma bor_flag (x : Z) : 0 <= x < 128 -> JS.bor x 0x80 = x + 128.
Proof.
  intros Hx. apply Z.eqb_eq.
  pose proof (forall_bytes
                (fun x => (128 <=? x) || (JS.bor x 0x80 =? x + 128))
                ltac:(vm_compute; reflexivity) x ltac:(lia)) as Hb.
  cbv beta in Hb. destruct (Z.leb_spec 128 x); [lia|exact Hb].
Qed.

Lemma band_7f (x : Z) : JS.band x 0x7f = x mod 128.
Proof. change 0x7f with (2 ^ 7 - 1). now rewrite band_low by lia. Qed.

Lemma varint2_next_nonneg (num : Z) :
  0 <= num -> encoding.varint2_next num = num / 128 - 1.
Proof.
  intros Hn. unfold encoding.varint2_next.
  rewrite Z.rem_mod_nonneg, Z.quot_div_nonneg by (Z.div_mod_to_equations; lia).
  Z.div_mod_to_equations. lia.
Qed.

Lemma writeVarint2_loop_eq (num : Z) (len : nat) (tmp : list Z) :
  encoding.writeVarint2_loop num len tmp
  = let d := JS.bor (JS.band num 0x7f) (if (len =? 0)%nat then 0x00 else 0x80) in
    if Z_le_dec num 0x7f then (tmp ++ [d], len)
    else encoding.writeVarint2_loop (encoding.varint2_next num) (len + 1)%nat
           (tmp ++ [d]).
Proof.
  rewrite encoding.writeVarint2_loop_equation_1.
  destruct (Z_le_dec num 127); reflexivity.
Qed.

Lemma sizeVarint2_loop_eq (num size : Z) :
  encoding.sizeVarint2_loop num size
  = if Z_le_dec num 0x7f then size + 1
    else encoding.sizeVarint2_loop (encoding.varint2_next num) (size + 1).
Proof.
  rewrite encoding.sizeVarint2_loop_equation_1.
  destruct (Z_le_dec num 127); reflexivity.
Qed.

(** One round of the loop of [readVarint2] on a byte with the
    continuation flag. *)
Lemma readVarint2_flagged (d : Z) (ys : list byte) (off num size : Z) :
  0 <= d < 128 -> 0 <= num -> num + d <= 0x3fffffffffff ->
  encoding.readVarint2_loop (byte_of_Z (d + 128) :: ys) off num size
  = encoding.readVarint2_loop ys (off + 1) (num * 128 + d + 1) (size + 1).
Proof.
  intros Hd Hn Hg. cbn [encoding.readVarint2_loop].
  rewrite Z_of_byte_of_Z, (Z.mod_small (d + 128)) by lia.
  rewrite band_7f, band_flag by lia.
  replace ((d + 128) mod 128) with d by (Z.div_mod_to_equations; lia).
  unfold encoding.enforce.
  destruct (Z.leb_spec num (0x3fffffffffff - d)); [|lia]. cbn [bind].
  destruct (Z.ltb_spec (d + 128) 128); [lia|]. cbn [Z.eqb].
  unfold JS.MAX_SAFE_INTEGER.
  destruct (Z.eqb_spec (num * 128 + d) 9007199254740991); [lia|].
  reflexivity.
Qed.

(** The digits that the first loop of [writeVarint2] adds after the
    first one, and what the loop of [readVarint2] makes of them, most
    significant first: it arrives at [num + 1]. *)
Lemma continuation_digits (num : Z) :
  0 <= num <= 2 ^ 46 ->
  forall (len : nat) (tmp : list Z), len <> 0%nat ->
  exists (E : list Z) (k : nat),
    encoding.writeVarint2_loop num len tmp = (tmp ++ E, (len + k)%nat)
    /\ length E = S k
    /\ (forall sz, encoding.sizeVarint2_loop num sz = sz + Z.of_nat (S k))
    /\ (forall ys off size,
          encoding.readVarint2_loop (bytes_of (rev E) ++ ys) off 0 size
          = encoding.readVarint2_loop ys (off + Z.of_nat (S k)) (num + 1)
              (size + Z.of_nat (S k))).
Proof.
  intros [H0 Hmax]. revert Hmax. pattern num.
  apply Zlt_0_ind; [|exact H0].
  clear num H0. intros num IH H0 Hmax len tmp Hlen.
  change (2 ^ 46) with 70368744177664 in *.
  rewrite writeVarint2_loop_eq. cbv zeta.
  destruct (Nat.eqb_spec len 0); [contradiction|].
  rewrite band_7f, bor_flag by (Z.div_mod_to_equations; lia).
  destruct (Z_le_dec num 127) as [Hs|Hs].
  - exists [num mod 128 + 128], 0%nat. rewrite Nat.add_0_r.
    repeat match goal with |- _ /\ _ => split end; try reflexivity.
    + intros sz. rewrite sizeVarint2_loop_eq.
      destruct (Z_le_dec num 127); [reflexivity|contradiction].
    + intros ys off size. cbn [rev app bytes_of fmap list_fmap].
      rewrite readVarint2_flagged by (Z.div_mod_to_equations; lia).
      rewrite Z.mod_small by lia. f_equal; lia.
  - rewrite varint2_next_nonneg by lia.
    destruct (IH (num / 128 - 1)) with (len := (len + 1)%nat)
      (tmp := tmp ++ [num mod 128 + 128]) as (E & k & Hloop & HlenE & Hsize & Hread);
      try (Z.div_mod_to_equations; lia); try lia.
    exists ((num mod 128 + 128) :: E), (S k).
    repeat match goal with |- _ /\ _ => split end.
    + rewrite Hloop, <- app_assoc. f_equal. lia.
    + cbn. now rewrite HlenE.
    + intros sz. rewrite sizeVarint2_loop_eq.
      destruct (Z_le_dec num 127); [contradiction|].
      rewrite varint2_next_nonneg by lia. rewrite Hsize. lia.
    + intros ys off size. cbn [rev]. unfold bytes_of.
      rewrite fmap_app, <- app_assoc. fold (bytes_of (rev E)).
      rewrite Hread. cbn [fmap list_fmap app].
      rewrite readVarint2_flagged by (Z.div_mod_to_equations; lia).
      f_equal; try lia. Z.div_mod_to_equations. lia.
Qed.

(** The second loop of [writeVarint2] stores the entries of [tmp] from
    the last one down. *)
Lemma writeVarint2_emit_stores (len : nat) (tmp : list Z) (dst : Buffer) (off : Z) :
  (S len <= length tmp)%nat ->
  encoding.writeVarint2_emit tmp len dst off
  = (Buf.store dst off (rev (take (S len) tmp)), off + Z.of_nat (S len)).
Proof.
  revert dst off. induction len as [|len IH]; intros dst off Hlen.
  - destruct tmp as [|x tmp]; [cbn in Hlen; lia|]. reflexivity.
  - cbn [encoding.writeVarint2_emit]. rewrite IH by lia.
    destruct (lookup_lt_is_Some_2 tmp (S len)) as [x Hx]; [lia|].
    rewrite (take_S_r tmp (S len) x Hx), rev_app_distr.
    cbn [rev app Buf.store]. rewrite nth_lookup, Hx. cbn [default from_option].
    f_equal. lia.
Qed.

Lemma readVarint2_last (d : Z) (ys : list byte) (off num size : Z) :
  0 <= d < 128 ->
  encoding.readVarint2_loop (byte_of_Z d :: ys) off num size
  = if num <=? 0x3fffffffffff - d
    then Ok (encoding.mkVarint (size + 1) (num * 128 + d))
    else Throw (EncodingError (off + 1) "Number exceeds 2^53-1").
Proof.
  intros Hd. cbn [encoding.readVarint2_loop].
  rewrite Z_of_byte_of_Z, (Z.mod_small d) by lia.
  rewrite band_7f, band_flag by lia. rewrite (Z.mod_small d) by lia.
  unfold encoding.enforce.
  destruct (num <=? 0x3fffffffffff - d); [|reflexivity]. cbn [bind].
  destruct (Z.ltb_spec d 128); [reflexivity|lia].
Qed.

(** Varint scheme B, written and read back. For a safe integer [v],
    [writeVarint2] writes [sizeVarint2 v] bytes; [readVarint2] returns
    [v] from them when [v / 128 + v mod 128 <= 0x3fffffffffff], and
    throws on its last byte otherwise. *)
Lemma readVarint2_writeVarint2 (dst : Buffer) (v off : Z) :
  0 <= v <= JS.MAX_SAFE_INTEGER -> 0 <= off ->
  off + encoding.sizeVarint2 v <= Buf.len dst ->
  exists out,
    encoding.writeVarint2 dst v off = (out, Ok (off + encoding.sizeVarint2 v))
    /\ Buf.len out = Buf.len dst
    /\ encoding.readVarint2 out off
       = if v / 128 + v mod 128 <=? 0x3fffffffffff
         then Ok (encoding.mkVarint (encoding.sizeVarint2 v) v)
         else Throw (EncodingError (off + encoding.sizeVarint2 v)
                       "Number exceeds 2^53-1").
Proof.
  unfold JS.MAX_SAFE_INTEGER. intros Hv H0 Hroom.
  unfold encoding.writeVarint2, encoding.readVarint2, encoding.sizeVarint2 in *.
  destruct (Z.ltb_spec off 0); [lia|].
  rewrite writeVarint2_loop_eq. rewrite sizeVarint2_loop_eq in *.
  cbv zeta. cbn [Nat.eqb app]. rewrite band_7f, bor_0.
  rewrite toInt32_small by (change (2 ^ 31) with 2147483648;
                            Z.div_mod_to_equations; lia).
  assert (Htk : length (take (Z.to_nat off) dst) = Z.to_nat off).
  { rewrite length_take. unfold Buf.len in Hroom.
    destruct (Z_le_dec v 127); [lia|].
    destruct (continuation_digits (encoding.varint2_next v)) with
      (len := 1%nat) (tmp := @nil Z) as (E & k & _ & _ & Hsz & _);
      try lia.
    { rewrite varint2_next_nonneg by lia.
      change (2 ^ 46) with 70368744177664. Z.div_mod_to_equations. lia. }
    rewrite Hsz in Hroom. lia. }
  destruct (Z_le_dec v 127) as [Hs|Hs].
  - unfold encoding.check, encoding.guarded, encoding.returned.
    destruct (Z.leb_spec (off + Z.of_nat 0 + 1) (Buf.len dst)); [|lia].
    cbn [encoding.writeVarint2_emit nth fst snd].
    eexists. split; [reflexivity|]. split; [apply len_set|].
    change (Buf.set dst off (v mod 128)) with (Buf.store dst off [v mod 128]).
    rewrite store_at by (simpl; lia). cbn [bytes_of fmap list_fmap].
    rewrite drop_app_ge by lia. rewrite Htk, Nat.sub_diag, drop_0.
    cbn [app]. rewrite readVarint2_last by (Z.div_mod_to_equations; lia).
    rewrite (Z.mod_small v) by lia. rewrite Z.div_small by lia.
    destruct (Z.leb_spec 0 (70368744177663 - v)); [|lia].
    destruct (Z.leb_spec (0 + v) 70368744177663); [|lia].
    do 2 f_equal; lia.
  - destruct (continuation_digits (encoding.varint2_next v)) with
      (len := 1%nat) (tmp := [v mod 128]) as (E & k & Hloop & HlenE & Hsz & Hread);
      try lia.
    { rewrite varint2_next_nonneg by lia.
      change (2 ^ 46) with 70368744177664. Z.div_mod_to_equations. lia. }
    change (0 + 1)%nat with 1%nat. rewrite Hloop. rewrite Hsz in *.
    unfold encoding.check, encoding.guarded, encoding.returned.
    destruct (Z.leb_spec (off + Z.of_nat (1 + k) + 1) (Buf.len dst)); [|lia].
    rewrite writeVarint2_emit_stores by (cbn [app length]; lia).
    cbn [fst snd].
    eexists. split; [f_equal; f_equal; lia|]. split; [apply len_store|].
    rewrite take_ge by (cbn [app length]; lia).
    rewrite rev_app_distr. cbn [rev app].
    rewrite store_at by (rewrite ?length_app, ?length_rev; simpl; lia).
    rewrite drop_app_ge by lia. rewrite Htk, Nat.sub_diag, drop_0.
    unfold bytes_of. rewrite fmap_app, <- app_assoc. fold (bytes_of (rev E)).
    rewrite Hread. cbn [fmap list_fmap app].
    rewrite readVarint2_last by (Z.div_mod_to_equations; lia).
    rewrite varint2_next_nonneg by lia.
    replace (v / 128 - 1 + 1) with (v / 128) by lia.
    replace (v / 128 * 128 + v mod 128) with v by (Z.div_mod_to_equations; lia).
    destruct (Z.leb_spec (v / 128) (70368744177663 - v mod 128));
      destruct (Z.leb_spec (v / 128 + v mod 128) 70368744177663);
      try (exfalso; lia); do 2 f_equal; lia.
Qed.

(** Below 2^53 - 16129 every number comes back; 2^53 - 16129 is the
    first that does not. *)
Lemma readVarint2_writeVarint2_below (dst : Buffer) (v off : Z) :
  0 <= v < 9007199254724863 -> 0 <= off ->
  off + encoding.sizeVarint2 v <= Buf.len dst ->
  exists out,
    encoding.writeVarint2 dst v off = (out, Ok (off + encoding.sizeVarint2 v))
    /\ encoding.readVarint2 out off
       = Ok (encoding.mkVarint (encoding.sizeVarint2 v) v).
Proof.
  intros Hv H0 Hroom.
  destruct (readVarint2_writeVarint2 dst v off) as (out & Hw & _ & Hr);
    try assumption; [unfold JS.MAX_SAFE_INTEGER; lia|].
  exists out. split; [exact Hw|]. rewrite Hr.
  destruct (Z.leb_spec (v / 128 + v mod 128) 70368744177663); [reflexivity|].
  exfalso. Z.div_mod_to_equations. lia.
Qed.

Example varint2_first_refused :
  encoding.readVarint2
    (fst (encoding.writeVarint2 (zeros 8) 9007199254724863 0)) 0
  = Throw (EncodingError 8 "Number exceeds 2^53-1").
Proof. vm_compute. reflexivity. Qed.

Example varint2_300 :
  encoding.readVarint2 (fst (encoding.writeVarint2 (zeros 2) 300 0)) 0
  = Ok (encoding.mkVarint 2 300).
Proof. vm_compute. reflexivity. Qed.

Example varint2N_big :
  encoding.writeVarint2N (zeros 10) N64.UINT64_MAX 0
  = (bytes_of [0x80; 0xfe; 0xfe; 0xfe; 0xfe; 0xfe; 0xfe; 0xfe; 0xfe; 0x7f], Ok 10).
Proof. vm_compute. reflexivity. Qed.

(** *** C2 *)

(** C2, at the input where it fails. The largest safe integer, 2^53-1,
    is written by [writeVarint2] in the eight bytes that [sizeVarint2]
    counts, and [readVarint2] refuses them with "Number exceeds 2^53-1":
    the guard on the last byte is [num <= 0x3fffffffffff - (ch & 0x7f)],
    which also rules out values the accumulator could hold; 300 is
    written in two bytes and read back. *)
Theorem varint2_max_safe_integer :
  encoding.sizeVarint2 JS.MAX_SAFE_INTEGER = 8
  /\ encoding.writeVarint2 (zeros 8) JS.MAX_SAFE_INTEGER 0
     = (bytes_of [0x8e; 0xfe; 0xfe; 0xfe; 0xfe; 0xfe; 0xfe; 0x7f], Ok 8)
  /\ encoding.readVarint2
       (bytes_of [0x8e; 0xfe; 0xfe; 0xfe; 0xfe; 0xfe; 0xfe; 0x7f]) 0
     = Throw (EncodingError 8 "Number exceeds 2^53-1")
  /\ encoding.writeVarint2 (zeros 2) 300 0 = (bytes_of [0x81; 0x2c], Ok 2)
  /\ encoding.readVarint2 (bytes_of [0x81; 0x2c]) 0
     = Ok (encoding.mkVarint 2 300).
Proof.
  repeat match goal with |- _ /\ _ => split end; vm_compute; reflexivity.
Qed.

(** ** The capacity of a Static Writer *)

Lemma len_blit (d bs : list byte) (i : nat) : Buf.len (Buf.blit d i bs) = Buf.len d.
Proof.
  unfold Buf.len, Buf.blit. f_equal.
  rewrite length_take, !length_app, length_take, length_drop. lia.
Qed.

Lemma len_host_write_int (be : bool) (width : nat) (lo hi : Z)
    (d : Buffer) (value off : Z) :
  Buf.len (fst (host_write d (Buf.write_int be width lo hi d value off)))
  = Buf.len d.
Proof.
  destruct (Buf.write_int be width lo hi d value off) as [[d' o]|] eqn:E;
    [|reflexivity].
  apply write_int_inv in E as (-> & _). cbn [host_write fst]. apply len_store.
Qed.

Lemma len_wbind {A B : Type} (m : written A) (k : Buffer -> A -> written B)
    (n : Z) :
  Buf.len (fst m) = n ->
  (forall d a, Buf.len d = n -> Buf.len (fst (k d a)) = n) ->
  Buf.len (fst (wbind m k)) = n.
Proof.
  intros Hm Hk. destruct m as [d [a| |]]; cbn [wbind fst] in *; auto.
Qed.

Lemma len_write64 (dst : Buffer) (num off : Z) (be : bool) :
  Buf.len (fst (encoding.write64 dst num off be)) = Buf.len dst.
Proof.
  unfold encoding.write64.
  destruct (num <? 0); [destruct (_ =? 0)|]; destruct be;
    apply len_wbind;
    try apply len_host_write_int;
    intros d a Hd; unfold Buf.writeInt32BE, Buf.writeInt32LE;
    rewrite len_host_write_int; exact Hd.
Qed.

Lemma len_guarded (dst : Buffer) (g : outcome unit) (k : written Z) :
  Buf.len (fst k) = Buf.len dst ->
  Buf.len (fst (encoding.guarded dst g k)) = Buf.len dst.
Proof. intros Hk. destruct g; cbn; auto. Qed.

Lemma len_writeVarint (dst : Buffer) (num off : Z) :
  Buf.len (fst (encoding.writeVarint dst num off)) = Buf.len dst.
Proof.
  unfold encoding.writeVarint.
  destruct (_ <? _); [apply len_store|].
  destruct (_ <=? _); [apply len_store|].
  destruct (_ <=? _); [apply len_store|].
  unfold encoding.writeU64. rewrite len_write64. apply len_set.
Qed.

Lemma len_emit (tmp : list Z) (len : nat) (dst : Buffer) (off : Z) :
  Buf.len (fst (encoding.writeVarint2_emit tmp len dst off)) = Buf.len dst.
Proof.
  revert dst off. induction len as [|len IH]; intros dst off; cbn.
  - apply len_set.
  - rewrite IH. apply len_set.
Qed.

Lemma len_writeVarint2 (dst : Buffer) (num off : Z) :
  Buf.len (fst (encoding.writeVarint2 dst num off)) = Buf.len dst.
Proof.
  unfold encoding.writeVarint2.
  destruct (encoding.writeVarint2_loop num 0 []) as [tmp len].
  apply len_guarded. apply len_emit.
Qed.

Lemma len_writeN (dst : Buffer) (num : N64.t) (off : Z) :
  Buf.len (fst (encoding.writeU64N dst num off)) = Buf.len dst
  /\ Buf.len (fst (encoding.writeU64BEN dst num off)) = Buf.len dst
  /\ Buf.len (fst (encoding.writeI64N dst num off)) = Buf.len dst
  /\ Buf.len (fst (encoding.writeI64BEN dst num off)) = Buf.len dst.
Proof.
  unfold encoding.writeU64N, encoding.writeU64BEN, encoding.writeI64N,
    encoding.writeI64BEN.
  repeat match goal with |- _ /\ _ => split end;
    apply len_guarded; apply len_store.
Qed.

Lemma len_writeVarintN (dst : Buffer) (num : N64.t) (off : Z) :
  Buf.len (fst (encoding.writeVarintN dst num off)) = Buf.len dst.
Proof.
  unfold encoding.writeVarintN. apply len_guarded.
  destruct (negb _).
  - destruct (len_writeN (Buf.set dst off 255) num (off + 1)) as (-> & _).
    apply len_set.
  - apply len_writeVarint.
Qed.

Lemma len_writeVarint2N (dst : Buffer) (num : N64.t) (off : Z) :
  Buf.len (fst (encoding.writeVarint2N dst num off)) = Buf.len dst.
Proof.
  unfold encoding.writeVarint2N. apply len_guarded.
  destruct (_ =? _); [apply len_writeVarint2|].
  destruct (encoding.writeVarint2N_loop _ 0 []) as [tmp len].
  apply len_guarded. apply len_emit.
Qed.

Lemma len_copy (src target : Buffer) (ts ss se : Z) (d : Buffer) (n : Z) :
  Buf.copy src target ts ss se = Some (d, n) -> Buf.len d = Buf.len target.
Proof.
  unfold Buf.copy. destruct (_ && _); [|discriminate].
  destruct (_ <=? 0); intros [= <- <-]; [reflexivity | apply len_blit].
Qed.

Lemma len_fill (data : Buffer) (value s e : Z) (d : Buffer) :
  Buf.fill data value s e = Some d -> Buf.len d = Buf.len data.
Proof.
  unfold Buf.fill. destruct (_ && _); [|discriminate].
  intros [= <-]. apply len_blit.
Qed.

Section Capacity.
Context `{Host}.

Lemma len_write (data : Buffer) (value : string) (off : Z) (enc : option string)
    (d : Buffer) (n : Z) :
  write data value off enc = Some (d, n) -> Buf.len d = Buf.len data.
Proof.
  unfold write. destruct (Buf.fits _ _ _); [|discriminate].
  intros [= <- <-]. apply len_blit.
Qed.

Lemma len_assign (this : StaticWriter.t) (r : written Z) :
  Buf.len (fst r) = Buf.len (StaticWriter.data this) ->
  Buf.len (StaticWriter.data (fst (StaticWriter.assign this r)))
  = Buf.len (StaticWriter.data this).
Proof. destruct r as [d [o| |]]; cbn; auto. Qed.

Lemma len_andthen (m : StaticWriter.t * outcome unit)
    (k : StaticWriter.t -> StaticWriter.t * outcome unit) (n : Z) :
  Buf.len (StaticWriter.data (fst m)) = n ->
  (forall w, Buf.len (StaticWriter.data w) = n ->
             Buf.len (StaticWriter.data (fst (k w))) = n) ->
  Buf.len (StaticWriter.data (fst (StaticWriter.andthen m k))) = n.
Proof. intros Hm Hk. destruct m as [w [a| |]]; cbn in *; auto. Qed.

Lemma len_static_writeBytes (value : Buffer) (w : StaticWriter.t) :
  Buf.len (StaticWriter.data (fst (StaticWriter.writeBytes value w)))
  = Buf.len (StaticWriter.data w).
Proof.
  unfold StaticWriter.writeBytes. destruct (_ =? 0); [reflexivity|].
  destruct (Buf.copy _ _ _ _ _) as [[d n]|] eqn:E; [|reflexivity].
  cbn. eapply len_copy; eassumption.
Qed.

Lemma len_static_writeString (value : string) (enc : option string)
    (w : StaticWriter.t) :
  Buf.len (StaticWriter.data (fst (StaticWriter.writeString value enc w)))
  = Buf.len (StaticWriter.data w).
Proof.
  unfold StaticWriter.writeString. destruct (_ =? _)%nat; [reflexivity|].
  destruct (write _ _ _ _) as [[d n]|] eqn:E; [|reflexivity].
  cbn. eapply len_write; eassumption.
Qed.

(** No call changes the capacity of a Static Writer. *)
Lemma static_invoke_capacity (c : call) (w : StaticWriter.t) :
  Buf.len (StaticWriter.data (fst (invoke c w)))
  = Buf.len (StaticWriter.data w).
Proof.
  destruct c; cbn [invoke StaticWriter_IWriter done fst];
    unfold StaticWriter.seek, StaticWriter.writeU8, StaticWriter.writeU16,
      StaticWriter.writeU16BE, StaticWriter.writeU32, StaticWriter.writeU32BE,
      StaticWriter.writeI8, StaticWriter.writeI16, StaticWriter.writeI16BE,
      StaticWriter.writeI32, StaticWriter.writeI32BE, StaticWriter.via,
      StaticWriter.writeU64, StaticWriter.writeU64BE, StaticWriter.writeI64,
      StaticWriter.writeI64BE, StaticWriter.writeU64N, StaticWriter.writeU64BEN,
      StaticWriter.writeI64N, StaticWriter.writeI64BEN,
      StaticWriter.writeVarint, StaticWriter.writeVarintN,
      StaticWriter.writeVarint2, StaticWriter.writeVarint2N,
      encoding.writeU64, encoding.writeU64BE, encoding.writeI64,
      encoding.writeI64BE;
    try reflexivity;
    try (apply len_assign;
         first [ apply len_host_write_int | apply len_write64
               | apply len_writeVarint | apply len_writeVarintN
               | apply len_writeVarint2 | apply len_writeVarint2N
               | apply len_writeN ]).
  - apply len_static_writeBytes.
  - unfold StaticWriter.writeVarBytes. apply len_andthen.
    + apply len_assign, len_writeVarint.
    + intros w' Hw'. now rewrite len_static_writeBytes.
  - apply len_static_writeString.
  - unfold StaticWriter.writeVarString. destruct (_ =? _)%nat.
    + apply len_assign, len_writeVarint.
    + apply len_andthen; [apply len_assign, len_writeVarint|].
      intros w' Hw'.
      destruct (write _ _ _ _) as [[d n]|] eqn:E; [|exact Hw'].
      cbn. rewrite <- Hw'. eapply len_write; eassumption.
  - unfold StaticWriter.writeNullString. apply len_andthen.
    + apply len_static_writeString.
    + intros w' Hw'. unfold StaticWriter.writeU8, StaticWriter.via.
      rewrite len_assign; [exact Hw' | apply len_host_write_int].
  - unfold StaticWriter.writeChecksum.
    destruct (Buf.copy _ _ _ _ _) as [[d n]|] eqn:E; [|reflexivity].
    cbn. eapply len_copy; eassumption.
  - unfold StaticWriter.fill.
    destruct (negb _); [reflexivity|]. destruct (_ =? 0); [reflexivity|].
    destruct (Buf.fill _ _ _ _) as [d|] eqn:E; [|reflexivity].
    cbn. eapply len_fill; eassumption.
Qed.

Lemma static_run_capacity (calls : list call) (w : StaticWriter.t) :
  Buf.len (StaticWriter.data (fst (run calls w)))
  = Buf.len (StaticWriter.data w).
Proof.
  revert w. induction calls as [|c calls IH]; intros w; [reflexivity|].
  cbn [run]. pose proof (static_invoke_capacity c w) as Hc.
  destruct (invoke c w) as [w' [u| |]]; cbn [fst] in *;
    [rewrite IH|..]; exact Hc.
Qed.

End Capacity.

(** ** Where the size accounting agrees

    Away from the empty [writeVarString], the Size Writer and the Buffer
    Writer count alike, and what [render] returns has the length that
    was counted. *)

Section Accounting.
Context `{Host}.

Lemma accounting_step (c : call) (bw bw' : BufferWriter.t) (sw : SizeWriter.t) :
  var_strings_not_empty [c] ->
  invoke c bw = (bw', Ok tt) ->
  SizeWriter.offset sw = BufferWriter.offset bw ->
  exists sw', invoke c sw = (sw', Ok tt)
              /\ SizeWriter.offset sw' = BufferWriter.offset bw'.
Proof.
  intros Hne Hbw Hoff. apply Forall_cons in Hne as [Hne _].
  destruct c; cbn [invoke BufferWriter_IWriter SizeWriter_IWriter done] in *;
    try (injection Hbw as <-; eexists; split; [reflexivity|]; cbn; lia).
  - unfold BufferWriter.writeVarintN, SizeWriter.writeVarintN in *.
    destruct (encoding.sizeVarintN value); try discriminate.
    injection Hbw as <-. eexists. split; [reflexivity|]. cbn. lia.
  - unfold BufferWriter.writeVarint2N, SizeWriter.writeVarint2N in *.
    destruct (encoding.sizeVarint2N value); try discriminate.
    injection Hbw as <-. eexists. split; [reflexivity|]. cbn. lia.
  - injection Hbw as <-. eexists. split; [reflexivity|].
    unfold BufferWriter.writeBytes, SizeWriter.writeBytes.
    destruct (Z.eqb_spec (Buf.len value) 0); cbn; lia.
  - injection Hbw as <-. eexists. split; [reflexivity|].
    unfold BufferWriter.writeVarBytes, SizeWriter.writeVarBytes,
      SizeWriter.writeBytes, SizeWriter.writeVarint.
    destruct (Z.eqb_spec (Buf.len value) 0); cbn; lia.
  - injection Hbw as <-. eexists. split; [reflexivity|].
    unfold BufferWriter.writeString, SizeWriter.writeString.
    destruct (_ =? _)%nat; cbn; lia.
  - injection Hbw as <-. eexists. split; [reflexivity|].
    unfold BufferWriter.writeVarString, SizeWriter.writeVarString,
      SizeWriter.writeVarint.
    destruct (Nat.eqb_spec (String.length value) 0); [contradiction|].
    cbn. lia.
  - injection Hbw as <-. eexists. split; [reflexivity|].
    unfold BufferWriter.writeNullString, SizeWriter.writeNullString,
      BufferWriter.writeString, SizeWriter.writeString.
    destruct (_ =? _)%nat; cbn; lia.
  - unfold BufferWriter.fill in Hbw. unfold SizeWriter.fill.
    destruct (negb _); [discriminate|].
    destruct (Z.eqb_spec size 0); injection Hbw as <-;
      eexists; (split; [reflexivity|]); cbn; lia.
Qed.

Lemma accounting_run (calls : list call) (bw bw' : BufferWriter.t)
    (sw : SizeWriter.t) :
  var_strings_not_empty calls ->
  run calls bw = (bw', Ok tt) ->
  SizeWriter.offset sw = BufferWriter.offset bw ->
  exists sw', run calls sw = (sw', Ok tt)
              /\ SizeWriter.offset sw' = BufferWriter.offset bw'.
Proof.
  revert bw sw. induction calls as [|c calls IH]; intros bw sw Hne Hrun Hoff.
  - injection Hrun as <-. exists sw. split; [reflexivity|exact Hoff].
  - apply Forall_cons in Hne as [Hc Hne]. cbn [run] in *.
    destruct (invoke c bw) as [bw1 [[]| |]] eqn:Hbw; try discriminate.
    destruct (accounting_step c bw bw1 sw) as (sw1 & Hsw & Hoff1); auto.
    { now apply Forall_cons. }
    rewrite Hsw. eapply IH; eauto.
Qed.

Lemma len_replay_op (op : BufferWriter.WriteOp) (data : Buffer) (off : Z) :
  Buf.len (fst (BufferWriter.replay_op op data off)) = Buf.len data.
Proof.
  destruct op as [t [v|v] | t d | t v enc | t f | t v sz]; destruct t;
    cbn [BufferWriter.replay_op fst]; try reflexivity;
    unfold encoding.writeU64, encoding.writeU64BE, encoding.writeI64,
      encoding.writeI64BE;
    try first [ apply len_host_write_int | apply len_write64
              | apply len_writeVarint | apply len_writeVarintN
              | apply len_writeVarint2 | apply len_writeVarint2N
              | apply len_writeN ].
  - destruct (Buf.copy _ _ _ _ _) as [[d' n]|] eqn:E; [|reflexivity].
    cbn. eapply len_copy; eassumption.
  - destruct (write _ _ _ _) as [[d' n]|] eqn:E; [|reflexivity].
    cbn. eapply len_write; eassumption.
  - destruct (Buf.copy _ _ _ _ _) as [[d' n]|] eqn:E; [|reflexivity].
    cbn. eapply len_copy; eassumption.
  - destruct (Buf.fill _ _ _ _) as [d'|] eqn:E; [|reflexivity].
    cbn. eapply len_fill; eassumption.
Qed.

Lemma len_replay (ops : list BufferWriter.WriteOp) (data : Buffer) (off : Z) :
  Buf.len (fst (BufferWriter.replay ops data off)) = Buf.len data.
Proof.
  revert data off. induction ops as [|op ops IH]; intros data off;
    [reflexivity|].
  cbn [BufferWriter.replay]. apply len_wbind; [apply len_replay_op|].
  intros d a Hd. now rewrite IH.
Qed.

(** What [render] returns is as long as the Buffer Writer counted. *)
Lemma render_length (bw bw' : BufferWriter.t) (data : Buffer) :
  BufferWriter.render bw = (bw', Ok data) ->
  Buf.len data = BufferWriter.offset bw.
Proof.
  unfold BufferWriter.render, allocUnsafe.
  destruct (Z.ltb_spec (BufferWriter.offset bw) 0); [discriminate|].
  pose proof (len_replay (BufferWriter.ops bw)
                (uninit <$> seq 0 (Z.to_nat (BufferWriter.offset bw))) 0) as Hl.
  destruct (BufferWriter.replay _ _ _) as [d [off| |]]; try discriminate.
  destruct (negb _); [discriminate|]. intros [= _ <-].
  cbn [fst] in Hl. rewrite Hl. unfold Buf.len.
  rewrite length_fmap, length_seq. lia.
Qed.

(** The sizes agree on every sequence of calls that has no empty
    [writeVarString] and that the Buffer Writer renders. *)
Lemma size_equals_rendered_length (calls : list call)
    (bw bw' : BufferWriter.t) (data : Buffer) :
  var_strings_not_empty calls ->
  run calls BufferWriter.create = (bw, Ok tt) ->
  BufferWriter.render bw = (bw', Ok data) ->
  exists sw, run calls SizeWriter.create = (sw, Ok tt)
             /\ snd (SizeWriter.render sw) = Buf.len data.
Proof.
  intros Hne Hrun Hrender.
  destruct (accounting_run calls BufferWriter.create bw SizeWriter.create)
    as (sw & Hsw & Hoff); auto.
  exists sw. split; [exact Hsw|]. cbn [SizeWriter.render snd].
  rewrite Hoff. symmetry. eapply render_length; eassumption.
Qed.

End Accounting.


Section StaticOffset.
Context `{Host}.

(** *** C9 *)


End StaticOffset.



Example static_varint_past_the_end :
  run (H := StaticWriter_IWriter (H := latin1)) [writeVarint 0]
    (StaticWriter.mk [] 0)
  = (StaticWriter.mk [] 1, Ok tt).
Proof. reflexivity. Qed.

(** ** The pool *)

Section PoolProperties.
Context `{Host}.

Lemma allocUnsafe_len (size : Z) :
  0 <= size ->
  exists bytes, allocUnsafe size = Some bytes /\ Buf.len bytes = size.
Proof.
  intros Hs. unfold allocUnsafe. destruct (Z.ltb_spec size 0); [lia|].
  eexists. split; [reflexivity|].
  unfold Buf.len. rewrite length_fmap, length_seq. lia.
Qed.

Lemma POOLSIZE_value : StaticWriter.POOLSIZE = 102400.
Proof. reflexivity. Qed.

(** What [pool] hands out for a size the slab can hold: the first
    [size] bytes of the slab, whatever was handed out before. *)
Lemma pool_small (st : Pool.state) (size : Z) :
  Pool.pool_ok st -> 0 <= size <= StaticWriter.POOLSIZE ->
  exists st' slab bytes,
    Pool.pool size st
    = (st', Ok (Pool.mkWriter (Pool.mkView slab 0 size) 0))
    /\ Pool.POOL st' = Some (Pool.mkView slab 0 StaticWriter.POOLSIZE)
    /\ Pool.heap st' !! slab = Some bytes
    /\ Buf.len bytes = StaticWriter.POOLSIZE
    /\ (forall p, Pool.POOL st = Some p -> st' = st).
Proof.
  intros Hok Hsize. unfold Pool.pool.
  destruct (Z.leb_spec size StaticWriter.POOLSIZE); [|lia].
  assert (Hslice : forall slab,
    Pool.slice (Pool.mkView slab 0 StaticWriter.POOLSIZE) 0 size
    = Pool.mkView slab 0 size).
  { intros slab. unfold Pool.slice, Pool.clamp. cbn [Pool.span Pool.base
      Pool.byteOffset]. rewrite POOLSIZE_value in *.
    destruct (Z.ltb_spec size 0); [lia|]. cbn [Z.ltb Z.compare].
    rewrite (Z.min_l 0), (Z.min_l size), Z.max_r by lia.
    f_equal; lia. }
  unfold Pool.pool_ok in Hok.
  destruct (Pool.POOL st) as [p|] eqn:Hp.
  - destruct p as [slab bo sp]. cbn in Hok.
    destruct Hok as (-> & -> & bytes & Hb & Hl).
    exists st, slab, bytes. rewrite Hslice.
    repeat match goal with |- _ /\ _ => split end; auto.
  - destruct (allocUnsafe_len StaticWriter.POOLSIZE) as (bytes & Ha & Hl);
      [rewrite POOLSIZE_value; lia|].
    unfold Pool.alloc. rewrite Ha. rewrite Hslice.
    eexists _, (length (Pool.heap st)), bytes.
    repeat match goal with |- _ /\ _ => split end;
      try reflexivity; try assumption.
    + cbn [Pool.heap]. rewrite lookup_app_r by lia.
      now rewrite Nat.sub_diag.
    + intros p [=].
Qed.

Lemma pool_ok_initial : Pool.pool_ok Pool.initial.
Proof. exact I. Qed.

(** Two writers from the pool, one after the other. *)
Lemma pool_twice (st : Pool.state) (s1 s2 : Z) :
  Pool.pool_ok st ->
  0 <= s1 <= StaticWriter.POOLSIZE -> 0 <= s2 <= StaticWriter.POOLSIZE ->
  exists st1 slab bytes,
    Pool.pool s1 st = (st1, Ok (Pool.mkWriter (Pool.mkView slab 0 s1) 0))
    /\ Pool.pool s2 st1 = (st1, Ok (Pool.mkWriter (Pool.mkView slab 0 s2) 0))
    /\ Pool.heap st1 !! slab = Some bytes
    /\ Buf.len bytes = StaticWriter.POOLSIZE.
Proof.
  intros Hok H1 H2.
  destruct (pool_small st s1 Hok H1) as (st1 & slab & bytes & Hp1 & HP & Hb & Hl & _).
  assert (Hok1 : Pool.pool_ok st1).
  { unfold Pool.pool_ok. rewrite HP. cbn. eauto. }
  destruct (pool_small st1 s2 Hok1 H2)
    as (st2 & slab' & bytes' & Hp2 & HP2 & Hb2 & Hl2 & Hsame).
  specialize (Hsame _ HP). subst st2.
  rewrite HP in HP2. injection HP2 as <-.
  exists st1, slab, bytes. auto.
Qed.

(** *** C7 *)

(** C7, as the code has it. Every writer that [StaticWriter.pool] makes
    for a size the slab can hold (at most 100 KiB) looks at the slab
    from its first byte on: two such writers of sizes above zero share
    the bytes below the smaller size, so their ranges are not disjoint,
    and a byte stored through the buffer of one is read through the
    buffer of the other. A size above the capacity gets an allocation
    of its own, which shares no byte with the slab. *)
Theorem pool_writers_share_slab (st : Pool.state) (s1 s2 x : Z)
    (Hok : Pool.pool_ok st)
    (H1 : 0 < s1 <= StaticWriter.POOLSIZE)
    (H2 : 0 < s2 <= StaticWriter.POOLSIZE) :
  exists st1 slab,
    Pool.pool s1 st = (st1, Ok (Pool.mkWriter (Pool.mkView slab 0 s1) 0))
    /\ Pool.pool s2 st1 = (st1, Ok (Pool.mkWriter (Pool.mkView slab 0 s2) 0))
    /\ (forall i, 0 <= i < Z.min s1 s2 ->
          Pool.addresses (Pool.mkView slab 0 s1) slab i
          /\ Pool.addresses (Pool.mkView slab 0 s2) slab i)
    /\ ~ Pool.disjoint (Pool.mkView slab 0 s1) (Pool.mkView slab 0 s2)
    /\ Pool.view_get (Pool.view_set st1 (Pool.mkView slab 0 s1) 0 x)
         (Pool.mkView slab 0 s2) 0 = Some (x mod 256)
    /\ (forall s3, StaticWriter.POOLSIZE < s3 < 2 ^ 32 ->
        exists st3 own,
          Pool.pool s3 st1 = (st3, Ok (Pool.mkWriter (Pool.mkView own 0 s3) 0))
          /\ Pool.disjoint (Pool.mkView own 0 s3) (Pool.mkView slab 0 s1)).
Proof.
  destruct (pool_twice st s1 s2 Hok) as (st1 & slab & bytes & Hp1 & Hp2 & Hb & Hl);
    try lia.
  exists st1, slab.
  assert (Hshared : forall i, 0 <= i < Z.min s1 s2 ->
            Pool.addresses (Pool.mkView slab 0 s1) slab i
            /\ Pool.addresses (Pool.mkView slab 0 s2) slab i).
  { intros i Hi. unfold Pool.addresses. cbn. lia. }
  repeat match goal with |- _ /\ _ => split end; try assumption.
  - intros Hd. apply (Hd slab 0). apply Hshared. lia.
  - unfold Pool.view_get, Pool.view_set. cbn [Pool.span Pool.base Pool.byteOffset].
    destruct (Z.ltb_spec 0 s1); [|lia]. destruct (Z.ltb_spec 0 s2); [|lia].
    cbn [Z.leb Z.compare andb Pool.heap].
    rewrite list_lookup_alter_eq, Hb. cbn [fmap option_fmap option_map].
    rewrite POOLSIZE_value in Hl. unfold Buf.len in Hl.
    unfold Buf.set, Buf.get. change (0 + 0) with 0.
    change (0 <? 0) with false. change (Z.to_nat 0) with 0%nat. cbv iota.
    rewrite list_lookup_insert_eq by lia. cbn.
    now rewrite Z_of_byte_of_Z.
  - intros s3 Hs3. rewrite POOLSIZE_value in Hs3. unfold Pool.pool.
    rewrite POOLSIZE_value.
    destruct (Z.leb_spec s3 102400); [lia|].
    assert (Hu : JS.ushr s3 0 = s3).
    { unfold JS.ushr, JS.toUint32. change (0 mod 32) with 0.
      rewrite Z.shiftr_0_r. apply Z.mod_small. lia. }
    rewrite Hu, Z.eqb_refl. cbn [negb].
    destruct (allocUnsafe_len s3) as (fresh & Ha & _); [lia|].
    unfold Pool.alloc. rewrite Ha.
    eexists _, (length (Pool.heap st1)). split; [reflexivity|].
    intros b i [[Hb1 _] [Hb2 _]]. cbn in Hb1, Hb2.
    apply lookup_lt_Some in Hb. lia.
Qed.

End PoolProperties.

Lemma pool_writers_share_slab_witness :
  exists st1 slab,
    Pool.pool (H := latin1) 1 Pool.initial
    = (st1, Ok (Pool.mkWriter (Pool.mkView slab 0 1) 0))
    /\ Pool.pool (H := latin1) 2 st1
       = (st1, Ok (Pool.mkWriter (Pool.mkView slab 0 2) 0))
    /\ ~ Pool.disjoint (Pool.mkView slab 0 1) (Pool.mkView slab 0 2).
Proof.
  assert (H1 : 0 < 1 <= StaticWriter.POOLSIZE)
    by (rewrite POOLSIZE_value; lia).
  assert (H2 : 0 < 2 <= StaticWriter.POOLSIZE)
    by (rewrite POOLSIZE_value; lia).
  destruct (pool_writers_share_slab (H := latin1) Pool.initial 1 2 0
              pool_ok_initial H1 H2)
    as (st1 & slab & Hp1 & Hp2 & _ & Hnd & _ & _).
  exists st1, slab. exact (conj Hp1 (conj Hp2 Hnd)).
Defined.

(** The claim as the spec words it fails: two one-byte writers from a
    fresh pool both address byte 0 of the slab. *)
Lemma pool_slices_overlap :
  ~ (forall (s1 s2 : Z) (st1 st2 : Pool.state) (w1 w2 : Pool.writer),
       0 <= s1 -> 0 <= s2 -> s1 + s2 < StaticWriter.POOLSIZE ->
       Pool.pool (H := latin1) s1 Pool.initial = (st1, Ok w1) ->
       Pool.pool (H := latin1) s2 st1 = (st2, Ok w2) ->
       Pool.disjoint (Pool.data w1) (Pool.data w2)).
Proof.
  intros Hclaim.
  destruct (pool_twice (H := latin1) Pool.initial 1 1
              pool_ok_initial)
    as (st1 & slab & bytes & Hp1 & Hp2 & _);
    try (rewrite POOLSIZE_value; lia).
  specialize (Hclaim 1 1 st1 st1 _ _ ltac:(lia) ltac:(lia)
                ltac:(rewrite POOLSIZE_value; lia) Hp1 Hp2).
  apply (Hclaim slab 0). unfold Pool.addresses. cbn. lia.
Qed.
(** ** Further properties of the codecs *)

Lemma byte_of_Z_mod (z : Z) : byte_of_Z z = byte_of_Z (z mod 256).
Proof. unfold byte_of_Z. now rewrite Z.mod_mod by lia. Qed.

Lemma byte_of_Z_eq (z : Z) (b : byte) : z mod 256 = Z_of_byte b -> byte_of_Z z = b.
Proof. intros E. now rewrite byte_of_Z_mod, E, byte_of_Z_of_byte. Qed.

Lemma bytes_of_Z_of_byte (bs : list byte) : bytes_of (Z_of_byte <$> bs) = bs.
Proof.
  unfold bytes_of. induction bs as [|b bs IH]; [reflexivity|].
  cbn [fmap list_fmap]. cbn [fmap list_fmap] in IH.
  now rewrite byte_of_Z_of_byte, IH.
Qed.

Lemma fmap_rev {A B : Type} (f : A -> B) (l : list A) :
  f <$> rev l = rev (f <$> l).
Proof.
  induction l as [|x l IH]; [reflexivity|].
  cbn [rev fmap list_fmap]. rewrite fmap_app. cbn [fmap list_fmap] in *.
  now rewrite IH.
Qed.

Lemma get_some (data : Buffer) (off b : Z) :
  Buf.get data off = Some b -> 0 <= off < Buf.len data /\ 0 <= b < 256.
Proof.
  unfold Buf.get, Buf.len. destruct (Z.ltb_spec off 0); [discriminate|].
  destruct (data !! Z.to_nat off) as [x|] eqn:Hx; [|discriminate].
  intros [= <-]. apply lookup_lt_Some in Hx.
  pose proof (Z_of_byte_range x). lia.
Qed.

(** Storing the byte that is there changes nothing. *)
Lemma set_same (data : Buffer) (i v x : Z) :
  Buf.get data i = Some x -> v mod 256 = x -> Buf.set data i v = data.
Proof.
  unfold Buf.get, Buf.set. destruct (Z.ltb_spec i 0); [discriminate|].
  destruct (data !! Z.to_nat i) as [b|] eqn:Hb; [|discriminate].
  intros [= <-] Hv. apply list_insert_id. rewrite Hb. f_equal.
  symmetry. now apply byte_of_Z_eq.
Qed.

Lemma readUInt32LE_inv (data : Buffer) (o v : Z) :
  Buf.readUInt32LE data o = Some v ->
  exists b0 b1 b2 b3,
    Buf.get data o = Some b0 /\ Buf.get data (o + 1) = Some b1
    /\ Buf.get data (o + 2) = Some b2 /\ Buf.get data (o + 3) = Some b3
    /\ v = b0 + b1 * 0x100 + b2 * 0x10000 + b3 * 0x1000000.
Proof.
  unfold Buf.readUInt32LE.
  destruct (Buf.get data o) as [b0|]; [|discriminate].
  destruct (Buf.get data (o + 1)) as [b1|]; [|discriminate].
  destruct (Buf.get data (o + 2)) as [b2|]; [|discriminate].
  destruct (Buf.get data (o + 3)) as [b3|]; [|discriminate].
  intros [= <-]. now exists b0, b1, b2, b3.
Qed.

Lemma readUInt32BE_inv (data : Buffer) (o v : Z) :
  Buf.readUInt32BE data o = Some v ->
  exists b0 b1 b2 b3,
    Buf.get data o = Some b0 /\ Buf.get data (o + 1) = Some b1
    /\ Buf.get data (o + 2) = Some b2 /\ Buf.get data (o + 3) = Some b3
    /\ v = b0 * 0x1000000 + b1 * 0x10000 + b2 * 0x100 + b3.
Proof.
  unfold Buf.readUInt32BE.
  destruct (Buf.get data o) as [b0|]; [|discriminate].
  destruct (Buf.get data (o + 1)) as [b1|]; [|discriminate].
  destruct (Buf.get data (o + 2)) as [b2|]; [|discriminate].
  destruct (Buf.get data (o + 3)) as [b3|]; [|discriminate].
  intros [= <-]. now exists b0, b1, b2, b3.
Qed.

Lemma length_le_bytes (width : nat) (value : Z) :
  length (Buf.le_bytes width value) = width.
Proof. unfold Buf.le_bytes. now rewrite length_fmap, length_seq. Qed.

Lemma length_be_bytes (width : nat) (value : Z) :
  length (Buf.be_bytes width value) = width.
Proof. unfold Buf.be_bytes. now rewrite length_rev, length_le_bytes. Qed.

(** Storing the word that is there changes nothing. *)
Lemma store_word_same (data : Buffer) (o a : Z) :
  Buf.readUInt32LE data o = Some (JS.toUint32 a) ->
  Buf.store data o (Buf.le_bytes 4 a) = data.
Proof.
  intros (b0 & b1 & b2 & b3 & H0 & H1 & H2 & H3 & Hv)%readUInt32LE_inv.
  rewrite le_bytes_4. cbn [Buf.store]. unfold JS.ushr. rewrite Hv.
  change (0 mod 32) with 0. change (8 mod 32) with 8.
  change (16 mod 32) with 16. change (24 mod 32) with 24.
  rewrite !Z.shiftr_div_pow2 by lia.
  change (2 ^ 0) with 1. change (2 ^ 8) with 256.
  change (2 ^ 16) with 65536. change (2 ^ 24) with 16777216.
  pose proof (get_some _ _ _ H0). pose proof (get_some _ _ _ H1).
  pose proof (get_some _ _ _ H2). pose proof (get_some _ _ _ H3).
  rewrite (set_same data o _ b0) by (try assumption; Z.div_mod_to_equations; lia).
  rewrite (set_same data (o + 1) _ b1) by (try assumption; Z.div_mod_to_equations; lia).
  replace (o + 1 + 1) with (o + 2) by lia.
  rewrite (set_same data (o + 2) _ b2) by (try assumption; Z.div_mod_to_equations; lia).
  replace (o + 2 + 1) with (o + 3) by lia.
  rewrite (set_same data (o + 3) _ b3) by (try assumption; Z.div_mod_to_equations; lia).
  reflexivity.
Qed.

Lemma readU64_inv (data : Buffer) (off v : Z) :
  encoding.readU64 data off = Ok v ->
  exists lo hi,
    Buf.readUInt32LE data off = Some lo
    /\ Buf.readUInt32LE data (off + 4) = Some hi
    /\ hi < 2 ^ 21 /\ v = hi * 0x100000000 + lo.
Proof.
  unfold encoding.readU64.
  destruct (Buf.readUInt32LE data (off + 4)) as [hi|] eqn:Hhi; [|discriminate].
  destruct (Buf.readUInt32LE data off) as [lo|] eqn:Hlo; [|discriminate].
  cbn [of_host bind]. unfold encoding.enforce.
  rewrite band_high_mask by (eapply readUInt32LE_range; eassumption).
  destruct (Z.ltb_spec hi (2 ^ 21)); [|discriminate].
  cbn [bind]. intros [= <-]. now exists lo, hi.
Qed.

(** X1. What [readVarint] accepts is what [writeVarint] writes: when
    [readVarint] returns a number from the bytes at [off], these bytes
    lie inside the buffer, and writing the number back to the same place
    with [writeVarint] leaves every byte of the buffer as it was and
    returns the offset after them. *)
Theorem readVarint_reencodes (data : Buffer) (off : Z) (r : encoding.Varint Z)
    (Hread : encoding.readVarint data off = Ok r) :
  0 <= off /\ off + encoding.size r <= Buf.len data
  /\ encoding.writeVarint data (encoding.value r) off
     = (data, Ok (off + encoding.size r)).
Proof.
  revert Hread. unfold encoding.readVarint, encoding.check, encoding.enforce.
  destruct (Z.ltb_spec off (Buf.len data)) as [Hlt|]; [|discriminate].
  cbn [bind].
  destruct (Buf.get data off) as [b|] eqn:Hb; [|discriminate].
  cbn [bind of_host]. pose proof (get_some _ _ _ Hb) as [Hoff Hbr].
  destruct (Z.eqb_spec b 0xff) as [Hff|Hff];
    [|destruct (Z.eqb_spec b 0xfe) as [Hfe|Hfe];
      [|destruct (Z.eqb_spec b 0xfd) as [Hfd|Hfd]]].
  - destruct (Z.leb_spec (off + 9) (Buf.len data)); [|discriminate].
    cbn [bind].
    destruct (encoding.readU64 data (off + 1)) as [v| |] eqn:H64;
      try discriminate.
    cbn [bind]. destruct (Z.ltb_spec 0xffffffff v); [|discriminate].
    cbn [bind]. intros [= <-]. cbn [encoding.size encoding.value].
    apply readU64_inv in H64 as (lo & hi & Hlo & Hhi & Hh & ->).
    pose proof (readUInt32LE_range _ _ _ Hlo) as Hlr.
    pose proof (readUInt32LE_range _ _ _ Hhi) as Hhr.
    change (2 ^ 32) with 4294967296 in *. change (2 ^ 21) with 2097152 in *.
    split; [lia|]. split; [lia|].
    unfold encoding.writeVarint.
    destruct (Z.ltb_spec (hi * 4294967296 + lo) 253); [lia|].
    destruct (Z.leb_spec (hi * 4294967296 + lo) 65535); [lia|].
    destruct (Z.leb_spec (hi * 4294967296 + lo) 4294967295); [lia|].
    rewrite (set_same data off 255 b) by (try assumption; subst b; reflexivity).
    unfold encoding.writeU64. rewrite write64_le_stores by lia.
    rewrite store_app, length_le_bytes. change (Z.of_nat 4) with 4.
    rewrite (store_word_same data (off + 1)).
    2: { rewrite Hlo, toUint32_toInt32. f_equal.
         change (2 ^ 32) with 4294967296. Z.div_mod_to_equations. lia. }
    rewrite (store_word_same data (off + 1 + 4)).
    2: { rewrite Hhi, toUint32_toInt32.
         f_equal. change (2 ^ 32) with 4294967296. Z.div_mod_to_equations. lia. }
    f_equal; f_equal; lia.
  - destruct (Z.leb_spec (off + 5) (Buf.len data)); [|discriminate].
    cbn [bind].
    destruct (Buf.readUInt32LE data (off + 1)) as [v|] eqn:Hv; [|discriminate].
    cbn [bind of_host]. destruct (Z.ltb_spec 0xffff v); [|discriminate].
    cbn [bind]. intros [= <-]. cbn [encoding.size encoding.value].
    pose proof (readUInt32LE_range _ _ _ Hv) as Hvr.
    change (2 ^ 32) with 4294967296 in *.
    split; [lia|]. split; [lia|].
    unfold encoding.writeVarint.
    destruct (Z.ltb_spec v 253); [lia|].
    destruct (Z.leb_spec v 65535); [lia|].
    destruct (Z.leb_spec v 4294967295); [|lia].
    apply readUInt32LE_inv in Hv as (b0 & b1 & b2 & b3 & G0 & G1 & G2 & G3 & Hv).
    pose proof (get_some _ _ _ G0). pose proof (get_some _ _ _ G1).
    pose proof (get_some _ _ _ G2). pose proof (get_some _ _ _ G3).
    cbn [Buf.store].
    rewrite (set_same data off _ b) by (try assumption; subst b; reflexivity).
    rewrite !shr_byte by (change (2 ^ 32) with 4294967296; lia).
    change 0xff with (2 ^ 8 - 1). rewrite band_low by lia.
    unfold JS.ushr, JS.toUint32. change (24 mod 32) with 24.
    rewrite Z.shiftr_div_pow2 by lia.
    change (2 ^ 8) with 256. change (2 ^ 16) with 65536.
    change (2 ^ 24) with 16777216. change (2 ^ 32) with 4294967296.
    rewrite (set_same data (off + 1) _ b0)
      by (try assumption; Z.div_mod_to_equations; lia).
    replace (off + 1 + 1) with (off + 2) by lia.
    replace (Buf.get data (off + 1 + 1)) with (Buf.get data (off + 2)) in G1
      by (f_equal; lia).
    rewrite (set_same data (off + 2) _ b1)
      by (try assumption; Z.div_mod_to_equations; lia).
    replace (off + 2 + 1) with (off + 3) by lia.
    replace (Buf.get data (off + 1 + 2)) with (Buf.get data (off + 3)) in G2
      by (f_equal; lia).
    rewrite (set_same data (off + 3) _ b2)
      by (try assumption; Z.div_mod_to_equations; lia).
    replace (off + 3 + 1) with (off + 4) by lia.
    replace (Buf.get data (off + 1 + 3)) with (Buf.get data (off + 4)) in G3
      by (f_equal; lia).
    rewrite (set_same data (off + 4) _ b3)
      by (try assumption; Z.div_mod_to_equations; lia).
    f_equal; f_equal; lia.
  - destruct (Z.leb_spec (off + 3) (Buf.len data)); [|discriminate].
    cbn [bind].
    destruct (Buf.get data (off + 1)) as [b1|] eqn:Hb1; [|discriminate].
    destruct (Buf.get data (off + 2)) as [b2|] eqn:Hb2; [|discriminate].
    cbn [bind of_host].
    pose proof (get_some _ _ _ Hb1) as [_ Hr1].
    pose proof (get_some _ _ _ Hb2) as [_ Hr2].
    rewrite bor_shl_8 by assumption.
    destruct (Z.leb_spec 0xfd (b1 + 256 * b2)); [|discriminate].
    cbn [bind]. intros [= <-]. cbn [encoding.size encoding.value].
    split; [lia|]. split; [lia|].
    unfold encoding.writeVarint.
    destruct (Z.ltb_spec (b1 + 256 * b2) 253); [lia|].
    destruct (Z.leb_spec (b1 + 256 * b2) 65535); [|lia].
    cbn [Buf.store].
    rewrite (set_same data off _ b) by (try assumption; subst b; reflexivity).
    rewrite shr_byte by (change (2 ^ 32) with 4294967296; lia).
    change 0xff with (2 ^ 8 - 1). rewrite band_low by lia.
    change (2 ^ 8) with 256.
    rewrite (set_same data (off + 1) _ b1)
      by (try assumption; Z.div_mod_to_equations; lia).
    replace (off + 1 + 1) with (off + 2) by lia.
    rewrite (set_same data (off + 2) _ b2)
      by (try assumption; Z.div_mod_to_equations; lia).
    f_equal; f_equal; lia.
  - intros [= <-]. cbn [encoding.size encoding.value].
    split; [lia|]. split; [lia|].
    unfold encoding.writeVarint.
    destruct (Z.ltb_spec b 253); [|lia].
    cbn [Buf.store].
    change 0xff with (2 ^ 8 - 1). rewrite band_low by lia.
    change (2 ^ 8) with 256.
    rewrite (set_same data off _ b)
      by (try assumption; Z.div_mod_to_equations; lia).
    reflexivity.
Qed.

Lemma readVarint_reencodes_witness :
  0 <= 1 /\ 1 + 3 <= Buf.len (bytes_of [7; 0xfd; 0x2c; 0x01; 9])
  /\ encoding.writeVarint (bytes_of [7; 0xfd; 0x2c; 0x01; 9]) 300 1
     = (bytes_of [7; 0xfd; 0x2c; 0x01; 9], Ok (1 + 3)).
Proof.
  exact (readVarint_reencodes (bytes_of [7; 0xfd; 0x2c; 0x01; 9]) 1
           (encoding.mkVarint 3 300) eq_refl).
Defined.

(** The two loops over the digits of scheme B make the same number of
    rounds, whatever the number. *)
Lemma varint2_loop_count (n : nat) :
  forall num, (Z.to_nat (Z.log2 num) <= n)%nat ->
  forall (len : nat) (tmp : list Z),
  exists (E : list Z) (k : nat),
    encoding.writeVarint2_loop num len tmp = (tmp ++ E, (len + k)%nat)
    /\ length E = S k
    /\ (forall sz, encoding.sizeVarint2_loop num sz = sz + Z.of_nat (S k)).
Proof.
  induction n as [|n IH]; intros num Hn len tmp;
    rewrite writeVarint2_loop_eq; cbv zeta;
    destruct (Z_le_dec num 127) as [Hs|Hs].
  - eexists [_], 0%nat. rewrite Nat.add_0_r.
    split; [reflexivity|]. split; [reflexivity|].
    intros sz. rewrite sizeVarint2_loop_eq.
    destruct (Z_le_dec num 127); [reflexivity|contradiction].
  - pose proof (encoding.varint2_next_decreases num Hs). lia.
  - eexists [_], 0%nat. rewrite Nat.add_0_r.
    split; [reflexivity|]. split; [reflexivity|].
    intros sz. rewrite sizeVarint2_loop_eq.
    destruct (Z_le_dec num 127); [reflexivity|contradiction].
  - pose proof (encoding.varint2_next_decreases num Hs) as Hd.
    match goal with |- context [encoding.writeVarint2_loop _ _ (tmp ++ [?d])] =>
      destruct (IH (encoding.varint2_next num) ltac:(lia) (len + 1)%nat
                  (tmp ++ [d])) as (E & k & Hloop & HlenE & Hsize);
      exists (d :: E), (S k)
    end.
    split; [rewrite Hloop, <- app_assoc; f_equal; lia|].
    split; [cbn; now rewrite HlenE|].
    intros sz. rewrite sizeVarint2_loop_eq.
    destruct (Z_le_dec num 127); [contradiction|]. rewrite Hsize. lia.
Qed.

Lemma varint2_count (num : Z) :
  exists (E : list Z) (k : nat),
    encoding.writeVarint2_loop num 0 [] = (E, k)
    /\ length E = S k
    /\ encoding.sizeVarint2 num = Z.of_nat (S k).
Proof.
  destruct (varint2_loop_count (Z.to_nat (Z.log2 num)) num (le_n _) 0%nat [])
    as (E & k & Hloop & HlenE & Hsize).
  exists E, k. split; [exact Hloop|]. split; [exact HlenE|].
  unfold encoding.sizeVarint2. now rewrite Hsize.
Qed.

Lemma store_frame (vs : list Z) (dst : Buffer) (off : Z) :
  0 <= off ->
  take (Z.to_nat off) (Buf.store dst off vs) = take (Z.to_nat off) dst
  /\ drop (Z.to_nat off + length vs) (Buf.store dst off vs)
     = drop (Z.to_nat off + length vs) dst.
Proof.
  revert dst off. induction vs as [|v vs IH]; intros dst off H0; [easy|].
  cbn [Buf.store length]. destruct (IH (Buf.set dst off v) (off + 1)) as [Ht Hd]; [lia|].
  unfold Buf.set in *. destruct (Z.ltb_spec off 0); [lia|].
  split.
  - apply (f_equal (take (Z.to_nat off))) in Ht.
    rewrite !take_take in Ht.
    replace (Z.to_nat off `min` Z.to_nat (off + 1))%nat with (Z.to_nat off) in Ht by lia.
    rewrite Ht. now rewrite take_insert_ge by lia.
  - replace (Z.to_nat off + S (length vs))%nat
      with (Z.to_nat (off + 1) + length vs)%nat by lia.
    rewrite Hd. now rewrite drop_insert_lt by lia.
Qed.

(** X2. [writeVarint2] looks for room before it stores anything, and
    the room it asks for is what [sizeVarint2] counts, for every number.
    Without that room it throws an [EncodingError] at [off] (with the
    text of a read, "Out of bounds read") and the buffer is as it was;
    with it, it returns [off + sizeVarint2 num], and the bytes before
    [off] and from the returned offset on are left alone. *)
Theorem writeVarint2_checks_room (dst : Buffer) (num off : Z) :
  (Buf.len dst < off + encoding.sizeVarint2 num ->
   encoding.writeVarint2 dst num off
   = (dst, Throw (EncodingError off "Out of bounds read")))
  /\ (off + encoding.sizeVarint2 num <= Buf.len dst ->
      exists out,
        encoding.writeVarint2 dst num off
        = (out, Ok (off + encoding.sizeVarint2 num))
        /\ Buf.len out = Buf.len dst
        /\ (0 <= off ->
            take (Z.to_nat off) out = take (Z.to_nat off) dst
            /\ drop (Z.to_nat (off + encoding.sizeVarint2 num)) out
               = drop (Z.to_nat (off + encoding.sizeVarint2 num)) dst)).
Proof.
  destruct (varint2_count num) as (E & k & Hloop & HlenE & Hsize).
  unfold encoding.writeVarint2. rewrite Hloop, Hsize.
  unfold encoding.check, encoding.guarded, encoding.returned.
  split; intros Hroom.
  - destruct (Z.leb_spec (off + Z.of_nat k + 1) (Buf.len dst)); [lia|].
    reflexivity.
  - destruct (Z.leb_spec (off + Z.of_nat k + 1) (Buf.len dst)); [|lia].
    rewrite writeVarint2_emit_stores by lia. cbn [fst snd].
    eexists. split; [reflexivity|]. split; [apply len_store|].
    intros H0.
    destruct (store_frame (rev (take (S k) E)) dst off H0) as [Ht Hd].
    split; [exact Ht|].
    rewrite length_rev, length_take in Hd.
    replace (Z.to_nat (off + Z.of_nat (S k)))
      with (Z.to_nat off + S k `min` length E)%nat by lia.
    exact Hd.
Qed.

Lemma writeVarint2_checks_room_witness :
  encoding.writeVarint2 (zeros 1) 300 0
  = (zeros 1, Throw (EncodingError 0 "Out of bounds read"))
  /\ (exists out,
        encoding.writeVarint2 (bytes_of [9; 9; 9; 9]) 300 1
        = (out, Ok (1 + encoding.sizeVarint2 300))
        /\ Buf.len out = Buf.len (bytes_of [9; 9; 9; 9])).
Proof.
  split.
  - apply (proj1 (writeVarint2_checks_room (zeros 1) 300 0)).
    vm_compute. reflexivity.
  - destruct (proj2 (writeVarint2_checks_room (bytes_of [9; 9; 9; 9]) 300 1))
      as (out & Hw & Hl & _); [vm_compute; discriminate|].
    exists out. split; [exact Hw|exact Hl].
Defined.

(** What the loop of [readVarint2] has consumed when it returns, and
    what the first loop of [writeVarint2] makes of the number returned:
    the same bytes, last one first, and then it goes on with the number
    that the read had accumulated before them. *)
Lemma readVarint2_loop_inv (rest : list byte) :
  forall (off num size : Z) (r : encoding.Varint Z),
  0 <= num ->
  encoding.readVarint2_loop rest off num size = Ok r ->
  exists (k : nat) (cons rest' : list byte),
    rest = cons ++ rest' /\ length cons = S k
    /\ encoding.size r = size + Z.of_nat (S k)
    /\ 0 <= encoding.value r <= 2 ^ 53 - 128
    /\ encoding.writeVarint2_loop (encoding.value r) 0 []
       = if num =? 0 then (Z_of_byte <$> rev cons, k)
         else encoding.writeVarint2_loop (num - 1) (S k) (Z_of_byte <$> rev cons).
Proof.
  change (2 ^ 53) with 9007199254740992.
  induction rest as [|b rest' IH]; intros off num size r Hnum; [discriminate|].
  cbn [encoding.readVarint2_loop]. pose proof (Z_of_byte_range b) as Hb.
  rewrite band_7f, band_flag by exact Hb. unfold encoding.enforce.
  destruct (Z.leb_spec num (0x3fffffffffff - Z_of_byte b mod 128)) as [Hg|];
    [|discriminate].
  cbn [bind]. destruct (Z.ltb_spec (Z_of_byte b) 128) as [Hlast|Hmore].
  - cbn [Z.eqb]. intros [= <-]. cbn [encoding.size encoding.value].
    rewrite Z.mod_small in * by lia.
    exists 0%nat, [b], rest'.
    split; [reflexivity|]. split; [reflexivity|]. split; [lia|]. split; [lia|].
    rewrite writeVarint2_loop_eq. cbv zeta. cbn [Nat.eqb app rev fmap list_fmap].
    rewrite band_7f, bor_0.
    rewrite toInt32_small
      by (change (2 ^ 31) with 2147483648; Z.div_mod_to_equations; lia).
    replace ((num * 128 + Z_of_byte b) mod 128) with (Z_of_byte b)
      by (Z.div_mod_to_equations; lia).
    destruct (Z_le_dec (num * 128 + Z_of_byte b) 127) as [Hs|Hs];
      destruct (Z.eqb_spec num 0) as [Hn0|Hn0];
      try (exfalso; lia); try reflexivity.
    rewrite varint2_next_nonneg by lia. f_equal.
    Z.div_mod_to_equations. lia.
  - change (128 =? 0) with false. cbv iota.
    destruct (Z.eqb_spec (num * 128 + Z_of_byte b mod 128) JS.MAX_SAFE_INTEGER);
      [discriminate|].
    cbn [negb bind]. intros Hrec.
    apply IH in Hrec as (k & cons & rest'' & -> & Hlen & Hsize & Hval & Hw);
      [|Z.div_mod_to_equations; lia].
    exists (S k), (b :: cons), rest''.
    split; [reflexivity|]. split; [cbn; now rewrite Hlen|].
    split; [lia|]. split; [exact Hval|].
    rewrite Hw.
    destruct (Z.eqb_spec (num * 128 + Z_of_byte b mod 128 + 1) 0);
      [Z.div_mod_to_equations; lia|].
    rewrite writeVarint2_loop_eq. cbv zeta. cbn [Nat.eqb].
    replace (num * 128 + Z_of_byte b mod 128 + 1 - 1)
      with (num * 128 + Z_of_byte b mod 128) by lia.
    rewrite band_7f.
    replace ((num * 128 + Z_of_byte b mod 128) mod 128)
      with (Z_of_byte b - 128) by (Z.div_mod_to_equations; lia).
    rewrite bor_flag by lia.
    replace (Z_of_byte b - 128 + 128) with (Z_of_byte b) by lia.
    cbn [rev]. rewrite fmap_app. cbn [fmap list_fmap].
    destruct (Z_le_dec (num * 128 + Z_of_byte b mod 128) 127) as [Hs|Hs];
      destruct (Z.eqb_spec num 0) as [Hn0|Hn0];
      try (exfalso; Z.div_mod_to_equations; lia); try reflexivity.
    rewrite varint2_next_nonneg by (Z.div_mod_to_equations; lia).
    f_equal; [Z.div_mod_to_equations; lia|lia].
Qed.

(** X3. What [readVarint2] accepts is what [writeVarint2] writes: when
    [readVarint2] returns a number from the bytes at [off], it has read
    as many bytes as [sizeVarint2] counts for that number, inside the
    buffer, and writing the number back to the same place with
    [writeVarint2] leaves every byte of the buffer as it was. No number
    has two encodings that are read, and none above 2^53 - 128 is
    returned. *)
Theorem readVarint2_reencodes (data : Buffer) (off : Z) (r : encoding.Varint Z)
    (Hoff : 0 <= off)
    (Hread : encoding.readVarint2 data off = Ok r) :
  encoding.sizeVarint2 (encoding.value r) = encoding.size r
  /\ off + encoding.size r <= Buf.len data
  /\ 0 <= encoding.value r <= 2 ^ 53 - 128
  /\ encoding.writeVarint2 data (encoding.value r) off
     = (data, Ok (off + encoding.size r)).
Proof.
  unfold encoding.readVarint2 in Hread.
  destruct (Z.ltb_spec off 0); [lia|].
  apply readVarint2_loop_inv in Hread
    as (k & cons & rest' & Hdrop & Hlen & Hsize & Hval & Hw); [|lia].
  cbn [Z.eqb] in Hw.
  destruct (varint2_count (encoding.value r)) as (E & k' & Hloop & HlenE & Hsz).
  rewrite Hw in Hloop. injection Hloop as <- <-.
  assert (Hroom : off + Z.of_nat (S k) <= Buf.len data).
  { unfold Buf.len. apply (f_equal length) in Hdrop.
    rewrite length_drop, length_app, Hlen in Hdrop. lia. }
  split; [lia|]. split; [lia|]. split; [exact Hval|].
  unfold encoding.writeVarint2. rewrite Hw.
  unfold encoding.check, encoding.guarded, encoding.returned.
  destruct (Z.leb_spec (off + Z.of_nat k + 1) (Buf.len data)); [|lia].
  rewrite writeVarint2_emit_stores by (rewrite length_fmap, length_rev; lia).
  cbn [fst snd].
  rewrite take_ge by (rewrite length_fmap, length_rev; lia).
  rewrite fmap_rev, rev_involutive.
  rewrite store_at by (rewrite ?length_fmap; lia).
  rewrite bytes_of_Z_of_byte, length_fmap, Hlen.
  replace (drop (Z.to_nat off + S k) data) with rest'.
  2: { rewrite <- drop_drop, Hdrop, drop_app_length'; [reflexivity|now rewrite Hlen]. }
  rewrite <- Hdrop, take_drop. f_equal. f_equal. lia.
Qed.

Lemma readVarint2_reencodes_witness :
  encoding.sizeVarint2 300 = 2
  /\ 1 + 2 <= Buf.len (bytes_of [7; 0x81; 0x2c; 9])
  /\ 0 <= 300 <= 2 ^ 53 - 128
  /\ encoding.writeVarint2 (bytes_of [7; 0x81; 0x2c; 9]) 300 1
     = (bytes_of [7; 0x81; 0x2c; 9], Ok (1 + 2)).
Proof.
  apply (readVarint2_reencodes (bytes_of [7; 0x81; 0x2c; 9]) 1
           (encoding.mkVarint 2 300)); [lia|vm_compute; reflexivity].
Defined.

(** X4. Varint scheme B written and read back, with the numbers that
    come back told from those that do not. For a safe integer [v] and
    room in the buffer, [writeVarint2] writes [sizeVarint2 v] bytes at
    [off]; [readVarint2] returns [v] and that size from them exactly
    when [v / 128 + v mod 128 <= 0x3fffffffffff], which holds for every
    [v] below 2^53 - 16129, and otherwise throws "Number exceeds 2^53-1"
    at the offset after the last byte. *)
Theorem varint2_round_trip_exact (dst : Buffer) (v off : Z)
    (Hv : 0 <= v <= JS.MAX_SAFE_INTEGER)
    (Hoff : 0 <= off)
    (Hroom : off + encoding.sizeVarint2 v <= Buf.len dst) :
  exists out,
    encoding.writeVarint2 dst v off = (out, Ok (off + encoding.sizeVarint2 v))
    /\ (encoding.readVarint2 out off
        = Ok (encoding.mkVarint (encoding.sizeVarint2 v) v)
        <-> v / 128 + v mod 128 <= 0x3fffffffffff)
    /\ (v < 2 ^ 53 - 16129 ->
        encoding.readVarint2 out off
        = Ok (encoding.mkVarint (encoding.sizeVarint2 v) v))
    /\ (0x3fffffffffff < v / 128 + v mod 128 ->
        encoding.readVarint2 out off
        = Throw (EncodingError (off + encoding.sizeVarint2 v)
                   "Number exceeds 2^53-1")).
Proof.
  destruct (readVarint2_writeVarint2 dst v off Hv Hoff Hroom)
    as (out & Hw & _ & Hr).
  exists out. split; [exact Hw|]. rewrite Hr.
  change (2 ^ 53) with 9007199254740992.
  destruct (Z.leb_spec (v / 128 + v mod 128) 0x3fffffffffff) as [Hs|Hs].
  - split; [tauto|]. split; [reflexivity|]. lia.
  - split; [split; [discriminate|lia]|].
    split; [|reflexivity]. intros Hlt. exfalso.
    Z.div_mod_to_equations. lia.
Qed.

Lemma varint2_round_trip_exact_witness :
  exists out,
    encoding.writeVarint2 (zeros 8) 9007199254724862 0
    = (out, Ok (0 + encoding.sizeVarint2 9007199254724862))
    /\ encoding.readVarint2 out 0
       = Ok (encoding.mkVarint (encoding.sizeVarint2 9007199254724862)
               9007199254724862).
Proof.
  destruct (varint2_round_trip_exact (zeros 8) 9007199254724862 0)
    as (out & Hw & _ & Hr & _);
    [vm_compute; split; discriminate | lia | vm_compute; discriminate |].
  exists out. split; [exact Hw|]. apply Hr. vm_compute. reflexivity.
Defined.

Lemma get_inside (data : Buffer) (off : Z) :
  0 <= off < Buf.len data -> exists b, Buf.get data off = Some b.
Proof.
  intros Hoff. unfold Buf.get, Buf.len in *.
  destruct (Z.ltb_spec off 0); [lia|].
  destruct (lookup_lt_is_Some_2 data (Z.to_nat off)) as [x Hx]; [lia|].
  rewrite Hx. now eexists.
Qed.

Lemma get_outside (data : Buffer) (off : Z) :
  off < 0 \/ Buf.len data <= off -> Buf.get data off = None.
Proof.
  intros Hoff. unfold Buf.get, Buf.len in *.
  destruct (Z.ltb_spec off 0); [reflexivity|].
  rewrite lookup_ge_None_2 by lia. reflexivity.
Qed.

(** X5. When [readVarint] runs out of bytes. It throws "Out of bounds
    read", with the offset it was called at, in two cases and no other:
    the offset is at or past the end of the buffer, or the first byte
    announces a form (nine bytes for 0xff, five for 0xfe, three for
    0xfd) that is longer than what is left. *)
Theorem readVarint_out_of_bounds (data : Buffer) (off : Z) :
  encoding.readVarint data off = Throw (EncodingError off "Out of bounds read")
  <-> Buf.len data <= off
      \/ exists b,
           Buf.get data off = Some b
           /\ Buf.len data
              < off + (if b =? 0xff then 9 else if b =? 0xfe then 5
                       else if b =? 0xfd then 3 else 1).
Proof.
  unfold encoding.readVarint, encoding.check, encoding.enforce.
  destruct (Z.ltb_spec off (Buf.len data)) as [Hlt|Hge]; cbn [bind].
  2: { split; [intros _; left; lia | reflexivity]. }
  destruct (Z.ltb_spec off 0) as [Hneg|Hpos].
  { rewrite get_outside by lia. cbn [of_host bind].
    split; [discriminate|]. intros [?|(b & [=] & _)]. lia. }
  destruct (get_inside data off ltac:(lia)) as [b Hb]. rewrite Hb.
  cbn [of_host bind].
  destruct (Z.eqb_spec b 0xff) as [Hff|Hff];
    [|destruct (Z.eqb_spec b 0xfe) as [Hfe|Hfe];
      [|destruct (Z.eqb_spec b 0xfd) as [Hfd|Hfd]]].
  - destruct (Z.leb_spec (off + 9) (Buf.len data)) as [Hr|Hr]; cbn [bind].
    + split.
      * unfold encoding.readU64, encoding.enforce.
        destruct (Buf.readUInt32LE data (off + 1 + 4)); [|discriminate].
        destruct (Buf.readUInt32LE data (off + 1)); [|discriminate].
        cbn [of_host bind].
        destruct (_ =? 0); cbn [bind]; [|intros [= ?]; lia].
        destruct (_ <? _); discriminate.
      * intros [?|(b' & [= <-] & Hb')]; [lia|].
        destruct (Z.eqb_spec b 255); [lia|contradiction].
    + split; [|reflexivity]. intros _. right. exists b.
      split; [reflexivity|]. destruct (Z.eqb_spec b 255); [lia|contradiction].
  - destruct (Z.leb_spec (off + 5) (Buf.len data)) as [Hr|Hr]; cbn [bind].
    + split.
      * destruct (Buf.readUInt32LE data (off + 1)); [|discriminate].
        cbn [of_host bind]. destruct (_ <? _); discriminate.
      * intros [?|(b' & [= <-] & Hb')]; [lia|].
        destruct (Z.eqb_spec b 255); [contradiction|].
        destruct (Z.eqb_spec b 254); [lia|contradiction].
    + split; [|reflexivity]. intros _. right. exists b.
      split; [reflexivity|].
      destruct (Z.eqb_spec b 255); [contradiction|].
      destruct (Z.eqb_spec b 254); [lia|contradiction].
  - destruct (Z.leb_spec (off + 3) (Buf.len data)) as [Hr|Hr]; cbn [bind].
    + split.
      * destruct (Buf.get data (off + 1)); [|discriminate].
        destruct (Buf.get data (off + 2)); [|discriminate].
        cbn [of_host bind]. destruct (_ <=? _); discriminate.
      * intros [?|(b' & [= <-] & Hb')]; [lia|].
        destruct (Z.eqb_spec b 255); [contradiction|].
        destruct (Z.eqb_spec b 254); [contradiction|].
        destruct (Z.eqb_spec b 253); [lia|contradiction].
    + split; [|reflexivity]. intros _. right. exists b.
      split; [reflexivity|].
      destruct (Z.eqb_spec b 255); [contradiction|].
      destruct (Z.eqb_spec b 254); [contradiction|].
      destruct (Z.eqb_spec b 253); [lia|contradiction].
  - split; [discriminate|].
    intros [?|(b' & [= <-] & Hb')]; [lia|].
    destruct (Z.eqb_spec b 255); [contradiction|].
    destruct (Z.eqb_spec b 254); [contradiction|].
    destruct (Z.eqb_spec b 253); [contradiction|lia].
Qed.

Lemma readVarint_out_of_bounds_witness :
  encoding.readVarint (bytes_of [0xfd; 0x01]) 0
  = Throw (EncodingError 0 "Out of bounds read").
Proof.
  apply (proj2 (readVarint_out_of_bounds (bytes_of [0xfd; 0x01]) 0)).
  right. exists 0xfd. split; [reflexivity|]. vm_compute. reflexivity.
Defined.

(** The loop of [readVarint2] runs off the end only over bytes that all
    carry the continuation flag, and reports the end. *)
Lemma readVarint2_loop_out_of_bounds (rest : list byte) :
  forall (off num size o : Z),
  encoding.readVarint2_loop rest off num size
  = Throw (EncodingError o "Out of bounds read") ->
  o = off + Z.of_nat (length rest)
  /\ Forall (fun b => 128 <= Z_of_byte b) rest.
Proof.
  induction rest as [|b rest IH]; intros off num size o.
  - cbn. intros [= <-]. split; [lia|constructor].
  - cbn [encoding.readVarint2_loop]. pose proof (Z_of_byte_range b) as Hb.
    rewrite band_flag by exact Hb. unfold encoding.enforce.
    destruct (_ <=? _); [|discriminate]. cbn [bind].
    destruct (Z.ltb_spec (Z_of_byte b) 128); [discriminate|].
    change (128 =? 0) with false. cbv iota.
    destruct (negb _); [|discriminate]. cbn [bind].
    intros [-> Hall]%IH. split; [cbn [length]; lia|].
    constructor; [lia|exact Hall].
Qed.

(** X6. When [readVarint2] runs out of bytes. Called at or past the end
    of the buffer it throws "Out of bounds read" with the offset it was
    called at. Whenever it throws that error, every byte from [off] to
    the end of the buffer carries the continuation flag, and the offset
    reported is the end of the buffer, where the next byte was missed,
    not the offset where the number starts. *)
Theorem readVarint2_out_of_bounds (data : Buffer) (off : Z) :
  (Buf.len data <= off ->
   encoding.readVarint2 data off
   = Throw (EncodingError off "Out of bounds read"))
  /\ (forall o,
        encoding.readVarint2 data off
        = Throw (EncodingError o "Out of bounds read") ->
        o = Z.max off (Buf.len data)
        /\ Forall (fun b => 128 <= Z_of_byte b) (drop (Z.to_nat off) data)).
Proof.
  unfold encoding.readVarint2, Buf.len. split.
  - intros Hge. destruct (Z.ltb_spec off 0); [lia|].
    now rewrite drop_ge by lia.
  - intros o. destruct (Z.ltb_spec off 0); [discriminate|].
    intros [-> Hall]%readVarint2_loop_out_of_bounds.
    split; [rewrite length_drop; lia|exact Hall].
Qed.

Lemma readVarint2_out_of_bounds_witness :
  encoding.readVarint2 (bytes_of [1; 2]) 2
  = Throw (EncodingError 2 "Out of bounds read")
  /\ (3 = Z.max 0 (Buf.len (bytes_of [0x81; 0x80; 0xff]))
      /\ Forall (fun b => 128 <= Z_of_byte b)
           (drop (Z.to_nat 0) (bytes_of [0x81; 0x80; 0xff]))).
Proof.
  split.
  - apply (proj1 (readVarint2_out_of_bounds (bytes_of [1; 2]) 2)).
    vm_compute. discriminate.
  - apply (proj2 (readVarint2_out_of_bounds (bytes_of [0x81; 0x80; 0xff]) 0)).
    vm_compute. reflexivity.
Defined.

Lemma set_outside (data : Buffer) (i v : Z) :
  Buf.len data <= i -> Buf.set data i v = data.
Proof.
  intros Hi. unfold Buf.set, Buf.len in *.
  destruct (Z.ltb_spec i 0); [reflexivity|].
  apply list_insert_ge. lia.
Qed.

Lemma store_outside (vs : list Z) (data : Buffer) (i : Z) :
  Buf.len data <= i -> Buf.store data i vs = data.
Proof.
  revert data i. induction vs as [|v vs IH]; intros data i Hi; [reflexivity|].
  cbn [Buf.store]. rewrite set_outside by exact Hi. apply IH. lia.
Qed.

(** X7. [writeVarint] does not look for room. For a number up to
    0xffffffff it never throws: it returns [off + sizeVarint num] and
    keeps the length of the buffer, whatever [off] is; at or past the
    end of the buffer it stores nothing at all and returns the advanced
    offset all the same. *)
Theorem writeVarint_unchecked (dst : Buffer) (num off : Z)
    (Hnum : num <= 0xffffffff) :
  snd (encoding.writeVarint dst num off) = Ok (off + encoding.sizeVarint num)
  /\ Buf.len (fst (encoding.writeVarint dst num off)) = Buf.len dst
  /\ (Buf.len dst <= off ->
      encoding.writeVarint dst num off
      = (dst, Ok (off + encoding.sizeVarint num))).
Proof.
  unfold encoding.writeVarint, encoding.sizeVarint.
  destruct (Z.ltb_spec num 0xfd);
    [|destruct (Z.leb_spec num 0xffff);
      [|destruct (Z.leb_spec num 0xffffffff); [|lia]]];
    (split; [reflexivity|]); (split; [apply len_store|]);
    intros Hout; now rewrite store_outside.
Qed.

Lemma writeVarint_unchecked_witness :
  snd (encoding.writeVarint (zeros 2) 70000 2) = Ok (2 + encoding.sizeVarint 70000)
  /\ encoding.writeVarint (zeros 2) 70000 2 = (zeros 2, Ok 7).
Proof.
  destruct (writeVarint_unchecked (zeros 2) 70000 2) as (Hs & _ & Hw);
    [lia|].
  split; [exact Hs|]. apply Hw. vm_compute. discriminate.
Defined.

(** ** The 64-bit number path, both byte orders and both signs *)

Lemma get_store (dst : Buffer) (off : Z) (vs : list Z) (k : nat) (v : Z) (i : Z) :
  0 <= off -> off + Z.of_nat (length vs) <= Buf.len dst ->
  vs !! k = Some v -> i = off + Z.of_nat k ->
  Buf.get (Buf.store dst off vs) i = Some (v mod 256).
Proof.
  intros H0 Hroom Hk ->. rewrite store_at by assumption.
  rewrite <- Z_of_byte_of_Z. unfold Buf.len in Hroom.
  apply (get_at _ _ k); [rewrite length_take; lia|].
  apply lookup_app_l_Some. unfold bytes_of.
  now rewrite list_lookup_fmap, Hk.
Qed.

(** What [write64] stores, for a number of either sign: the two words
    of the number in two's complement. A negative number whose low word
    is 2^31 is left to the host, which is handed the word 2^31 as a
    signed one. *)
Lemma write64_words (dst : Buffer) (v off : Z) (be : bool) :
  0 <= off -> off + 8 <= Buf.len dst ->
  (v < 0 -> (- v) mod 2 ^ 32 <> 2 ^ 31) ->
  exists lo hi,
    encoding.write64 dst v off be
    = (Buf.store dst off
         (if be then Buf.be_bytes 4 hi ++ Buf.be_bytes 4 lo
          else Buf.le_bytes 4 lo ++ Buf.le_bytes 4 hi),
       Ok (off + 8))
    /\ JS.toUint32 lo = v mod 2 ^ 32
    /\ JS.toUint32 hi = (v / 2 ^ 32) mod 2 ^ 32.
Proof.
  intros H0 Hroom Hlow. unfold encoding.write64.
  set (n := if v <? 0 then - v else v).
  assert (Hn : 0 <= n) by (subst n; destruct (Z.ltb_spec v 0); lia).
  rewrite !bor_0, Z.quot_div_nonneg by lia.
  set (hi0 := JS.toInt32 (n / 0x100000000)).
  set (lo0 := JS.toInt32 n).
  pose proof (toInt32_range (n / 0x100000000)) as Hhr. fold hi0 in Hhr.
  pose proof (toInt32_range n) as Hlr. fold lo0 in Hlr.
  assert (Hhi0 : hi0 = (n / 4294967296 + 2147483648) mod 4294967296 - 2147483648)
    by reflexivity.
  assert (Hlo0 : lo0 = (n + 2147483648) mod 4294967296 - 2147483648)
    by reflexivity.
  change (2 ^ 31) with 2147483648 in *. change (2 ^ 32) with 4294967296 in *.
  assert (Hw : forall hi lo,
            -2147483648 <= hi < 2147483648 -> -2147483648 <= lo < 2147483648 ->
            (if be
             then wbind (host_write dst (Buf.writeInt32BE dst hi off))
                    (fun dst off => host_write dst (Buf.writeInt32BE dst lo off))
             else wbind (host_write dst (Buf.writeInt32LE dst lo off))
                    (fun dst off => host_write dst (Buf.writeInt32LE dst hi off)))
            = (Buf.store dst off
                 (if be then Buf.be_bytes 4 hi ++ Buf.be_bytes 4 lo
                  else Buf.le_bytes 4 lo ++ Buf.le_bytes 4 hi),
               Ok (off + 8))).
  { intros hi lo Hh Hl. unfold Buf.writeInt32BE, Buf.writeInt32LE.
    destruct be.
    - rewrite write_int_some by (simpl Z.of_nat; lia). cbn [host_write wbind].
      rewrite write_int_some by (rewrite ?len_store; simpl Z.of_nat; lia).
      cbn [host_write]. rewrite store_app, length_be_bytes.
      f_equal; f_equal; lia.
    - rewrite write_int_some by (simpl Z.of_nat; lia). cbn [host_write wbind].
      rewrite write_int_some by (rewrite ?len_store; simpl Z.of_nat; lia).
      cbn [host_write]. rewrite store_app, length_le_bytes.
      f_equal; f_equal; lia. }
  unfold JS.toUint32. change (2 ^ 32) with 4294967296.
  destruct (Z.ltb_spec v 0) as [Hneg|Hpos].
  - specialize (Hlow Hneg). unfold JS.bnot.
    clearbody hi0 lo0.
    rewrite (toInt32_small hi0), (toInt32_small lo0)
      by (change (2 ^ 31) with 2147483648; lia).
    unfold Z.lnot.
    destruct (Z.eqb_spec lo0 0) as [Hz|Hnz].
    + exists lo0, (JS.toInt32 (Z.pred (- hi0) + 1)).
      split; [apply Hw; [apply toInt32_range|lia]|].
      unfold JS.toInt32. change (2 ^ 31) with 2147483648.
      change (2 ^ 32) with 4294967296.
      subst n. split; Z.div_mod_to_equations; lia.
    + exists (Z.pred (- lo0) + 1), (Z.pred (- hi0)).
      split; [apply Hw; subst n; Z.div_mod_to_equations; lia|].
      subst n. split; Z.div_mod_to_equations; lia.
  - exists lo0, hi0. split; [apply Hw; lia|].
    subst n. split; Z.div_mod_to_equations; lia.
Qed.

Lemma le_value_app (a b : list byte) :
  le_value (a ++ b) = le_value a + 256 ^ Z.of_nat (length a) * le_value b.
Proof.
  unfold le_value. induction a as [|x a IH]; [cbn [app foldr length]; lia|].
  cbn [app foldr length]. rewrite IH.
  rewrite Nat2Z.inj_succ, Z.pow_succ_r by lia. lia.
Qed.

Lemma le_value_word (a : Z) :
  le_value (bytes_of (Buf.le_bytes 4 a)) = JS.toUint32 a.
Proof.
  rewrite le_bytes_4. cbn [bytes_of fmap list_fmap le_value foldr].
  pose proof (ushr_bytes_word a). lia.
Qed.

Lemma stored_bytes (dst : Buffer) (off : Z) (vs : list Z) :
  0 <= off -> off + Z.of_nat (length vs) <= Buf.len dst ->
  take (length vs) (drop (Z.to_nat off) (Buf.store dst off vs)) = bytes_of vs.
Proof.
  intros H0 Hroom. rewrite store_at by assumption. unfold Buf.len in Hroom.
  rewrite drop_app_length' by (rewrite length_take; lia).
  rewrite take_app_length'; [reflexivity|].
  unfold bytes_of. now rewrite length_fmap.
Qed.

(** X8. [write64], behind [writeU64], [writeI64] and their big-endian
    twins, checks no range (their headers announce a throw above
    [MAX_SAFE_INTEGER]): with eight bytes of room it returns [off + 8]
    for every number, keeps the bytes around them, and the eight bytes
    hold the number modulo 2^64, in two's complement when it is
    negative; the big-endian bytes are the little-endian ones in reverse.
    (A negative number whose low word is 2^31 is left to the host.) *)
Theorem write64_twos_complement (dst : Buffer) (v off : Z)
    (Hoff : 0 <= off)
    (Hroom : off + 8 <= Buf.len dst)
    (Hlow : v < 0 -> (- v) mod 2 ^ 32 <> 2 ^ 31) :
  exists le be,
    encoding.writeI64 dst v off = (le, Ok (off + 8))
    /\ encoding.writeU64 dst v off = (le, Ok (off + 8))
    /\ encoding.writeI64BE dst v off = (be, Ok (off + 8))
    /\ encoding.writeU64BE dst v off = (be, Ok (off + 8))
    /\ le_value (take 8 (drop (Z.to_nat off) le)) = v mod 2 ^ 64
    /\ take 8 (drop (Z.to_nat off) be) = rev (take 8 (drop (Z.to_nat off) le))
    /\ take (Z.to_nat off) le = take (Z.to_nat off) dst
    /\ drop (Z.to_nat off + 8) le = drop (Z.to_nat off + 8) dst
    /\ take (Z.to_nat off) be = take (Z.to_nat off) dst
    /\ drop (Z.to_nat off + 8) be = drop (Z.to_nat off + 8) dst.
Proof.
  destruct (write64_words dst v off false Hoff Hroom Hlow)
    as (lo & hi & Hle & Hlo & Hhi).
  destruct (write64_words dst v off true Hoff Hroom Hlow)
    as (lo' & hi' & Hbe & Hlo' & Hhi').
  assert (Hl : JS.toInt32 lo = JS.toInt32 lo').
  { unfold JS.toUint32 in *. unfold JS.toInt32.
    change (2 ^ 31) with 2147483648. change (2 ^ 32) with 4294967296 in *.
    f_equal. Z.div_mod_to_equations. lia. }
  assert (Hh : JS.toInt32 hi = JS.toInt32 hi').
  { unfold JS.toUint32 in *. unfold JS.toInt32.
    change (2 ^ 31) with 2147483648. change (2 ^ 32) with 4294967296 in *.
    f_equal. Z.div_mod_to_equations. lia. }
  assert (Hbytes : forall a a', JS.toInt32 a = JS.toInt32 a' ->
            bytes_of (Buf.le_bytes 4 a) = bytes_of (Buf.le_bytes 4 a')).
  { intros a a' Ha. rewrite !le_bytes_4. unfold JS.ushr.
    assert (Hu : JS.toUint32 a = JS.toUint32 a').
    { transitivity (JS.toUint32 (JS.toInt32 a));
        [now rewrite toUint32_toInt32|].
      rewrite Ha. now rewrite toUint32_toInt32. }
    now rewrite Hu. }
  eexists _, _. unfold encoding.writeI64, encoding.writeU64,
    encoding.writeI64BE, encoding.writeU64BE.
  split; [exact Hle|]. split; [exact Hle|].
  split; [exact Hbe|]. split; [exact Hbe|].
  pose proof (stored_bytes dst off (Buf.le_bytes 4 lo ++ Buf.le_bytes 4 hi)
                Hoff) as Hsl.
  pose proof (stored_bytes dst off (Buf.be_bytes 4 hi' ++ Buf.be_bytes 4 lo')
                Hoff) as Hsb.
  rewrite length_app, !length_le_bytes in Hsl.
  rewrite length_app, !length_be_bytes in Hsb.
  change (4 + 4)%nat with 8%nat in *.
  rewrite Hsl, Hsb by (simpl Z.of_nat; lia).
  split.
  { unfold bytes_of. rewrite fmap_app. fold (bytes_of (Buf.le_bytes 4 lo)).
    fold (bytes_of (Buf.le_bytes 4 hi)).
    rewrite le_value_app, !le_value_word, Hlo, Hhi.
    unfold bytes_of. rewrite length_fmap, length_le_bytes.
    change (256 ^ Z.of_nat 4) with 4294967296.
    change (2 ^ 32) with 4294967296. change (2 ^ 64) with 18446744073709551616.
    Z.div_mod_to_equations. lia. }
  split.
  { unfold Buf.be_bytes. rewrite <- rev_app_distr.
    unfold bytes_of. rewrite fmap_rev. f_equal.
    rewrite !fmap_app. f_equal; [apply Hbytes|apply Hbytes]; congruence. }
  destruct (store_frame (Buf.le_bytes 4 lo ++ Buf.le_bytes 4 hi) dst off Hoff)
    as [Ht Hd].
  destruct (store_frame (Buf.be_bytes 4 hi' ++ Buf.be_bytes 4 lo') dst off Hoff)
    as [Ht' Hd'].
  rewrite length_app, !length_le_bytes in Hd.
  rewrite length_app, !length_be_bytes in Hd'.
  repeat match goal with |- _ /\ _ => split end; assumption.
Qed.

Lemma write64_twos_complement_witness :
  exists le be,
    encoding.writeI64 (zeros 8) (-2) 0 = (le, Ok (0 + 8))
    /\ encoding.writeI64BE (zeros 8) (-2) 0 = (be, Ok (0 + 8))
    /\ le_value (take 8 (drop (Z.to_nat 0) le)) = (-2) mod 2 ^ 64
    /\ take 8 (drop (Z.to_nat 0) be) = rev (take 8 (drop (Z.to_nat 0) le)).
Proof.
  destruct (write64_twos_complement (zeros 8) (-2) 0)
    as (le & be & H1 & _ & H3 & _ & H5 & H6 & _);
    [lia | vm_compute; discriminate | intros _; vm_compute; discriminate |].
  exists le, be. repeat split; assumption.
Defined.

Lemma be_bytes_4 (value : Z) :
  Buf.be_bytes 4 value
  = [JS.ushr value 24; JS.ushr value 16; JS.ushr value 8; JS.ushr value 0].
Proof. reflexivity. Qed.

Lemma ushr_digits (a : Z) :
  JS.ushr a 0 mod 256 + JS.ushr a 8 mod 256 * 0x100
  + JS.ushr a 16 mod 256 * 0x10000 + JS.ushr a 24 mod 256 * 0x1000000
  = JS.toUint32 a.
Proof.
  pose proof (ushr_bytes_word a) as H. now rewrite !Z_of_byte_of_Z in H.
Qed.

(** The two words that sit in a buffer after eight bytes stored in
    big-endian order. *)
Lemma words_of_store_be (dst : Buffer) (off a b : Z) :
  0 <= off -> off + 8 <= Buf.len dst ->
  let data := Buf.store dst off (Buf.be_bytes 4 a ++ Buf.be_bytes 4 b) in
  Buf.readUInt32BE data off = Some (JS.toUint32 a)
  /\ Buf.readUInt32BE data (off + 4) = Some (JS.toUint32 b).
Proof.
  intros H0 H1 data. subst data. rewrite !be_bytes_4. cbn [app].
  unfold Buf.readUInt32BE.
  set (vs := [JS.ushr a 24; JS.ushr a 16; JS.ushr a 8; JS.ushr a 0;
              JS.ushr b 24; JS.ushr b 16; JS.ushr b 8; JS.ushr b 0]).
  assert (Hg : forall (k : nat) v i, vs !! k = Some v -> i = off + Z.of_nat k ->
                 Buf.get (Buf.store dst off vs) i = Some (v mod 256)).
  { intros k v i Hk Hi. apply (get_store dst off vs k); assumption. }
  rewrite (Hg 0%nat _ off eq_refl), (Hg 1%nat _ (off + 1) eq_refl),
    (Hg 2%nat _ (off + 2) eq_refl), (Hg 3%nat _ (off + 3) eq_refl),
    (Hg 4%nat _ (off + 4) eq_refl), (Hg 5%nat _ (off + 4 + 1) eq_refl),
    (Hg 6%nat _ (off + 4 + 2) eq_refl), (Hg 7%nat _ (off + 4 + 3) eq_refl)
    by lia.
  pose proof (ushr_digits a). pose proof (ushr_digits b).
  split; f_equal; lia.
Qed.

Lemma readUInt32BE_range (data : Buffer) (off v : Z) :
  Buf.readUInt32BE data off = Some v -> 0 <= v < 2 ^ 32.
Proof.
  intros (b0 & b1 & b2 & b3 & H0 & H1 & H2 & H3 & ->)%readUInt32BE_inv.
  apply get_some in H0, H1, H2, H3. change (2 ^ 32) with 4294967296. lia.
Qed.

Lemma readU64BE_words (data : Buffer) (off lo hi : Z) :
  Buf.readUInt32BE data off = Some hi ->
  Buf.readUInt32BE data (off + 4) = Some lo ->
  encoding.readU64BE data off
  = if hi <? 2 ^ 21 then Ok (hi * 0x100000000 + lo)
    else Throw (EncodingError off "Number exceeds 2^53-1").
Proof.
  intros Hhi Hlo. unfold encoding.readU64BE. rewrite Hlo, Hhi.
  cbn [of_host bind].
  rewrite band_high_mask by (eapply readUInt32BE_range; eauto).
  destruct (hi <? 2 ^ 21); reflexivity.
Qed.

(** X9. The unsigned 64-bit path in both byte orders. For every [v]
    below 2^64, [writeU64] and [writeU64BE] store it in eight bytes;
    [readU64] and [readU64BE] return [v] from these bytes when [v] is
    below 2^53, and throw "Number exceeds 2^53-1" with the offset of the
    read when it is not: the writers write what the readers refuse. *)
Theorem u64_written_and_read (dst : Buffer) (v off : Z)
    (Hv : 0 <= v < 2 ^ 64)
    (Hoff : 0 <= off)
    (Hroom : off + 8 <= Buf.len dst) :
  exists le be,
    encoding.writeU64 dst v off = (le, Ok (off + 8))
    /\ encoding.writeU64BE dst v off = (be, Ok (off + 8))
    /\ encoding.readU64 le off
       = (if v <? 2 ^ 53 then Ok v
          else Throw (EncodingError off "Number exceeds 2^53-1"))
    /\ encoding.readU64BE be off
       = (if v <? 2 ^ 53 then Ok v
          else Throw (EncodingError off "Number exceeds 2^53-1")).
Proof.
  assert (Hlow : v < 0 -> (- v) mod 2 ^ 32 <> 2 ^ 31) by lia.
  destruct (write64_words dst v off false Hoff Hroom Hlow)
    as (lo & hi & Hle & Hlo & Hhi).
  destruct (write64_words dst v off true Hoff Hroom Hlow)
    as (lo' & hi' & Hbe & Hlo' & Hhi').
  eexists _, _. unfold encoding.writeU64, encoding.writeU64BE.
  split; [exact Hle|]. split; [exact Hbe|].
  destruct (words_of_store dst off lo hi Hoff Hroom) as [H1 H2].
  destruct (words_of_store_be dst off hi' lo' Hoff Hroom) as [H3 H4].
  rewrite (readU64_words _ _ _ _ H1 H2), (readU64BE_words _ _ _ _ H3 H4).
  rewrite Hlo, Hhi, Hlo', Hhi'.
  change (2 ^ 64) with 18446744073709551616 in Hv.
  change (2 ^ 32) with 4294967296. change (2 ^ 21) with 2097152.
  change (2 ^ 53) with 9007199254740992.
  destruct (Z.ltb_spec ((v / 4294967296) mod 4294967296) 2097152);
    destruct (Z.ltb_spec v 9007199254740992);
    try (exfalso; Z.div_mod_to_equations; lia);
    split; try reflexivity; f_equal; Z.div_mod_to_equations; lia.
Qed.

Lemma u64_written_and_read_witness :
  exists le be,
    encoding.writeU64 (zeros 8) (2 ^ 53) 0 = (le, Ok (0 + 8))
    /\ encoding.writeU64BE (zeros 8) (2 ^ 53) 0 = (be, Ok (0 + 8))
    /\ encoding.readU64 le 0
       = (if 2 ^ 53 <? 2 ^ 53 then Ok (2 ^ 53)
          else Throw (EncodingError 0 "Number exceeds 2^53-1"))
    /\ encoding.readU64BE be 0
       = (if 2 ^ 53 <? 2 ^ 53 then Ok (2 ^ 53)
          else Throw (EncodingError 0 "Number exceeds 2^53-1")).
Proof.
  apply (u64_written_and_read (zeros 8) (2 ^ 53) 0);
    [vm_compute; split; [discriminate|reflexivity] | lia
    | vm_compute; discriminate].
Defined.

(** ** The signed reads *)

(** [isSafe] on the two words of a signed number: the number lies
    strictly between -2^53 and 2^53. *)
Lemma isSafe_range (hi lo : Z) :
  - 2 ^ 31 <= hi < 2 ^ 31 -> 0 <= lo < 2 ^ 32 ->
  encoding.isSafe hi lo
  = (- 2 ^ 53 <? hi * 2 ^ 32 + lo) && (hi * 2 ^ 32 + lo <? 2 ^ 53).
Proof.
  intros Hhi Hlo. unfold encoding.isSafe, JS.bnot.
  rewrite (toInt32_small hi) by exact Hhi. unfold Z.lnot.
  change (2 ^ 31) with 2147483648 in *. change (2 ^ 32) with 4294967296 in *.
  change (2 ^ 53) with 9007199254740992.
  destruct (Z.ltb_spec hi 0) as [Hneg|Hpos].
  - destruct (Z.eqb_spec lo 0) as [Hz|Hnz];
      rewrite band_high_mask by (change (2 ^ 32) with 4294967296; lia);
      change (2 ^ 21) with 2097152;
      repeat match goal with
             | |- context [?a <? ?b] => destruct (Z.ltb_spec a b)
             end;
      cbn [andb]; try reflexivity; exfalso; lia.
  - rewrite band_high_mask by (change (2 ^ 32) with 4294967296; lia).
    change (2 ^ 21) with 2097152.
    repeat match goal with
           | |- context [?a <? ?b] => destruct (Z.ltb_spec a b)
           end;
      cbn [andb]; try reflexivity; exfalso; lia.
Qed.

(** X10. What the signed reads accept. From eight bytes inside the
    buffer, [readI64] (low word first) and [readI64BE] (high word first)
    return the signed 64-bit value of the two words exactly when it lies
    strictly between -2^53 and 2^53. Otherwise they throw an error,
    whose offset field holds the text "Number exceeds 2^53-1" and whose
    reason is undefined, since [enforce] is called with two arguments. *)
Theorem signed_reads_accept_safe_range (data : Buffer) (off lo hi : Z)
    (Hlo : Buf.readUInt32LE data off = Some lo)
    (Hhi : Buf.readUInt32LE data (off + 4) = Some hi) :
  let V := JS.toInt32 hi * 2 ^ 32 + lo in
  - 2 ^ 63 <= V < 2 ^ 63
  /\ encoding.readI64 data off
     = (if (- 2 ^ 53 <? V) && (V <? 2 ^ 53) then encoding.Value V
        else encoding.Misplaced "Number exceeds 2^53-1")
  /\ (forall lo' hi',
        Buf.readUInt32BE data off = Some hi' ->
        Buf.readUInt32BE data (off + 4) = Some lo' ->
        let W := JS.toInt32 hi' * 2 ^ 32 + lo' in
        encoding.readI64BE data off
        = (if (- 2 ^ 53 <? W) && (W <? 2 ^ 53) then encoding.Value W
           else encoding.Misplaced "Number exceeds 2^53-1")).
Proof.
  cbv zeta. pose proof (readUInt32LE_range _ _ _ Hlo) as Hlr.
  pose proof (toInt32_range hi) as Hhr.
  split.
  { change (2 ^ 31) with 2147483648 in *. change (2 ^ 32) with 4294967296 in *.
    change (2 ^ 63) with 9223372036854775808. lia. }
  split.
  - unfold encoding.readI64, Buf.readInt32LE. rewrite Hlo, Hhi.
    cbn [fmap option_fmap option_map].
    rewrite isSafe_range by assumption.
    change 0x100000000 with (2 ^ 32). reflexivity.
  - intros lo' hi' Hhi' Hlo'.
    pose proof (readUInt32BE_range _ _ _ Hlo').
    pose proof (toInt32_range hi').
    unfold encoding.readI64BE, Buf.readInt32BE. rewrite Hlo', Hhi'.
    cbn [fmap option_fmap option_map].
    rewrite isSafe_range by assumption.
    change 0x100000000 with (2 ^ 32). reflexivity.
Qed.

Lemma signed_reads_accept_safe_range_witness :
  encoding.readI64 (bytes_of [0xfe; 0xff; 0xff; 0xff; 0xff; 0xff; 0xff; 0xff]) 0
  = encoding.Value (-2)
  /\ encoding.readI64 (bytes_of [0; 0; 0; 0; 0; 0; 0x20; 0]) 0
     = encoding.Misplaced "Number exceeds 2^53-1".
Proof.
  split.
  - exact (proj1 (proj2 (signed_reads_accept_safe_range
             (bytes_of [0xfe; 0xff; 0xff; 0xff; 0xff; 0xff; 0xff; 0xff]) 0
             4294967294 4294967295 eq_refl eq_refl))).
  - exact (proj1 (proj2 (signed_reads_accept_safe_range
             (bytes_of [0; 0; 0; 0; 0; 0; 0x20; 0]) 0
             0 2097152 eq_refl eq_refl))).
Defined.

(** The signed value of the two words of a number between -2^63 and
    2^63. *)
Lemma signed_value_read (v lo hi : Z) :
  - 9007199254740991 <= v <= 9007199254740991 ->
  lo = v mod 2 ^ 32 -> hi = (v / 2 ^ 32) mod 2 ^ 32 ->
  JS.toInt32 hi * 2 ^ 32 + lo = v
  /\ (- 2 ^ 53 <? v) && (v <? 2 ^ 53) = true.
Proof.
  intros Hv -> ->. unfold JS.toInt32.
  change (2 ^ 31) with 2147483648. change (2 ^ 32) with 4294967296.
  change (2 ^ 53) with 9007199254740992.
  split; [Z.div_mod_to_equations; lia|].
  repeat match goal with
         | |- context [?a <? ?b] => destruct (Z.ltb_spec a b)
         end; cbn [andb]; try reflexivity; exfalso; lia.
Qed.

(** X11. A signed safe integer written by [writeI64] or [writeI64BE] is
    read back by [readI64] or [readI64BE], negative numbers included
    (but for those whose low word is 2^31, which the writer leaves to
    the host). *)
Theorem readI64_writeI64 (dst : Buffer) (v off : Z)
    (Hv : - JS.MAX_SAFE_INTEGER <= v <= JS.MAX_SAFE_INTEGER)
    (Hoff : 0 <= off)
    (Hroom : off + 8 <= Buf.len dst)
    (Hlow : v < 0 -> (- v) mod 2 ^ 32 <> 2 ^ 31) :
  exists le be,
    encoding.writeI64 dst v off = (le, Ok (off + 8))
    /\ encoding.readI64 le off = encoding.Value v
    /\ encoding.writeI64BE dst v off = (be, Ok (off + 8))
    /\ encoding.readI64BE be off = encoding.Value v.
Proof.
  unfold JS.MAX_SAFE_INTEGER in Hv.
  destruct (write64_words dst v off false Hoff Hroom Hlow)
    as (lo & hi & Hle & Hlo & Hhi).
  destruct (write64_words dst v off true Hoff Hroom Hlow)
    as (lo' & hi' & Hbe & Hlo' & Hhi').
  eexists _, _. unfold encoding.writeI64, encoding.writeI64BE.
  split; [exact Hle|]. split; [|split; [exact Hbe|]].
  - destruct (words_of_store dst off lo hi Hoff Hroom) as [H1 H2].
    destruct (signed_value_read v (JS.toUint32 lo) (JS.toUint32 hi))
      as [HV Hin]; try assumption.
    unfold encoding.readI64, Buf.readInt32LE. rewrite H1, H2.
    cbn [fmap option_fmap option_map].
    rewrite isSafe_range
      by (try apply toInt32_range; unfold JS.toUint32; apply Z.mod_pos_bound; lia).
    change 0x100000000 with (2 ^ 32). rewrite HV, Hin. reflexivity.
  - destruct (words_of_store_be dst off hi' lo' Hoff Hroom) as [H1 H2].
    destruct (signed_value_read v (JS.toUint32 lo') (JS.toUint32 hi'))
      as [HV Hin]; try assumption.
    unfold encoding.readI64BE, Buf.readInt32BE. rewrite H1, H2.
    cbn [fmap option_fmap option_map].
    rewrite isSafe_range
      by (try apply toInt32_range; unfold JS.toUint32; apply Z.mod_pos_bound; lia).
    change 0x100000000 with (2 ^ 32). rewrite HV, Hin. reflexivity.
Qed.

Lemma readI64_writeI64_witness :
  exists le be,
    encoding.writeI64 (zeros 8) (-9007199254740991) 0 = (le, Ok (0 + 8))
    /\ encoding.readI64 le 0 = encoding.Value (-9007199254740991)
    /\ encoding.writeI64BE (zeros 8) (-9007199254740991) 0 = (be, Ok (0 + 8))
    /\ encoding.readI64BE be 0 = encoding.Value (-9007199254740991).
Proof.
  apply (readI64_writeI64 (zeros 8) (-9007199254740991) 0);
    [vm_compute; split; discriminate | lia | vm_compute; discriminate
    | intros _; vm_compute; discriminate].
Defined.

(** ** The codecs on pairs of words *)

Lemma toInt32_toUint32 (x : Z) :
  - 2 ^ 31 <= x < 2 ^ 31 -> JS.toInt32 (JS.toUint32 x) = x.
Proof.
  unfold JS.toInt32, JS.toUint32.
  change (2 ^ 31) with 2147483648. change (2 ^ 32) with 4294967296.
  intros Hx. Z.div_mod_to_equations. lia.
Qed.

(** [readVarint] takes the nine-byte form exactly when the first byte is
    0xff. *)
Lemma readVarint_first_byte (data : Buffer) (off : Z) (r : encoding.Varint Z) :
  encoding.readVarint data off = Ok r -> encoding.size r <> 9 ->
  match Buf.get data off with Some b => b =? 0xff | None => false end = false.
Proof.
  unfold encoding.readVarint, encoding.check, encoding.enforce.
  destruct (off <? Buf.len data); [|discriminate]. cbn [bind].
  destruct (Buf.get data off) as [b|]; [|reflexivity]. cbn [of_host bind].
  destruct (Z.eqb_spec b 0xff); [|reflexivity].
  destruct (_ <=? _); [|discriminate]. cbn [bind].
  destruct (encoding.readU64 _ _); try discriminate. cbn [bind].
  destruct (_ <? _); [|discriminate]. cbn [bind].
  intros [= <-]. cbn. congruence.
Qed.

(** X12. Varint scheme A on pairs of words, written and read back over
    the whole unsigned 64-bit range. For an unsigned [num] made of two
    32-bit words, [writeVarintN] writes the [sizeVarintN num] bytes and
    [readVarintN] returns [num] and that size from them, also when the
    number is 2^53 or more, which [readVarint] refuses. *)
Theorem readVarintN_writeVarintN (dst : Buffer) (num : N64.t) (off size : Z)
    (Hsign : N64.sign num = 0)
    (Hhi : - 2 ^ 31 <= N64.hi num < 2 ^ 31)
    (Hlo : - 2 ^ 31 <= N64.lo num < 2 ^ 31)
    (Hsize : encoding.sizeVarintN num = Ok size)
    (Hoff : 0 <= off)
    (Hroom : off + size <= Buf.len dst) :
  exists out,
    encoding.writeVarintN dst num off = (out, Ok (off + size))
    /\ Buf.len out = Buf.len dst
    /\ encoding.readVarintN out off = Ok (encoding.mkVarint size num).
Proof.
  destruct num as [hi lo sign]. cbn [N64.sign N64.hi N64.lo] in *. subst sign.
  revert Hsize. unfold encoding.sizeVarintN, encoding.writeVarintN,
    encoding.enforce.
  cbn [N64.sign N64.hi N64.lo JS.truthy Z.eqb negb bind encoding.guarded].
  destruct (Z.eqb_spec hi 0) as [->|Hnz]; cbn [negb]; intros [= <-].
  - unfold N64.toInt in *. cbn [N64.sign N64.lo JS.truthy Z.eqb negb] in *.
    pose proof (Z.mod_pos_bound lo (2 ^ 32) ltac:(lia)) as Hu.
    fold (JS.toUint32 lo) in Hu. change (2 ^ 32) with 4294967296 in Hu.
    destruct (readVarint_writeVarint dst (JS.toUint32 lo) off)
      as (out & Hw & Hl & Hr); [unfold JS.MAX_SAFE_INTEGER; lia|lia|lia|].
    exists out. split; [exact Hw|]. split; [exact Hl|].
    unfold encoding.readVarintN, encoding.check.
    assert (Hs : 1 <= encoding.sizeVarint (JS.toUint32 lo) <= 5).
    { unfold encoding.sizeVarint.
      repeat match goal with
             | |- context [?a <? ?b] => destruct (Z.ltb_spec a b)
             | |- context [?a <=? ?b] => destruct (Z.leb_spec a b)
             end; lia. }
    destruct (Z.ltb_spec off (Buf.len out)); [|lia]. cbn [bind].
    rewrite (readVarint_first_byte _ _ _ Hr) by (cbn; lia).
    rewrite Hr. cbn [bind encoding.size encoding.value].
    unfold N64.fromInt. cbn [JS.truthy Z.eqb negb andb].
    now rewrite toInt32_toUint32.
  - unfold encoding.writeU64N, encoding.enforce, encoding.returned, N64.writeLE.
    cbn [N64.sign N64.hi N64.lo JS.truthy Z.eqb negb bind encoding.guarded
         fst snd].
    eexists. split; [f_equal; f_equal; lia|].
    split; [now rewrite len_store, len_set|].
    unfold encoding.readVarintN, encoding.check.
    rewrite len_store, len_set.
    destruct (Z.ltb_spec off (Buf.len dst)); [|lia]. cbn [bind].
    change (Buf.store (Buf.set dst off 255) (off + 1)
              (Buf.le_bytes 4 lo ++ Buf.le_bytes 4 hi))
      with (Buf.store dst off (255 :: Buf.le_bytes 4 lo ++ Buf.le_bytes 4 hi)).
    rewrite (get_store dst off _ 0 255)
      by (try reflexivity; try lia;
          cbn [length]; rewrite length_app, !length_le_bytes; lia).
    change (255 mod 256 =? 255) with true. cbv iota.
    destruct (Z.leb_spec (off + 9) (Buf.len dst)); [|lia]. cbn [bind].
    change (Buf.store dst off (255 :: Buf.le_bytes 4 lo ++ Buf.le_bytes 4 hi))
      with (Buf.store (Buf.set dst off 255) (off + 1)
              (Buf.le_bytes 4 lo ++ Buf.le_bytes 4 hi)).
    destruct (words_of_store (Buf.set dst off 255) (off + 1) lo hi)
      as [H1 H2]; [lia|rewrite len_set; lia|].
    unfold encoding.readU64N, N64.readLE. rewrite H1, H2.
    cbn [of_host bind N64.hi]. rewrite !toInt32_toUint32 by assumption.
    unfold encoding.enforce.
    destruct (Z.eqb_spec hi 0); [contradiction|]. reflexivity.
Qed.

Lemma readVarintN_writeVarintN_witness :
  exists out,
    encoding.writeVarintN (zeros 9) N64.UINT64_MAX 0 = (out, Ok (0 + 9))
    /\ Buf.len out = Buf.len (zeros 9)
    /\ encoding.readVarintN out 0 = Ok (encoding.mkVarint 9 N64.UINT64_MAX).
Proof.
  apply (readVarintN_writeVarintN (zeros 9) N64.UINT64_MAX 0 9);
    try reflexivity; try lia;
    try (vm_compute; discriminate);
    (split; [vm_compute; discriminate | vm_compute; reflexivity]).
Defined.

(** *** Scheme B on pairs of words *)

Lemma writeVarint2N_loop_eq (num : N64.t) (len : nat) (tmp : list Z) :
  encoding.writeVarint2N_loop num len tmp
  = let d := JS.bor (N64.andln num 0x7f) (if (len =? 0)%nat then 0x00 else 0x80) in
    if N64.lten num 0x7f then (tmp ++ [d], len)
    else encoding.writeVarint2N_loop (encoding.varint2N_next num) (len + 1)%nat
           (tmp ++ [d]).
Proof.
  rewrite encoding.writeVarint2N_loop_equation_1. cbv zeta.
  destruct (sumbool_of_bool (N64.lten num 127)) as [E|E];
    unfold encoding.writeVarint2N_loop_unfold_clause_1; rewrite E; reflexivity.
Qed.

Lemma sizeVarint2N_loop_eq (num : N64.t) (size : Z) :
  encoding.sizeVarint2N_loop num size
  = if N64.lten num 0x7f then size + 1
    else encoding.sizeVarint2N_loop (encoding.varint2N_next num) (size + 1).
Proof.
  rewrite encoding.sizeVarint2N_loop_equation_1.
  destruct (sumbool_of_bool (N64.lten num 127)) as [E|E];
    unfold encoding.sizeVarint2N_loop_unfold_clause_1; rewrite E; reflexivity.
Qed.

Lemma uval_range (n : N64.t) : 0 <= N64.uval n < 2 ^ 64.
Proof.
  unfold N64.uval, JS.toUint32.
  change (2 ^ 64) with 18446744073709551616. change (2 ^ 32) with 4294967296.
  Z.div_mod_to_equations. lia.
Qed.

Lemma uval_of_val (s v : Z) : 0 <= v < 2 ^ 64 -> N64.uval (N64.of_val s v) = v.
Proof.
  intros Hv. unfold N64.uval, N64.of_val. cbn [N64.hi N64.lo].
  rewrite !toUint32_toInt32.
  change (2 ^ 64) with 18446744073709551616 in Hv.
  change (2 ^ 32) with 4294967296.
  Z.div_mod_to_equations. lia.
Qed.

Lemma val_of_val_unsigned (v : Z) :
  0 <= v < 2 ^ 64 -> N64.val (N64.of_val 0 v) = v.
Proof. intros Hv. unfold N64.val. cbn. now apply uval_of_val. Qed.

Lemma of_val_uval (n : N64.t) :
  N64.sign n = 0 -> - 2 ^ 31 <= N64.hi n < 2 ^ 31 -> - 2 ^ 31 <= N64.lo n < 2 ^ 31 ->
  N64.of_val 0 (N64.uval n) = n.
Proof.
  destruct n as [hi lo sign]. cbn [N64.sign N64.hi N64.lo]. intros -> Hhi Hlo.
  unfold N64.of_val, N64.uval. cbn [N64.hi N64.lo]. f_equal.
  - rewrite <- (toInt32_toUint32 hi) at 2 by exact Hhi. f_equal.
    unfold JS.toUint32. change (2 ^ 32) with 4294967296.
    Z.div_mod_to_equations. lia.
  - rewrite <- (toInt32_toUint32 lo) at 2 by exact Hlo.
    unfold JS.toInt32, JS.toUint32.
    change (2 ^ 31) with 2147483648. change (2 ^ 32) with 4294967296.
    Z.div_mod_to_equations. lia.
Qed.

(** One round of the loops on a pair of words is one round of the loops
    on its value. *)
Lemma varint2N_next_value (num : N64.t) :
  N64.sign num = 0 -> ~ N64.uval num <= 0x7f ->
  N64.sign (encoding.varint2N_next num) = 0
  /\ N64.uval (encoding.varint2N_next num) = encoding.varint2_next (N64.uval num).
Proof.
  intros Hs Hbig. pose proof (uval_range num) as Hr.
  change (2 ^ 64) with 18446744073709551616 in Hr.
  unfold encoding.varint2N_next, N64.isubn, N64.ishrn.
  cbn [N64.sign N64.of_val]. split; [exact Hs|].
  unfold N64.val at 2. rewrite Hs. cbn [JS.truthy Z.eqb negb].
  change (2 ^ 7) with 128.
  rewrite encoding.N64_val_of_val
    by (change (2 ^ 63) with 9223372036854775808; Z.div_mod_to_equations; lia).
  rewrite uval_of_val
    by (change (2 ^ 64) with 18446744073709551616; Z.div_mod_to_equations; lia).
  now rewrite varint2_next_nonneg by lia.
Qed.

Lemma andln_value (num : N64.t) : N64.andln num 0x7f = JS.band (N64.uval num) 0x7f.
Proof.
  unfold N64.andln. rewrite !band_7f. unfold N64.uval, JS.toUint32.
  change (2 ^ 32) with 4294967296. Z.div_mod_to_equations. lia.
Qed.

Lemma lten_value (num : N64.t) :
  N64.sign num = 0 -> N64.lten num 0x7f = (N64.uval num <=? 0x7f).
Proof. intros Hs. unfold N64.lten, N64.val. now rewrite Hs. Qed.

Lemma writeVarint2N_loop_value (n : nat) :
  forall num, N64.sign num = 0 -> (Z.to_nat (Z.log2 (N64.uval num)) <= n)%nat ->
  forall (len : nat) (tmp : list Z),
  encoding.writeVarint2N_loop num len tmp
  = encoding.writeVarint2_loop (N64.uval num) len tmp.
Proof.
  induction n as [|n IH]; intros num Hs Hn len tmp;
    rewrite writeVarint2N_loop_eq, writeVarint2_loop_eq; cbv zeta;
    rewrite andln_value, lten_value by exact Hs;
    destruct (Z_le_dec (N64.uval num) 127) as [Hsm|Hbig];
    (destruct (Z.leb_spec (N64.uval num) 127); [|try lia]); try reflexivity;
    try lia.
  - pose proof (encoding.varint2_next_decreases _ Hbig). lia.
  - destruct (varint2N_next_value num Hs Hbig) as [Hs' Hu'].
    rewrite IH, Hu'; [reflexivity|exact Hs'|].
    pose proof (encoding.varint2_next_decreases _ Hbig). rewrite Hu'. lia.
Qed.

Lemma sizeVarint2N_loop_value (n : nat) :
  forall num, N64.sign num = 0 -> (Z.to_nat (Z.log2 (N64.uval num)) <= n)%nat ->
  forall size,
  encoding.sizeVarint2N_loop num size
  = encoding.sizeVarint2_loop (N64.uval num) size.
Proof.
  induction n as [|n IH]; intros num Hs Hn size;
    rewrite sizeVarint2N_loop_eq, sizeVarint2_loop_eq;
    rewrite lten_value by exact Hs;
    destruct (Z_le_dec (N64.uval num) 127) as [Hsm|Hbig];
    (destruct (Z.leb_spec (N64.uval num) 127); [|try lia]); try reflexivity;
    try lia.
  - pose proof (encoding.varint2_next_decreases _ Hbig). lia.
  - destruct (varint2N_next_value num Hs Hbig) as [Hs' Hu'].
    rewrite IH, Hu'; [reflexivity|exact Hs'|].
    pose proof (encoding.varint2_next_decreases _ Hbig). rewrite Hu'. lia.
Qed.

Lemma lor_low (x d : Z) : 0 <= x -> 0 <= d < 128 -> Z.lor (x * 128) d = x * 128 + d.
Proof.
  intros Hx Hd. change 128 with (2 ^ 7).
  rewrite <- Z.shiftl_mul_pow2 by lia.
  assert (Hl : Z.land (Z.shiftl x 7) d = 0).
  { apply Z.bits_inj'. intros k Hk. rewrite Z.land_spec, Z.bits_0.
    destruct (Z.ltb_spec k 7).
    - now rewrite Z.shiftl_spec_low by lia.
    - rewrite (Z.bits_above_log2 d k), andb_false_r; [reflexivity|lia|].
      destruct (Z.eq_dec d 0) as [->|]; [cbn; lia|].
      assert (Z.log2 d < 7) by (apply Z.log2_lt_pow2; lia). lia. }
  rewrite <- (Z.lxor_lor _ _ Hl). symmetry. now apply Z.add_nocarry_lxor.
Qed.

Lemma BASE128_MAX_value : N64.val encoding.BASE128_MAX = 2 ^ 57 - 1.
Proof. vm_compute. reflexivity. Qed.

(** One round of the loop of [readVarint2N], on the value that the
    accumulator stands for. *)
Lemma readVarint2N_step (b : byte) (ys : list byte) (off x size : Z) :
  0 <= x < 2 ^ 64 ->
  encoding.readVarint2N_loop (b :: ys) off (N64.of_val 0 x) size
  = if x <=? 2 ^ 57 - 1 then
      let y := x * 128 + Z_of_byte b mod 128 in
      if Z_of_byte b <? 128 then
        Ok (encoding.mkVarint (size + 1) (N64.of_val 0 y))
      else if y =? 2 ^ 64 - 1 then
        Throw (EncodingError (off + 1) "Number exceeds 2^64-1")
      else
        encoding.readVarint2N_loop ys (off + 1) (N64.of_val 0 (y + 1)) (size + 1)
    else Throw (EncodingError (off + 1) "Number exceeds 2^64-1").
Proof.
  intros Hx. cbn [encoding.readVarint2N_loop].
  pose proof (Z_of_byte_range b) as Hb.
  unfold N64.lte. rewrite val_of_val_unsigned, BASE128_MAX_value by exact Hx.
  unfold encoding.enforce.
  change (2 ^ 64) with 18446744073709551616 in *.
  change (2 ^ 57) with 144115188075855872.
  destruct (Z.leb_spec x (144115188075855872 - 1)) as [Hg|Hg]; [|reflexivity].
  cbn [bind]. rewrite band_7f, band_flag by exact Hb.
  assert (Hy : 0 <= x * 128 + Z_of_byte b mod 128 < 18446744073709551616)
    by (Z.div_mod_to_equations; lia).
  assert (Hnum : N64.iorn (N64.ishln (N64.of_val 0 x) 7) (Z_of_byte b mod 128)
                 = N64.of_val 0 (x * 128 + Z_of_byte b mod 128)).
  { unfold N64.iorn, N64.ishln. cbn [N64.sign N64.of_val].
    rewrite (val_of_val_unsigned x)
      by (change (2 ^ 64) with 18446744073709551616; lia).
    change (2 ^ 7) with 128.
    rewrite val_of_val_unsigned
      by (change (2 ^ 64) with 18446744073709551616; lia).
    rewrite toInt32_small
      by (change (2 ^ 31) with 2147483648; Z.div_mod_to_equations; lia).
    rewrite lor_low by (Z.div_mod_to_equations; lia). reflexivity. }
  rewrite Hnum. cbv zeta.
  destruct (Z.ltb_spec (Z_of_byte b) 128); [reflexivity|].
  change (128 =? 0) with false. cbv iota.
  unfold N64.eq. rewrite uval_of_val
    by (change (2 ^ 64) with 18446744073709551616; lia).
  change (N64.uval N64.UINT64_MAX) with (18446744073709551616 - 1).
  destruct (Z.eqb_spec (x * 128 + Z_of_byte b mod 128) (18446744073709551616 - 1));
    [reflexivity|].
  cbn [negb bind]. unfold N64.iaddn. cbn [N64.sign N64.of_val].
  rewrite val_of_val_unsigned
    by (change (2 ^ 64) with 18446744073709551616; lia).
  reflexivity.
Qed.

(** The continuation digits of scheme B, read by the loop of
    [readVarint2N]: as [continuation_digits], up to 2^64. *)
Lemma continuation_digitsN (num : Z) :
  0 <= num < 2 ^ 64 - 1 ->
  forall (len : nat) (tmp : list Z), len <> 0%nat ->
  exists (E : list Z) (k : nat),
    encoding.writeVarint2_loop num len tmp = (tmp ++ E, (len + k)%nat)
    /\ length E = S k
    /\ (forall ys off size,
          encoding.readVarint2N_loop (bytes_of (rev E) ++ ys) off
            (N64.of_val 0 0) size
          = encoding.readVarint2N_loop ys (off + Z.of_nat (S k))
              (N64.of_val 0 (num + 1)) (size + Z.of_nat (S k))).
Proof.
  intros [H0 Hmax]. revert Hmax. pattern num.
  apply Zlt_0_ind; [|exact H0].
  clear num H0. intros num IH H0 Hmax len tmp Hlen.
  change (2 ^ 64) with 18446744073709551616 in *.
  rewrite writeVarint2_loop_eq. cbv zeta.
  destruct (Nat.eqb_spec len 0); [contradiction|].
  rewrite band_7f, bor_flag by (Z.div_mod_to_equations; lia).
  assert (Hstep : forall ys off x size,
            0 <= x <= 2 ^ 57 - 1 -> x * 128 + num mod 128 = num ->
            encoding.readVarint2N_loop (byte_of_Z (num mod 128 + 128) :: ys) off
              (N64.of_val 0 x) size
            = encoding.readVarint2N_loop ys (off + 1) (N64.of_val 0 (num + 1))
                (size + 1)).
  { intros ys off x size Hx Hnum.
    change (2 ^ 57) with 144115188075855872 in Hx.
    rewrite readVarint2N_step
      by (change (2 ^ 64) with 18446744073709551616; lia).
    change (2 ^ 57) with 144115188075855872.
    change (2 ^ 64) with 18446744073709551616.
    destruct (Z.leb_spec x (144115188075855872 - 1)); [|lia]. cbv zeta.
    rewrite Z_of_byte_of_Z.
    rewrite (Z.mod_small (num mod 128 + 128))
      by (Z.div_mod_to_equations; lia).
    destruct (Z.ltb_spec (num mod 128 + 128) 128);
      [Z.div_mod_to_equations; lia|].
    replace ((num mod 128 + 128) mod 128) with (num mod 128)
      by (Z.div_mod_to_equations; lia).
    rewrite Hnum.
    destruct (Z.eqb_spec num (18446744073709551616 - 1)); [lia|reflexivity]. }
  destruct (Z_le_dec num 127) as [Hs|Hs].
  - exists [num mod 128 + 128], 0%nat. rewrite Nat.add_0_r.
    repeat match goal with |- _ /\ _ => split end; try reflexivity.
    intros ys off size. cbn [rev app bytes_of fmap list_fmap].
    rewrite (Hstep ys off 0 size)
      by (change (2 ^ 57) with 144115188075855872;
          Z.div_mod_to_equations; lia).
    reflexivity.
  - rewrite varint2_next_nonneg by lia.
    destruct (IH (num / 128 - 1)) with (len := (len + 1)%nat)
      (tmp := tmp ++ [num mod 128 + 128]) as (E & k & Hloop & HlenE & Hread);
      try (Z.div_mod_to_equations; lia); try lia.
    exists ((num mod 128 + 128) :: E), (S k).
    repeat match goal with |- _ /\ _ => split end.
    + rewrite Hloop, <- app_assoc. f_equal. lia.
    + cbn. now rewrite HlenE.
    + intros ys off size. cbn [rev]. unfold bytes_of.
      rewrite fmap_app, <- app_assoc. fold (bytes_of (rev E)).
      rewrite Hread. cbn [fmap list_fmap app].
      replace (num / 128 - 1 + 1) with (num / 128) by lia.
      rewrite (Hstep ys _ (num / 128) _)
        by (change (2 ^ 57) with 144115188075855872;
            Z.div_mod_to_equations; lia).
      f_equal; lia.
Qed.

(** What [readVarint2N] makes of the digits of a value below 2^64. *)
Lemma varint2N_read_back (u : Z) (E : list Z) (k : nat) :
  0 <= u < 2 ^ 64 ->
  encoding.writeVarint2_loop u 0 [] = (E, k) ->
  forall ys off,
  encoding.readVarint2N_loop (bytes_of (rev E) ++ ys) off (N64.of_val 0 0) 0
  = Ok (encoding.mkVarint (Z.of_nat (S k)) (N64.of_val 0 u)).
Proof.
  intros Hu Hloop ys off. change (2 ^ 64) with 18446744073709551616 in Hu.
  rewrite writeVarint2_loop_eq in Hloop. cbv zeta in Hloop.
  cbn [Nat.eqb app] in Hloop. rewrite band_7f, bor_0 in Hloop.
  rewrite toInt32_small in Hloop
    by (change (2 ^ 31) with 2147483648; Z.div_mod_to_equations; lia).
  assert (Hlast : forall o x size,
            0 <= x <= 2 ^ 57 - 1 -> x * 128 + u mod 128 = u ->
            encoding.readVarint2N_loop (byte_of_Z (u mod 128) :: ys) o
              (N64.of_val 0 x) size
            = Ok (encoding.mkVarint (size + 1) (N64.of_val 0 u))).
  { intros o x size Hx Hnum. change (2 ^ 57) with 144115188075855872 in Hx.
    rewrite readVarint2N_step
      by (change (2 ^ 64) with 18446744073709551616; lia).
    change (2 ^ 57) with 144115188075855872.
    destruct (Z.leb_spec x (144115188075855872 - 1)); [|lia]. cbv zeta.
    rewrite Z_of_byte_of_Z.
    rewrite (Z.mod_small (u mod 128) 256) by (Z.div_mod_to_equations; lia).
    rewrite Z.mod_mod by lia.
    destruct (Z.ltb_spec (u mod 128) 128); [|Z.div_mod_to_equations; lia].
    now rewrite Hnum. }
  destruct (Z_le_dec u 127) as [Hs|Hs].
  - injection Hloop as <- <-. cbn [rev app bytes_of fmap list_fmap].
    apply (Hlast off 0 0);
      [change (2 ^ 57) with 144115188075855872; lia
      | Z.div_mod_to_equations; lia].
  - rewrite varint2_next_nonneg in Hloop by lia.
    destruct (continuation_digitsN (u / 128 - 1)) with
      (len := 1%nat) (tmp := [u mod 128]) as (E' & k' & Hloop' & HlenE & Hread);
      [change (2 ^ 64) with 18446744073709551616;
       Z.div_mod_to_equations; lia | lia |].
    change (0 + 1)%nat with 1%nat in Hloop. rewrite Hloop' in Hloop.
    injection Hloop as <- <-. cbn [rev app].
    unfold bytes_of. rewrite fmap_app, <- app_assoc. fold (bytes_of (rev E')).
    rewrite Hread. cbn [fmap list_fmap app].
    replace (u / 128 - 1 + 1) with (u / 128) by lia.
    rewrite (Hlast _ (u / 128))
      by (change (2 ^ 57) with 144115188075855872;
          Z.div_mod_to_equations; lia).
    do 2 f_equal. lia.
Qed.

(** X13. Varint scheme B on pairs of words, written and read back over
    the whole unsigned 64-bit range. For an unsigned [num] made of two
    32-bit words, [writeVarint2N] writes the [sizeVarint2N num] bytes
    and [readVarint2N] returns [num] and that size from them: here no
    number is left out, while [readVarint2] refuses the largest safe
    integers. *)
Theorem readVarint2N_writeVarint2N (dst : Buffer) (num : N64.t) (off size : Z)
    (Hsign : N64.sign num = 0)
    (Hhi : - 2 ^ 31 <= N64.hi num < 2 ^ 31)
    (Hlo : - 2 ^ 31 <= N64.lo num < 2 ^ 31)
    (Hsize : encoding.sizeVarint2N num = Ok size)
    (Hoff : 0 <= off)
    (Hroom : off + size <= Buf.len dst) :
  exists out,
    encoding.writeVarint2N dst num off = (out, Ok (off + size))
    /\ Buf.len out = Buf.len dst
    /\ encoding.readVarint2N out off = Ok (encoding.mkVarint size num).
Proof.
  pose proof (uval_range num) as Hu.
  destruct (varint2_count (N64.uval num)) as (E & k & Hloop & HlenE & Hsz).
  assert (Hint : N64.hi num = 0 -> N64.toInt num = N64.uval num).
  { intros H0. unfold N64.toInt, N64.uval. rewrite Hsign, H0.
    cbn [JS.truthy Z.eqb negb]. unfold JS.toUint32 at 2.
    change (0 mod 2 ^ 32) with 0. lia. }
  assert (Hsize' : size = Z.of_nat (S k)).
  { revert Hsize. unfold encoding.sizeVarint2N, encoding.enforce.
    rewrite Hsign. cbn [JS.truthy Z.eqb negb bind].
    destruct (Z.eqb_spec (N64.hi num) 0) as [H0|H0]; intros [= <-].
    - now rewrite Hint.
    - unfold N64.clone.
      rewrite (sizeVarint2N_loop_value _ num Hsign (le_n _)).
      exact Hsz. }
  subst size.
  assert (Hwrite : encoding.writeVarint2N dst num off
                   = (Buf.store dst off (rev E), Ok (off + Z.of_nat (S k)))).
  { unfold encoding.writeVarint2N, encoding.enforce.
    rewrite Hsign. cbn [JS.truthy Z.eqb negb encoding.guarded].
    destruct (Z.eqb_spec (N64.hi num) 0) as [H0|H0].
    - rewrite Hint by exact H0. unfold encoding.writeVarint2.
      rewrite Hloop. unfold encoding.check, encoding.guarded, encoding.returned.
      destruct (Z.leb_spec (off + Z.of_nat k + 1) (Buf.len dst)); [|lia].
      rewrite writeVarint2_emit_stores by lia. cbn [fst snd].
      now rewrite take_ge by lia.
    - unfold N64.clone.
      rewrite (writeVarint2N_loop_value _ num Hsign (le_n _)), Hloop.
      unfold encoding.guarded, encoding.returned.
      destruct (Z.leb_spec (off + Z.of_nat k + 1) (Buf.len dst)); [|lia].
      rewrite writeVarint2_emit_stores by lia. cbn [fst snd].
      now rewrite take_ge by lia. }
  exists (Buf.store dst off (rev E)).
  split; [exact Hwrite|]. split; [apply len_store|].
  unfold encoding.readVarint2N. destruct (Z.ltb_spec off 0); [lia|].
  rewrite store_at by (rewrite ?length_rev; lia).
  unfold Buf.len in Hroom.
  rewrite drop_app_length' by (rewrite length_take; lia).
  change (N64.zero 0) with (N64.of_val 0 0).
  rewrite (varint2N_read_back _ _ _ Hu Hloop).
  now rewrite of_val_uval.
Qed.

Lemma readVarint2N_writeVarint2N_witness :
  exists out,
    encoding.writeVarint2N (zeros 10) N64.UINT64_MAX 0 = (out, Ok (0 + 10))
    /\ Buf.len out = Buf.len (zeros 10)
    /\ encoding.readVarint2N out 0 = Ok (encoding.mkVarint 10 N64.UINT64_MAX).
Proof.
  apply (readVarint2N_writeVarint2N (zeros 10) N64.UINT64_MAX 0 10);
    try reflexivity; try lia;
    try (vm_compute; discriminate);
    (split; [vm_compute; discriminate | vm_compute; reflexivity]).
Defined.

(** ** The three writers side by side *)

Lemma host_write_ok (be : bool) (width : nat) (lo hi : Z)
    (d : Buffer) (value off : Z) (d' : Buffer) (o : Z) :
  host_write d (Buf.write_int be width lo hi d value off) = (d', Ok o) ->
  o = off + Z.of_nat width /\ 0 <= off /\ o <= Buf.len d.
Proof.
  destruct (Buf.write_int be width lo hi d value off) as [[d1 o1]|] eqn:E;
    [|discriminate].
  cbn [host_write]. intros [= <- <-].
  apply write_int_inv in E as (_ & -> & H0 & H1 & _). lia.
Qed.

Lemma write64_ok (dst : Buffer) (num off : Z) (be : bool) (d : Buffer) (o : Z) :
  encoding.write64 dst num off be = (d, Ok o) ->
  o = off + 8 /\ 0 <= off /\ o <= Buf.len dst.
Proof.
  unfold encoding.write64.
  match goal with |- context [let '(a, b) := ?p in _] => destruct p as [hi lo] end.
  unfold Buf.writeInt32BE, Buf.writeInt32LE.
  destruct be.
  - destruct (host_write dst (Buf.write_int true 4 _ _ dst hi off))
      as [d1 [o1| |]] eqn:E1; try discriminate.
    cbn [wbind]. intros E2.
    pose proof (len_host_write_int true 4 (-0x80000000) 0x7fffffff dst hi off) as Hl.
    rewrite E1 in Hl. cbn [fst] in Hl.
    apply host_write_ok in E1 as (-> & H0 & H1).
    apply host_write_ok in E2 as (-> & _ & H2).
    change (Z.of_nat 4) with 4 in *. lia.
  - destruct (host_write dst (Buf.write_int false 4 _ _ dst lo off))
      as [d1 [o1| |]] eqn:E1; try discriminate.
    cbn [wbind]. intros E2.
    pose proof (len_host_write_int false 4 (-0x80000000) 0x7fffffff dst lo off) as Hl.
    rewrite E1 in Hl. cbn [fst] in Hl.
    apply host_write_ok in E1 as (-> & H0 & H1).
    apply host_write_ok in E2 as (-> & _ & H2).
    change (Z.of_nat 4) with 4 in *. lia.
Qed.

Lemma guarded_ok (dst : Buffer) (g : bool) (off : Z) (reason : string)
    (k : written Z) (d : Buffer) (o : Z) :
  encoding.guarded dst (encoding.enforce g off reason) k = (d, Ok o) ->
  g = true /\ k = (d, Ok o).
Proof. destruct g; cbn; [auto|discriminate]. Qed.

Lemma writeN_ok (dst : Buffer) (num : N64.t) (off : Z) (d : Buffer) (o : Z) :
  encoding.writeU64N dst num off = (d, Ok o)
  \/ encoding.writeU64BEN dst num off = (d, Ok o)
  \/ encoding.writeI64N dst num off = (d, Ok o)
  \/ encoding.writeI64BEN dst num off = (d, Ok o) ->
  o = off + 8.
Proof.
  unfold encoding.writeU64N, encoding.writeU64BEN, encoding.writeI64N,
    encoding.writeI64BEN, encoding.returned, N64.writeLE, N64.writeBE.
  intros [Hw|[Hw|[Hw|Hw]]]; apply guarded_ok in Hw as [_ Hw];
    cbn [fst snd] in Hw; now injection Hw as _ <-.
Qed.

Lemma sizeVarint_pos (v : Z) : 1 <= encoding.sizeVarint v.
Proof.
  unfold encoding.sizeVarint.
  destruct (_ <? _); [lia|]. destruct (_ <=? _); [lia|].
  destruct (_ <=? _); lia.
Qed.

Lemma writeVarint_ok (dst : Buffer) (v off : Z) (d : Buffer) (o : Z) :
  encoding.writeVarint dst v off = (d, Ok o) -> o = off + encoding.sizeVarint v.
Proof.
  unfold encoding.writeVarint, encoding.sizeVarint.
  destruct (_ <? _); [now intros [= _ <-]|].
  destruct (_ <=? _); [now intros [= _ <-]|].
  destruct (_ <=? _); [now intros [= _ <-]|].
  unfold encoding.writeU64. intros (-> & _)%write64_ok. lia.
Qed.

Lemma writeVarintN_ok (dst : Buffer) (num : N64.t) (off : Z) (d : Buffer) (o : Z) :
  encoding.writeVarintN dst num off = (d, Ok o) ->
  exists n, encoding.sizeVarintN num = Ok n /\ o = off + n /\ 1 <= n.
Proof.
  unfold encoding.writeVarintN, encoding.sizeVarintN.
  intros [Hs Hw]%guarded_ok. rewrite Hs. cbn [encoding.enforce bind].
  destruct (negb (N64.hi num =? 0)).
  - exists 9. split; [reflexivity|]. split; [|lia].
    rewrite (writeN_ok _ _ _ _ _ (or_introl Hw)). lia.
  - eexists. split; [reflexivity|]. split; [|apply sizeVarint_pos].
    now apply writeVarint_ok in Hw.
Qed.

Lemma writeVarint2_ok (dst : Buffer) (v off : Z) (d : Buffer) (o : Z) :
  encoding.writeVarint2 dst v off = (d, Ok o) ->
  o = off + encoding.sizeVarint2 v /\ 1 <= encoding.sizeVarint2 v.
Proof.
  destruct (varint2_count v) as (E & k & Hloop & HlenE & Hsz).
  unfold encoding.writeVarint2. rewrite Hloop, Hsz.
  unfold encoding.check, encoding.guarded, encoding.returned.
  destruct (_ <=? _); [|discriminate].
  rewrite writeVarint2_emit_stores by lia. cbn [fst snd].
  intros [= _ <-]. lia.
Qed.

Lemma truthy_false (s : Z) : negb (JS.truthy s) = true -> s = 0.
Proof. unfold JS.truthy. destruct (Z.eqb_spec s 0); [auto|discriminate]. Qed.

Lemma writeVarint2N_ok (dst : Buffer) (num : N64.t) (off : Z) (d : Buffer) (o : Z) :
  encoding.writeVarint2N dst num off = (d, Ok o) ->
  exists n, encoding.sizeVarint2N num = Ok n /\ o = off + n /\ 1 <= n.
Proof.
  unfold encoding.writeVarint2N, encoding.sizeVarint2N.
  intros [Hs Hw]%guarded_ok. rewrite Hs. cbn [encoding.enforce bind].
  apply truthy_false in Hs.
  destruct (N64.hi num =? 0).
  - eexists. split; [reflexivity|]. now apply writeVarint2_ok in Hw.
  - unfold N64.clone in *.
    rewrite (writeVarint2N_loop_value _ num Hs (le_n _)) in Hw.
    rewrite (sizeVarint2N_loop_value _ num Hs (le_n _)).
    destruct (varint2_count (N64.uval num)) as (E & k & Hloop & HlenE & Hsz).
    rewrite Hloop in Hw. unfold encoding.sizeVarint2 in Hsz. rewrite Hsz.
    apply guarded_ok in Hw as [_ Hw]. unfold encoding.returned in Hw.
    rewrite writeVarint2_emit_stores in Hw by lia. cbn [fst snd] in Hw.
    injection Hw as _ <-. eexists. split; [reflexivity|]. lia.
Qed.


Section Side_by_side.
Context `{Host}.

Lemma assign_ok (w w' : StaticWriter.t) (r : written Z) :
  StaticWriter.assign w r = (w', Ok tt) ->
  r = (StaticWriter.data w', Ok (StaticWriter.offset w')).
Proof. destruct r as [d [o| |]]; cbn; intros [= <-]; reflexivity. Qed.

Lemma andthen_ok (m : StaticWriter.t * outcome unit)
    (k : StaticWriter.t -> StaticWriter.t * outcome unit) (w' : StaticWriter.t) :
  StaticWriter.andthen m k = (w', Ok tt) ->
  exists w1, m = (w1, Ok tt) /\ k w1 = (w', Ok tt).
Proof.
  destruct m as [w1 [[]| |]]; cbn; try discriminate. intros Hk. now exists w1.
Qed.

Lemma write_ok (data : Buffer) (value : string) (off : Z) (enc : option string)
    (d : Buffer) (n : Z) :
  write data value off enc = Some (d, n) ->
  n = byteLength value enc /\ 0 <= n.
Proof.
  unfold write, byteLength. destruct (Buf.fits _ _ _); [|discriminate].
  intros [= _ <-]. unfold Buf.len. lia.
Qed.

(** A call that returns on a Static Writer moves its offset by what the
    Size Writer counts for the call, and not backwards unless it is a
    [seek]. *)
Lemma static_counts (c : call) (w w' : StaticWriter.t) :
  invoke c w = (w', Ok tt) ->
  exists n,
    StaticWriter.offset w' = StaticWriter.offset w + n
    /\ match c with seek off => n = off | _ => 0 <= n end
    /\ forall sw : SizeWriter.t,
       exists sw', invoke c sw = (sw', Ok tt)
                   /\ SizeWriter.offset sw' = SizeWriter.offset sw + n.
Proof.
  intros Hst.
  assert (Hfixed : forall (r : written Z) (n : Z),
            StaticWriter.assign w r = (w', Ok tt) ->
            (forall d o, r = (d, Ok o) -> o = StaticWriter.offset w + n) ->
            StaticWriter.offset w' = StaticWriter.offset w + n).
  { intros r n Ha Hr. apply assign_ok in Ha. exact (Hr _ _ Ha). }
  assert (Hvia : forall be width lo hi value,
            StaticWriter.via (Buf.write_int be width lo hi) value w = (w', Ok tt) ->
            StaticWriter.offset w' = StaticWriter.offset w + Z.of_nat width).
  { intros be width lo hi value Ha. unfold StaticWriter.via in Ha.
    apply (Hfixed _ _ Ha). intros d o Hr.
    now apply host_write_ok in Hr as (-> & _). }
  assert (H64 : forall value be,
            StaticWriter.assign w
              (encoding.write64 (StaticWriter.data w) value
                 (StaticWriter.offset w) be) = (w', Ok tt) ->
            StaticWriter.offset w' = StaticWriter.offset w + 8).
  { intros value be Ha. apply (Hfixed _ _ Ha). intros d o Hr.
    now apply write64_ok in Hr as (-> & _). }
  destruct c; cbn [invoke StaticWriter_IWriter SizeWriter_IWriter done] in *.
  - injection Hst as <-. exists offset. split; [reflexivity|].
    split; [reflexivity|]. intros sw. eexists. split; reflexivity.
  - apply Hvia in Hst. exists 1. split; [exact Hst|]. split; [lia|].
    intros sw. eexists. split; reflexivity.
  - apply Hvia in Hst. exists 2. split; [exact Hst|]. split; [lia|].
    intros sw. eexists. split; reflexivity.
  - apply Hvia in Hst. exists 2. split; [exact Hst|]. split; [lia|].
    intros sw. eexists. split; reflexivity.
  - apply Hvia in Hst. exists 4. split; [exact Hst|]. split; [lia|].
    intros sw. eexists. split; reflexivity.
  - apply Hvia in Hst. exists 4. split; [exact Hst|]. split; [lia|].
    intros sw. eexists. split; reflexivity.
  - apply H64 in Hst. exists 8. split; [exact Hst|]. split; [lia|].
    intros sw. eexists. split; reflexivity.
  - apply H64 in Hst. exists 8. split; [exact Hst|]. split; [lia|].
    intros sw. eexists. split; reflexivity.
  - unfold StaticWriter.writeU64N in Hst. apply assign_ok in Hst.
    pose proof (writeN_ok _ _ _ _ _ (or_introl Hst)) as Ho.
    exists 8. split; [exact Ho|]. split; [lia|].
    intros sw. eexists. split; reflexivity.
  - unfold StaticWriter.writeU64BEN in Hst. apply assign_ok in Hst.
    pose proof (writeN_ok _ _ _ _ _ (or_intror (or_introl Hst))) as Ho.
    exists 8. split; [exact Ho|]. split; [lia|].
    intros sw. eexists. split; reflexivity.
  - apply Hvia in Hst. exists 1. split; [exact Hst|]. split; [lia|].
    intros sw. eexists. split; reflexivity.
  - apply Hvia in Hst. exists 2. split; [exact Hst|]. split; [lia|].
    intros sw. eexists. split; reflexivity.
  - apply Hvia in Hst. exists 2. split; [exact Hst|]. split; [lia|].
    intros sw. eexists. split; reflexivity.
  - apply Hvia in Hst. exists 4. split; [exact Hst|]. split; [lia|].
    intros sw. eexists. split; reflexivity.
  - apply Hvia in Hst. exists 4. split; [exact Hst|]. split; [lia|].
    intros sw. eexists. split; reflexivity.
  - apply H64 in Hst. exists 8. split; [exact Hst|]. split; [lia|].
    intros sw. eexists. split; reflexivity.
  - apply H64 in Hst. exists 8. split; [exact Hst|]. split; [lia|].
    intros sw. eexists. split; reflexivity.
  - unfold StaticWriter.writeI64N in Hst. apply assign_ok in Hst.
    pose proof (writeN_ok _ _ _ _ _
                  (or_intror (or_intror (or_introl Hst)))) as Ho.
    exists 8. split; [exact Ho|]. split; [lia|].
    intros sw. eexists. split; reflexivity.
  - unfold StaticWriter.writeI64BEN in Hst. apply assign_ok in Hst.
    pose proof (writeN_ok _ _ _ _ _
                  (or_intror (or_intror (or_intror Hst)))) as Ho.
    exists 8. split; [exact Ho|]. split; [lia|].
    intros sw. eexists. split; reflexivity.
  - unfold StaticWriter.writeVarint in Hst.
    apply assign_ok, writeVarint_ok in Hst.
    exists (encoding.sizeVarint value). split; [exact Hst|].
    split; [pose proof (sizeVarint_pos value); lia|].
    intros sw. eexists. split; reflexivity.
  - unfold StaticWriter.writeVarintN in Hst.
    apply assign_ok, writeVarintN_ok in Hst as (n & Hn & Ho & Hpos).
    exists n. split; [exact Ho|]. split; [lia|].
    intros sw. unfold SizeWriter.writeVarintN. rewrite Hn.
    eexists. split; reflexivity.
  - unfold StaticWriter.writeVarint2 in Hst.
    apply assign_ok, writeVarint2_ok in Hst as [Ho Hpos].
    exists (encoding.sizeVarint2 value). split; [exact Ho|]. split; [lia|].
    intros sw. exists (SizeWriter.writeVarint2 value sw).
    split; reflexivity.
  - unfold StaticWriter.writeVarint2N in Hst.
    apply assign_ok, writeVarint2N_ok in Hst as (n & Hn & Ho & Hpos).
    exists n. split; [exact Ho|]. split; [lia|].
    intros sw. unfold SizeWriter.writeVarint2N. rewrite Hn.
    eexists. split; reflexivity.
  - exists (Buf.len value). unfold StaticWriter.writeBytes in Hst.
    split; [|split; [unfold Buf.len; lia|intros sw; eexists; split; reflexivity]].
    destruct (Z.eqb_spec (Buf.len value) 0) as [Hz|Hz].
    + injection Hst as <-. lia.
    + destruct (Buf.copy _ _ _ _ _) as [[d cnt]|]; [|discriminate].
      now injection Hst as <-.
  - exists (encoding.sizeVarint (Buf.len value) + Buf.len value).
    unfold StaticWriter.writeVarBytes in Hst.
    apply andthen_ok in Hst as (w1 & H1 & H2).
    unfold StaticWriter.writeVarint in H1.
    apply assign_ok, writeVarint_ok in H1.
    split; [|split; [pose proof (sizeVarint_pos (Buf.len value));
                     unfold Buf.len in *; lia|]].
    + unfold StaticWriter.writeBytes in H2.
      destruct (Z.eqb_spec (Buf.len value) 0) as [Hz|Hz].
      * injection H2 as <-. lia.
      * destruct (Buf.copy _ _ _ _ _) as [[d cnt]|]; [|discriminate].
        injection H2 as <-. cbn [StaticWriter.offset]. lia.
    + intros sw. eexists. split; [reflexivity|]. cbn. lia.
  - unfold StaticWriter.writeString in Hst.
    unfold SizeWriter.writeString.
    destruct (String.length value =? 0)%nat.
    + injection Hst as <-. exists 0. split; [lia|]. split; [lia|].
      intros sw. exists sw. split; [reflexivity|lia].
    + destruct (write _ _ _ _) as [[d cnt]|] eqn:Hw; [|discriminate].
      injection Hst as <-. apply write_ok in Hw as [-> Hpos].
      exists (byteLength value enc). split; [reflexivity|]. split; [lia|].
      intros sw. eexists. split; reflexivity.
  - unfold StaticWriter.writeVarString in Hst.
    unfold SizeWriter.writeVarString.
    destruct (String.length value =? 0)%nat.
    + unfold StaticWriter.writeVarint in Hst.
      apply assign_ok, writeVarint_ok in Hst.
      exists 1. split; [exact Hst|]. split; [lia|].
      intros sw. eexists. split; reflexivity.
    + apply andthen_ok in Hst as (w1 & H1 & H2).
      unfold StaticWriter.writeVarint in H1.
      apply assign_ok, writeVarint_ok in H1.
      destruct (write _ _ _ _) as [[d cnt]|] eqn:Hw; [|discriminate].
      injection H2 as <-. apply write_ok in Hw as [-> Hpos].
      exists (encoding.sizeVarint (byteLength value enc) + byteLength value enc).
      split; [cbn [StaticWriter.offset]; lia|].
      split; [pose proof (sizeVarint_pos (byteLength value enc)); lia|].
      intros sw. eexists. split; [reflexivity|]. cbn. lia.
  - unfold StaticWriter.writeNullString in Hst.
    apply andthen_ok in Hst as (w1 & H1 & H2).
    unfold StaticWriter.writeU8, StaticWriter.via in H2.
    apply assign_ok, host_write_ok in H2 as (Ho & _ & _).
    unfold StaticWriter.writeString in H1.
    unfold SizeWriter.writeNullString, SizeWriter.writeString.
    destruct (String.length value =? 0)%nat.
    + injection H1 as <-. exists 1. split; [exact Ho|]. split; [lia|].
      intros sw. eexists. split; reflexivity.
    + destruct (write _ _ _ _) as [[d cnt]|] eqn:Hw; [|discriminate].
      injection H1 as <-. apply write_ok in Hw as [-> Hpos].
      exists (byteLength value enc + 1).
      split; [cbn [StaticWriter.offset] in Ho; change (Z.of_nat 1) with 1 in Ho; lia|].
      split; [lia|].
      intros sw. eexists. split; [reflexivity|]. cbn. lia.
  - unfold StaticWriter.writeChecksum in Hst.
    destruct (Buf.copy _ _ _ _ _) as [[d cnt]|]; [|discriminate].
    injection Hst as <-. exists 4. split; [reflexivity|]. split; [lia|].
    intros sw. eexists. split; reflexivity.
  - unfold StaticWriter.fill in Hst. exists size.
    destruct (Z.leb_spec 0 size); [|discriminate]. cbn [negb] in Hst.
    split; [|split; [lia|intros sw; eexists; split; reflexivity]].
    destruct (Z.eqb_spec size 0).
    + injection Hst as <-. lia.
    + destruct (Buf.fill _ _ _ _); [|discriminate]. now injection Hst as <-.
Qed.

Lemma static_run_counts (calls : list call) :
  forall (w w' : StaticWriter.t) (sw : SizeWriter.t),
  run calls w = (w', Ok tt) ->
  (exists sw',
     run calls sw = (sw', Ok tt)
     /\ SizeWriter.offset sw' - SizeWriter.offset sw
        = StaticWriter.offset w' - StaticWriter.offset w)
  /\ (Forall (fun c => match c with seek off => 0 <= off | _ => True end) calls ->
      StaticWriter.offset w <= StaticWriter.offset w').
Proof.
  induction calls as [|c calls IH]; intros w w' sw Hrun.
  - injection Hrun as <-. split; [exists sw; split; [reflexivity|lia]|lia].
  - cbn [run] in *.
    destruct (invoke c w) as [w1 [[]| |]] eqn:Hc; try discriminate.
    destruct (static_counts c w w1 Hc) as (n & Hn & Hpos & Hsw).
    destruct (Hsw sw) as (sw1 & Hsw1 & Hoff1). rewrite Hsw1.
    destruct (IH w1 w' sw1 Hrun) as [(sw' & Hsw' & Hoff') Hmono].
    split; [exists sw'; split; [exact Hsw'|lia]|].
    intros [Hc0 Hrest]%Forall_cons. specialize (Hmono Hrest).
    destruct c; lia.
Qed.


Lemma init_size_ok (size : Z) (w w0 : StaticWriter.t) :
  StaticWriter.init_size size w = (w0, Ok tt) ->
  0 <= size /\ Buf.len (StaticWriter.data w0) = size
  /\ StaticWriter.offset w0 = 0.
Proof.
  unfold StaticWriter.init_size, allocUnsafe.
  destruct (negb _); [discriminate|].
  destruct (Z.ltb_spec size 0); [discriminate|].
  intros [= <-]. cbn. unfold Buf.len.
  rewrite length_fmap, length_seq. lia.
Qed.

(** X15. [Struct.encode] with an exact size. When [getSize] returns
    what a Size Writer counts for the calls of [write], [encode] takes
    the Static Writer, and if the calls all return, so does [encode]: it
    returns the buffer allocated at the start, of that size, and the
    closing [render] cannot throw "Out of bounds write". A [getSize] of
    -1 sends the calls to a Buffer Writer instead. *)
Theorem encode_with_counted_size (s : Struct.t) (sw : SizeWriter.t)
    (w0 w : StaticWriter.t)
    (Hcount : run (Struct.write s) SizeWriter.create = (sw, Ok tt))
    (Hsize : Struct.getSize s = SizeWriter.getSize sw)
    (Hinit : StaticWriter.init_size (Struct.getSize s) StaticWriter.create
             = (w0, Ok tt))
    (Hrun : run (Struct.write s) w0 = (w, Ok tt)) :
  Struct.encode s = Ok (StaticWriter.data w)
  /\ Buf.len (StaticWriter.data w) = Struct.getSize s
  /\ (forall s' : Struct.t,
        Struct.getSize s' = -1 ->
        Struct.encode s'
        = Struct.finish (run (Struct.write s') BufferWriter.create)
            BufferWriter.render).
Proof.
  destruct (init_size_ok _ _ _ Hinit) as (Hpos & Hlen & Hoff0).
  destruct (static_run_counts _ w0 w SizeWriter.create Hrun)
    as [(sw' & Hsw' & Hoff) _].
  rewrite Hcount in Hsw'. injection Hsw' as <-.
  pose proof (static_run_capacity (Struct.write s) w0) as Hcap.
  rewrite Hrun in Hcap. cbn [fst] in Hcap.
  unfold SizeWriter.getSize in Hsize.
  cbn [SizeWriter.offset SizeWriter.create] in Hoff.
  split; [|split; [lia|]].
  - unfold Struct.encode. cbv zeta.
    destruct (Z.eqb_spec (Struct.getSize s) (-1)); [lia|].
    rewrite Hinit, Hrun. unfold Struct.finish, StaticWriter.render.
    destruct (Z.eqb_spec (StaticWriter.offset w) (Buf.len (StaticWriter.data w)));
      [reflexivity|lia].
  - intros s' Hs'. unfold Struct.encode. cbv zeta. now rewrite Hs'.
Qed.





End Side_by_side.


Lemma encode_with_counted_size_witness :
  Struct.encode (H := latin1) (Struct.mk 3 [writeVarBytes (bytes_of [5; 6])])
  = Ok (bytes_of [2; 5; 6])
  /\ Buf.len (bytes_of [2; 5; 6]) = 3.
Proof.
  destruct (encode_with_counted_size (H := latin1)
              (Struct.mk 3 [writeVarBytes (bytes_of [5; 6])])
              (SizeWriter.mk 3) (StaticWriter.mk (zeros 3) 0)
              (StaticWriter.mk (bytes_of [2; 5; 6]) 3)
              eq_refl eq_refl eq_refl eq_refl) as (He & Hl & _).
  split; [exact He|exact Hl].
Defined.


(** ** Length-prefixed bytes *)

(** [readVarint] looks at no byte outside the form it returns. *)
Lemma readVarint_agree (d1 d2 : Buffer) (off : Z) (r : encoding.Varint Z) :
  encoding.readVarint d1 off = Ok r ->
  Buf.len d1 = Buf.len d2 ->
  (forall i, off <= i < off + encoding.size r -> Buf.get d1 i = Buf.get d2 i) ->
  encoding.readVarint d2 off = Ok r.
Proof.
  intros H1 Hlen. revert H1.
  unfold encoding.readVarint, encoding.check, encoding.enforce.
  rewrite <- Hlen.
  destruct (Z.ltb_spec off (Buf.len d1)); [|discriminate]. cbn [bind].
  destruct (Buf.get d1 off) as [b|] eqn:Hb; [|discriminate].
  cbn [bind of_host].
  destruct (Z.eqb_spec b 0xff) as [Hff|Hff];
    [|destruct (Z.eqb_spec b 0xfe) as [Hfe|Hfe];
      [|destruct (Z.eqb_spec b 0xfd) as [Hfd|Hfd]]].
  - destruct (Z.leb_spec (off + 9) (Buf.len d1)); [|discriminate]. cbn [bind].
    destruct (encoding.readU64 d1 (off + 1)) as [v| |] eqn:H64;
      try discriminate.
    cbn [bind]. destruct (Z.ltb_spec 0xffffffff v); [|discriminate].
    cbn [bind]. intros [= <-] Hag. cbn [encoding.size] in Hag.
    rewrite <- (Hag off), Hb by lia. cbn [bind of_host].
    destruct (Z.eqb_spec b 255); [|contradiction].
    assert (H64' : encoding.readU64 d2 (off + 1) = Ok v).
    { rewrite <- H64. unfold encoding.readU64, Buf.readUInt32LE.
      rewrite <- !Hag by lia. reflexivity. }
    rewrite H64'. cbn [bind].
    destruct (Z.ltb_spec 4294967295 v); [reflexivity|lia].
  - destruct (Z.leb_spec (off + 5) (Buf.len d1)); [|discriminate]. cbn [bind].
    destruct (Buf.readUInt32LE d1 (off + 1)) as [v|] eqn:Hv; [|discriminate].
    cbn [bind of_host]. destruct (Z.ltb_spec 0xffff v); [|discriminate].
    cbn [bind]. intros [= <-] Hag. cbn [encoding.size] in Hag.
    rewrite <- (Hag off), Hb by lia. cbn [bind of_host].
    destruct (Z.eqb_spec b 255); [contradiction|].
    destruct (Z.eqb_spec b 254); [|contradiction].
    assert (Hv' : Buf.readUInt32LE d2 (off + 1) = Some v).
    { rewrite <- Hv. unfold Buf.readUInt32LE.
      rewrite <- !Hag by lia. reflexivity. }
    rewrite Hv'. cbn [bind of_host].
    destruct (Z.ltb_spec 65535 v); [reflexivity|lia].
  - destruct (Z.leb_spec (off + 3) (Buf.len d1)); [|discriminate]. cbn [bind].
    destruct (Buf.get d1 (off + 1)) as [b1|] eqn:Hb1; [|discriminate].
    destruct (Buf.get d1 (off + 2)) as [b2|] eqn:Hb2; [|discriminate].
    cbn [bind of_host].
    destruct (0xfd <=? JS.bor b1 (JS.shl b2 8)) eqn:Hc; [|discriminate].
    cbn [bind]. intros [= <-] Hag. cbn [encoding.size] in Hag.
    rewrite <- (Hag off), <- (Hag (off + 1)), <- (Hag (off + 2)), Hb, Hb1, Hb2
      by lia.
    cbn [bind of_host].
    destruct (Z.eqb_spec b 255); [contradiction|].
    destruct (Z.eqb_spec b 254); [contradiction|].
    destruct (Z.eqb_spec b 253); [|contradiction].
    rewrite Hc. reflexivity.
  - intros [= <-] Hag. cbn [encoding.size] in Hag.
    rewrite <- (Hag off), Hb by lia. cbn [bind of_host].
    destruct (Z.eqb_spec b 255); [contradiction|].
    destruct (Z.eqb_spec b 254); [contradiction|].
    destruct (Z.eqb_spec b 253); [contradiction|reflexivity].
Qed.

Lemma copy_whole (src tgt : Buffer) (ts : Z) :
  0 <= ts -> ts + Buf.len src <= Buf.len tgt -> 0 < Buf.len src ->
  Buf.copy src tgt ts 0 (Buf.len src)
  = Some (take (Z.to_nat ts) tgt ++ src
          ++ drop (Z.to_nat ts + length src) tgt, Buf.len src).
Proof.
  intros H0 Hroom Hpos. unfold Buf.copy, Buf.in_range.
  destruct (Z.leb_spec 0 ts); [|lia].
  destruct (Z.leb_spec 0 (Buf.len src)); [|lia]. cbn [andb Z.leb Z.compare].
  rewrite Z.min_id, Z.sub_0_r, Z.min_l by lia.
  destruct (Z.leb_spec (Buf.len src) 0); [lia|].
  change (Z.to_nat 0) with 0%nat. rewrite drop_0.
  unfold Buf.len in *. rewrite Nat2Z.id, take_ge by lia.
  rewrite blit_inside by lia. reflexivity.
Qed.

Lemma get_prefix (pre rest : list byte) (i : Z) :
  0 <= i < Z.of_nat (length pre) ->
  Buf.get (pre ++ rest) i = Buf.get pre i.
Proof.
  intros Hi. unfold Buf.get. destruct (Z.ltb_spec i 0); [lia|].
  now rewrite lookup_app_l by lia.
Qed.

Lemma get_take (data : Buffer) (n : nat) (i : Z) :
  0 <= i < Z.of_nat n -> Buf.get (take n data) i = Buf.get data i.
Proof.
  intros Hi. unfold Buf.get. destruct (Z.ltb_spec i 0); [lia|].
  now rewrite lookup_take_lt by lia.
Qed.

(** X17. Length-prefixed bytes, written by the Static Writer and read
    back. With room for them, [StaticWriter.writeVarBytes] moves the
    offset by [sizeVarBytes value], which is [sizeVarlen] of the length;
    [readVarint] at the old offset returns the length of [value] in
    [sizeVarint] bytes, and the bytes from there to the new offset are
    [value]. *)
Theorem var_bytes_read_back (value : Buffer) (w : StaticWriter.t)
    (Hoff : 0 <= StaticWriter.offset w)
    (Hroom : StaticWriter.offset w + encoding.sizeVarBytes value
             <= Buf.len (StaticWriter.data w))
    (Hsafe : Buf.len value <= JS.MAX_SAFE_INTEGER) :
  exists w',
    StaticWriter.writeVarBytes value w = (w', Ok tt)
    /\ StaticWriter.offset w'
       = StaticWriter.offset w + encoding.sizeVarBytes value
    /\ encoding.sizeVarBytes value = encoding.sizeVarlen (Buf.len value)
    /\ encoding.readVarint (StaticWriter.data w') (StaticWriter.offset w)
       = Ok (encoding.mkVarint (encoding.sizeVarint (Buf.len value))
               (Buf.len value))
    /\ Buf.slice (StaticWriter.data w')
         (StaticWriter.offset w + encoding.sizeVarint (Buf.len value))
         (StaticWriter.offset w')
       = value.
Proof.
  destruct w as [data off]. cbn [StaticWriter.offset StaticWriter.data] in *.
  unfold encoding.sizeVarBytes, encoding.sizeVarlen in *.
  pose proof (sizeVarint_pos (Buf.len value)) as Hs.
  set (s := encoding.sizeVarint (Buf.len value)) in *.
  assert (Hlv : 0 <= Buf.len value) by (unfold Buf.len; lia).
  destruct (readVarint_writeVarint data (Buf.len value) off)
    as (out & Hw & Hl & Hr); [lia|lia|fold s; lia|]. fold s in Hw, Hr.
  unfold StaticWriter.writeVarBytes, StaticWriter.writeVarint.
  cbn [StaticWriter.offset StaticWriter.data].
  rewrite Hw. cbn [StaticWriter.assign StaticWriter.andthen].
  unfold StaticWriter.writeBytes. cbn [StaticWriter.offset StaticWriter.data].
  destruct (Z.eqb_spec (Buf.len value) 0) as [Hz|Hnz].
  - eexists. split; [reflexivity|]. cbn [StaticWriter.offset StaticWriter.data].
    split; [lia|]. split; [reflexivity|]. split; [exact Hr|].
    destruct value; [|unfold Buf.len in Hz; cbn in Hz; lia].
    unfold Buf.slice, Buf.clamp.
    destruct (off + s <? 0); rewrite Z.sub_diag; reflexivity.
  - rewrite copy_whole by lia.
    eexists. split; [reflexivity|]. cbn [StaticWriter.offset StaticWriter.data].
    split; [lia|]. split; [reflexivity|].
    assert (Htk : length (take (Z.to_nat (off + s)) out) = Z.to_nat (off + s))
      by (rewrite length_take; unfold Buf.len in *; lia).
    split.
    + apply (readVarint_agree out); [exact Hr| |].
      * unfold Buf.len in *.
        rewrite !length_app, Htk, length_drop. lia.
      * cbn [encoding.size]. intros i Hi.
        rewrite get_prefix by lia. now rewrite get_take by lia.
    + unfold Buf.slice, Buf.clamp, Buf.len in *.
      rewrite !length_app, Htk, length_drop.
      destruct (Z.ltb_spec (off + s) 0); [lia|].
      destruct (Z.ltb_spec (off + s + Z.of_nat (length value)) 0); [lia|].
      rewrite !Z.min_l by lia.
      rewrite drop_app_length' by lia.
      rewrite take_app_length'; [reflexivity|lia].
Qed.

Lemma var_bytes_read_back_witness :
  exists w',
    StaticWriter.writeVarBytes (bytes_of [5; 6; 7])
      (StaticWriter.mk (zeros 6) 1) = (w', Ok tt)
    /\ StaticWriter.offset w' = 1 + encoding.sizeVarBytes (bytes_of [5; 6; 7])
    /\ encoding.readVarint (StaticWriter.data w') 1
       = Ok (encoding.mkVarint 1 3).
Proof.
  destruct (var_bytes_read_back (bytes_of [5; 6; 7])
              (StaticWriter.mk (zeros 6) 1))
    as (w' & Hw & Ho & _ & Hr & _);
    [cbn; lia | vm_compute; discriminate | vm_compute; discriminate|].
  exists w'. split; [exact Hw|]. split; [exact Ho|exact Hr].
Defined.

(** ** [render] of the Buffer Writer, the pool, and [copy] *)

Section Rendering.
Context `{Host}.


(** X19. [StaticWriter.pool] does not look at the sign of the size. A
    negative size is "at most the size of the pool", so the slab is
    sliced with a negative end, which counts from its end: the writer
    handed out spans the slab but for the last [-size] bytes (nothing
    when [-size] is the size of the pool or more). The constructor
    refuses the same size by its assertion. *)
Theorem pool_negative_size (st : Pool.state) (size : Z)
    (Hok : Pool.pool_ok st)
    (Hsize : size < 0) :
  (exists st' slab,
     Pool.pool size st
     = (st', Ok (Pool.mkWriter
                   (Pool.mkView slab 0 (Z.max 0 (StaticWriter.POOLSIZE + size)))
                   0))
     /\ Pool.POOL st' = Some (Pool.mkView slab 0 StaticWriter.POOLSIZE))
  /\ StaticWriter.init_size size StaticWriter.create
     = (StaticWriter.create, Throw AssertionError).
Proof.
  split.
  - unfold Pool.pool. rewrite POOLSIZE_value in *.
    destruct (Z.leb_spec size 102400); [|lia].
    assert (Hslice : forall slab,
      Pool.slice (Pool.mkView slab 0 102400) 0 size
      = Pool.mkView slab 0 (Z.max 0 (102400 + size))).
    { intros slab. unfold Pool.slice, Pool.clamp.
      cbn [Pool.span Pool.base Pool.byteOffset].
      destruct (Z.ltb_spec size 0); [|lia]. cbn [Z.ltb Z.compare].
      rewrite (Z.min_l 0) by lia. f_equal; lia. }
    unfold Pool.pool_ok in Hok. rewrite POOLSIZE_value in Hok.
    destruct (Pool.POOL st) as [p|] eqn:Hp.
    + destruct p as [slab bo sp]. cbn in Hok.
      destruct Hok as (-> & -> & _).
      exists st, slab. rewrite Hslice. split; [reflexivity|exact Hp].
    + destruct (allocUnsafe_len StaticWriter.POOLSIZE) as (bytes & Ha & Hl);
        [rewrite POOLSIZE_value; lia|].
      rewrite POOLSIZE_value in Ha.
      unfold Pool.alloc. rewrite Ha. rewrite Hslice.
      eexists _, _. split; reflexivity.
  - unfold StaticWriter.init_size, JS.ushr, JS.toUint32.
    change (0 mod 32) with 0. rewrite Z.shiftr_0_r.
    destruct (Z.eqb_spec (size mod 2 ^ 32) size) as [He|Hne]; [|reflexivity].
    exfalso. pose proof (Z.mod_pos_bound size (2 ^ 32) ltac:(lia)). lia.
Qed.

End Rendering.


Lemma pool_negative_size_witness :
  exists st' slab,
    Pool.pool (H := latin1) (-400) Pool.initial
    = (st', Ok (Pool.mkWriter (Pool.mkView slab 0 102000) 0))
    /\ Pool.POOL st' = Some (Pool.mkView slab 0 StaticWriter.POOLSIZE).
Proof.
  exact (proj1 (pool_negative_size (H := latin1) Pool.initial (-400)
                  pool_ok_initial ltac:(lia))).
Defined.

Lemma len_slice (value : Buffer) (start end_ : Z) :
  0 <= start <= end_ -> end_ <= Buf.len value ->
  Buf.slice value start end_
  = take (Z.to_nat (end_ - start)) (drop (Z.to_nat start) value)
  /\ Buf.len (Buf.slice value start end_) = end_ - start.
Proof.
  intros Hs He. unfold Buf.slice, Buf.clamp.
  destruct (Z.ltb_spec start 0); [lia|]. destruct (Z.ltb_spec end_ 0); [lia|].
  rewrite !Z.min_l by lia. split; [reflexivity|].
  unfold Buf.len in *. rewrite length_take, length_drop. lia.
Qed.

(** X20. [copy] in the three writers. For a range inside [value], all
    three move the offset by [end - start]; the Buffer Writer queues
    [value.slice(start, end)] (nothing for an empty range), and the
    Static Writer, given room, leaves these same bytes between the old
    offset and the new one. For a range that runs backwards the Buffer
    Writer's assertion throws, while the Size Writer and the Static
    Writer move the offset back by [start - end] and store nothing. *)
Theorem copy_in_the_three_writers (value : Buffer) (start end_ : Z)
    (sw : SizeWriter.t) (bw : BufferWriter.t) (w : StaticWriter.t)
    (Hstart : 0 <= start <= Buf.len value)
    (Hend : 0 <= end_ <= Buf.len value)
    (Hoff : 0 <= StaticWriter.offset w)
    (Hroom : StaticWriter.offset w + (end_ - start)
             <= Buf.len (StaticWriter.data w)) :
  SizeWriter.offset (SizeWriter.copy value start end_ sw)
  = SizeWriter.offset sw + (end_ - start)
  /\ (start <= end_ ->
      exists bw' w',
        BufferWriter.copy value start end_ bw = (bw', Ok tt)
        /\ BufferWriter.offset bw' = BufferWriter.offset bw + (end_ - start)
        /\ BufferWriter.ops bw'
           = BufferWriter.ops bw
             ++ (if start =? end_ then []
                 else [BufferWriter.BufferOp BufferWriter.BYTES
                         (Buf.slice value start end_)])
        /\ StaticWriter.copy value start end_ w = (w', Ok tt)
        /\ StaticWriter.offset w' = StaticWriter.offset w + (end_ - start)
        /\ Buf.slice (StaticWriter.data w') (StaticWriter.offset w)
             (StaticWriter.offset w')
           = Buf.slice value start end_)
  /\ (end_ < start ->
      BufferWriter.copy value start end_ bw = (bw, Throw AssertionError)
      /\ StaticWriter.copy value start end_ w
         = (StaticWriter.mk (StaticWriter.data w)
              (StaticWriter.offset w + (end_ - start)), Ok tt)).
Proof.
  split; [reflexivity|]. split.
  - intros Hle.
    destruct (len_slice value start end_) as [Hsl Hlen]; [lia|lia|].
    unfold BufferWriter.copy, StaticWriter.copy, BufferWriter.writeBytes.
    destruct (Z.leb_spec start end_); [|lia]. cbn [negb]. rewrite Hlen.
    destruct (Z.eqb_spec (end_ - start) 0) as [Hz|Hnz].
    + destruct (Z.eqb_spec start end_); [|lia].
      exists bw, w. split; [reflexivity|]. split; [lia|].
      split; [now rewrite app_nil_r|]. split; [reflexivity|].
      split; [lia|].
      rewrite Hsl, Hz. unfold Buf.slice. rewrite Z.sub_diag. reflexivity.
    + destruct (Z.eqb_spec start end_); [lia|].
      assert (Hcopy : Buf.copy value (StaticWriter.data w) (StaticWriter.offset w)
                        start end_
                      = Some (take (Z.to_nat (StaticWriter.offset w))
                                (StaticWriter.data w)
                              ++ Buf.slice value start end_
                              ++ drop (Z.to_nat (StaticWriter.offset w)
                                       + Z.to_nat (end_ - start))
                                   (StaticWriter.data w), end_ - start)).
      { unfold Buf.copy, Buf.in_range.
        destruct (Z.leb_spec 0 (StaticWriter.offset w)); [|lia].
        destruct (Z.leb_spec 0 end_); [|lia].
        destruct (Z.leb_spec 0 start); [|lia].
        destruct (Z.leb_spec start (Buf.len value)); [|lia]. cbn [andb].
        rewrite (Z.min_l end_), Z.min_l by lia.
        destruct (Z.leb_spec (end_ - start) 0); [lia|].
        rewrite <- Hsl.
        rewrite blit_inside by (unfold Buf.len in *; lia).
        unfold Buf.len in Hlen.
        replace (length (Buf.slice value start end_))
          with (Z.to_nat (end_ - start)) by lia.
        reflexivity. }
      rewrite Hcopy.
      eexists _, _. split; [reflexivity|].
      cbn [BufferWriter.push BufferWriter.offset BufferWriter.ops
           StaticWriter.offset StaticWriter.data].
      split; [reflexivity|]. split; [reflexivity|]. split; [reflexivity|].
      split; [reflexivity|].
      assert (Htk : length (take (Z.to_nat (StaticWriter.offset w))
                              (StaticWriter.data w))
                    = Z.to_nat (StaticWriter.offset w))
        by (rewrite length_take; unfold Buf.len in *; lia).
      cbn [StaticWriter.offset StaticWriter.data].
      unfold Buf.slice at 1. unfold Buf.clamp, Buf.len in *.
      rewrite !length_app, Htk, length_drop.
      destruct (Z.ltb_spec (StaticWriter.offset w) 0); [lia|].
      destruct (Z.ltb_spec (StaticWriter.offset w + (end_ - start)) 0); [lia|].
      rewrite !Z.min_l by lia.
      rewrite drop_app_length' by lia.
      rewrite take_app_length'; [reflexivity|lia].
  - intros Hlt. unfold BufferWriter.copy, StaticWriter.copy.
    destruct (Z.leb_spec start end_); [lia|]. cbn [negb].
    split; [reflexivity|].
    destruct (Z.eqb_spec (end_ - start) 0); [lia|].
    unfold Buf.copy, Buf.in_range.
    destruct (Z.leb_spec 0 (StaticWriter.offset w)); [|lia].
    destruct (Z.leb_spec 0 end_); [|lia].
    destruct (Z.leb_spec 0 start); [|lia].
    destruct (Z.leb_spec start (Buf.len value)); [|lia]. cbn [andb].
    match goal with |- context [?n <=? 0] =>
      destruct (Z.leb_spec n 0); [reflexivity|lia]
    end.
Qed.

Lemma copy_in_the_three_writers_witness :
  exists bw' w',
    BufferWriter.copy (bytes_of [1; 2; 3; 4]) 1 3 BufferWriter.create
    = (bw', Ok tt)
    /\ BufferWriter.offset bw' = BufferWriter.offset BufferWriter.create + (3 - 1)
    /\ StaticWriter.copy (bytes_of [1; 2; 3; 4]) 1 3 (StaticWriter.mk (zeros 3) 1)
       = (w', Ok tt)
    /\ Buf.slice (StaticWriter.data w') 1 (StaticWriter.offset w')
       = Buf.slice (bytes_of [1; 2; 3; 4]) 1 3.
Proof.
  destruct (copy_in_the_three_writers (bytes_of [1; 2; 3; 4]) 1 3
              SizeWriter.create BufferWriter.create
              (StaticWriter.mk (zeros 3) 1))
    as (_ & Hin & _);
    [vm_compute; split; discriminate | vm_compute; split; discriminate
    | cbn; lia | vm_compute; discriminate |].
  destruct (Hin ltac:(lia)) as (bw' & w' & H1 & H2 & _ & H4 & _ & H6).
  exists bw', w'. repeat split; assumption.
Defined.

Section Hashes.
Context `{Host}.

(** X21. [writeHash]. The Size Writer counts 32 bytes for whatever it is
    given. The Buffer Writer and the Static Writer assert the length
    first: a hash given as bytes must be 32 bytes long, one given as
    text 64 characters, and anything else throws an assertion error and
    leaves the writer as it was. A hash of 32 bytes is queued as one
    [BYTES] record by the Buffer Writer; the Static Writer, when the 32
    bytes fit from its offset on, copies them there and advances by
    32. *)
Theorem writeHash_asserts_the_length (bytes : Buffer) (text : string)
    (zw : SizeWriter.t) (bw : BufferWriter.t) (w : StaticWriter.t) :
  SizeWriter.offset (SizeWriter.writeHash (inl bytes) zw)
  = SizeWriter.offset zw + 32
  /\ SizeWriter.offset (SizeWriter.writeHash (inr text) zw)
     = SizeWriter.offset zw + 32
  /\ (Buf.len bytes <> 32 ->
      BufferWriter.writeHash (inl bytes) bw = (bw, Throw AssertionError)
      /\ StaticWriter.writeHash (inl bytes) w = (w, Throw AssertionError))
  /\ (String.length text <> 64%nat ->
      BufferWriter.writeHash (inr text) bw = (bw, Throw AssertionError)
      /\ StaticWriter.writeHash (inr text) w = (w, Throw AssertionError))
  /\ (Buf.len bytes = 32 ->
      BufferWriter.writeHash (inl bytes) bw
      = (BufferWriter.push 32 (BufferWriter.BufferOp BufferWriter.BYTES bytes) bw,
         Ok tt)
      /\ (0 <= StaticWriter.offset w ->
          StaticWriter.offset w + 32 <= Buf.len (StaticWriter.data w) ->
          StaticWriter.writeHash (inl bytes) w
          = ({| StaticWriter.data :=
                  take (Z.to_nat (StaticWriter.offset w)) (StaticWriter.data w)
                  ++ bytes
                  ++ drop (Z.to_nat (StaticWriter.offset w + 32))
                       (StaticWriter.data w);
                StaticWriter.offset := StaticWriter.offset w + 32 |}, Ok tt))).
Proof.
  split; [reflexivity|]. split; [reflexivity|].
  split; [|split].
  - intros Hlen. unfold BufferWriter.writeHash, StaticWriter.writeHash.
    destruct (Z.eqb_spec (Buf.len bytes) 32); [contradiction|]. now split.
  - intros Hlen. unfold BufferWriter.writeHash, StaticWriter.writeHash.
    destruct (Nat.eqb_spec (String.length text) 64); [contradiction|]. now split.
  - intros Hlen. unfold BufferWriter.writeHash, StaticWriter.writeHash.
    rewrite Hlen. cbn [Z.eqb Pos.eqb negb]. split.
    + unfold BufferWriter.writeBytes. now rewrite Hlen.
    + intros H0 Hroom. unfold StaticWriter.writeBytes. rewrite Hlen.
      cbn [Z.eqb]. rewrite <- Hlen at 1.
      rewrite copy_whole by lia. cbv beta iota.
      do 4 f_equal. unfold Buf.len in Hlen. f_equal. lia.
Qed.

End Hashes.

Lemma writeHash_asserts_the_length_witness :
  BufferWriter.writeHash (H := latin1) (inl (bytes_of [1; 2; 3])) BufferWriter.create
  = (BufferWriter.create, Throw AssertionError)
  /\ StaticWriter.writeHash (H := latin1) (inl (zeros 32))
       (StaticWriter.mk (bytes_of [9; 9] ++ zeros 38) 2)
     = (StaticWriter.mk
          (take 2 (bytes_of [9; 9] ++ zeros 38) ++ zeros 32
           ++ drop 34 (bytes_of [9; 9] ++ zeros 38)) 34, Ok tt).
Proof.
  split.
  - refine (proj1 (proj1 (proj2 (proj2
             (writeHash_asserts_the_length (H := latin1) (bytes_of [1; 2; 3])
                EmptyString SizeWriter.create BufferWriter.create
                StaticWriter.create))) _)).
    vm_compute. discriminate.
  - refine (proj2 (proj2 (proj2 (proj2 (proj2
             (writeHash_asserts_the_length (H := latin1) (zeros 32) EmptyString
                SizeWriter.create BufferWriter.create
                (StaticWriter.mk (bytes_of [9; 9] ++ zeros 38) 2)))))
             eq_refl) _ _).
    + vm_compute. discriminate.
    + vm_compute. discriminate.
Defined.
